(** * Demb-3: image-to-number extraction pipeline

    A shallow embedding of the TypeScript sources

    - [services/ocrService.ts]      ([extractIndianNumbers], [performOCR]),
    - [services/imageProcessing.ts] ([preprocessImage], [sharpen]),
    - [App.tsx]                     ([handleFileUpload], [saveToHistory],
                                     [downloadCSV], [downloadAllCombined],
                                     [clearResults] and the handlers of the
                                     download buttons),

    together with the properties of the specification that were checked
    against them, and with further properties that the sources have. *)

From Stdlib Require Import ZArith NArith QArith Qround Ascii String Lia Lqa.
From stdpp Require Import base list.

Local Open Scope nat_scope.

(** ** JavaScript strings

    A JavaScript string is a sequence of UTF-16 code units.  A code unit is
    modelled by its number, so that text recognised outside the ASCII range
    is covered as well. *)

Abbreviation code_unit := N (only parsing).
Abbreviation text := (list N) (only parsing).

(** [str "abc"] is the text of an ASCII literal. *)
Definition str (s : string) : text :=
  map N_of_ascii (list_ascii_of_string s).

(** ** Promises and thrown values *)

Module Js.

(** The values that the sources throw or reject with: an [Error] object
    with its message, a string, or a DOM event. *)
Inductive error : Type :=
| ErrorObject (message : text)
| StringValue (s : text)
| EventObject.

(** [error.message]; [None] is [undefined]. *)
Definition message (e : error) : option text :=
  match e with
  | ErrorObject m => Some m
  | StringValue _ => None
  | EventObject => None
  end.

(** How an awaited promise settles. *)
Inductive outcome (A : Type) : Type :=
| Resolved (a : A)
| Rejected (e : error).
Arguments Resolved {A} a.
Arguments Rejected {A} e.

(** [Math.round] *)
Definition Math_round (q : Q) : Z := Qfloor (q + (1 # 2))%Q.

End Js.

(** ** Asynchronous code

    An [async] function is run in a world: the OCR workers that are alive,
    the console, and the state [S] of the application.  It returns a value
    or throws, and leaves a world. *)

Module Async.

Record world (S : Type) : Type := World {
  live_workers : nat;
  console : list Js.error;
  app_state : S
}.
Arguments World {S} _ _ _.
Arguments live_workers {S} _.
Arguments console {S} _.
Arguments app_state {S} _.

(** A state and error monad. *)
Definition M (S A : Type) : Type := world S → Js.outcome A * world S.

Section monad.
Context {S : Type}.

Definition ret {A} (a : A) : M S A := λ w, (Js.Resolved a, w).

Definition throw {A} (e : Js.error) : M S A := λ w, (Js.Rejected e, w).

(** [await m], then [k]. *)
Definition bind {A B} (m : M S A) (k : A → M S B) : M S B :=
  λ w, match m w with
       | (Js.Resolved a, w') => k a w'
       | (Js.Rejected e, w') => (Js.Rejected e, w')
       end.

(** [try { m } catch (e) { handler e }] *)
Definition try_catch {A} (m : M S A) (handler : Js.error → M S A) : M S A :=
  λ w, match m w with
       | (Js.Resolved a, w') => (Js.Resolved a, w')
       | (Js.Rejected e, w') => handler e w'
       end.

(** A change of the state of the application. *)
Definition modify (f : S → S) : M S unit :=
  λ w, (Js.Resolved tt, World (live_workers w) (console w) (f (app_state w))).

(** [console.error(err)] *)
Definition console_error (err : Js.error) : M S unit :=
  λ w, (Js.Resolved tt, World (live_workers w) (console w ++ [err]) (app_state w)).

(** A promise of the environment settles as the environment says. *)
Definition settle {A} (o : Js.outcome A) : M S A :=
  match o with
  | Js.Resolved a => ret a
  | Js.Rejected e => throw e
  end.

(** [for (const x of l) { body x }] *)
Fixpoint for_each {A} (l : list A) (body : A → M S unit) : M S unit :=
  match l with
  | [] => ret tt
  | x :: l' => bind (body x) (λ _, for_each l' body)
  end.

End monad.

Notation "'let_await' x ':=' m 'in' k" := (bind m (λ x, k))
  (at level 10, x name, m at level 100, k at level 200).
Notation "'do_await' m 'in' k" := (bind m (λ _, k))
  (at level 10, m at level 100, k at level 200).

End Async.

(** ** A backtracking matcher for the regular expressions of the sources *)

Module Regex.

(** Character classes of ECMAScript (no [u], [i] or [v] flag). *)

Definition between (lo hi c : code_unit) : bool :=
  ((lo <=? c) && (c <=? hi))%N.

(** [\d] is [[0-9]]. *)
Definition is_digit (c : code_unit) : bool := between 48%N 57%N c.

(** [\w], the word characters of [\b], is [[A-Za-z0-9_]]. *)
Definition is_word (c : code_unit) : bool :=
  between 97%N 122%N c || between 65%N 90%N c || is_digit c || (c =? 95)%N.

Definition is_word_opt (o : option code_unit) : bool :=
  match o with
  | Some c => is_word c
  | None => false
  end.

(** The syntax that the sources use: literal characters and classes,
    sequence, alternation, the greedy [?], the counted repetition [{n}], one
    capturing group and the assertion [\b]. *)
Inductive regex : Type :=
| Eps
| Class (p : code_unit → bool)
| Seq (r1 r2 : regex)
| Alt (r1 r2 : regex)
| Opt (r : regex)
| Times (n : nat) (r : regex)
| Group (r : regex)
| WordBoundary.

Definition Chr (c : code_unit) : regex := Class (N.eqb c).

(** A literal is the sequence of its characters. *)
Fixpoint Lit (s : text) : regex :=
  match s with
  | [] => Eps
  | c :: s' => Seq (Chr c) (Lit s')
  end.

(** The matcher state: the character before the current position (for
    [\b]), the input that remains, the number of characters consumed since
    the start of the match, and the capture of group 1. *)
Record mstate : Type := MState {
  prev : option code_unit;
  input : text;
  pos : nat;
  group1 : option text
}.

Definition advance (c : code_unit) (rest : text) (st : mstate) : mstate :=
  {| prev := Some c; input := rest; pos := S (pos st); group1 := group1 st |}.

Definition set_group (g : text) (st : mstate) : mstate :=
  {| prev := prev st; input := input st; pos := pos st; group1 := Some g |}.

(** [\b] holds where exactly one side is a word character. *)
Definition at_word_boundary (st : mstate) : bool :=
  xorb (is_word_opt (prev st)) (is_word_opt (head (input st))).

(** The matcher, in continuation-passing style as in the ECMAScript
    specification: [rmatch r st k] matches [r] at [st] and hands every
    candidate end state to the continuation [k]; the first candidate that
    [k] accepts wins, in priority order (left alternative first, greedy
    quantifier first).  An iteration of [?] that consumes nothing is
    rejected, as RepeatMatcher does. *)
Fixpoint rmatch (r : regex) (st : mstate) (k : mstate → option mstate)
    {struct r} : option mstate :=
  match r with
  | Eps => k st
  | Class p =>
      match input st with
      | c :: rest => if p c then k (advance c rest st) else None
      | [] => None
      end
  | Seq r1 r2 => rmatch r1 st (λ st', rmatch r2 st' k)
  | Alt r1 r2 =>
      match rmatch r1 st k with
      | Some res => Some res
      | None => rmatch r2 st k
      end
  | Opt r1 =>
      match rmatch r1 st (λ st', if pos st' =? pos st then None else k st') with
      | Some res => Some res
      | None => k st
      end
  | Times n r1 =>
      (fix rep (n : nat) (st : mstate) {struct n} : option mstate :=
         match n with
         | O => k st
         | S n' => rmatch r1 st (rep n')
         end) n st
  | Group r1 =>
      rmatch r1 st
        (λ st', k (set_group (take (pos st' - pos st) (input st)) st'))
  | WordBoundary => if at_word_boundary st then k st else None
  end.

(** One match object: [index], the matched substring [m[0]] and the
    capture [m[1]] ([None] is [undefined]). *)
Record rmatch_result : Type := MatchResult {
  m_index : nat;
  m_text : text;
  m_group1 : option text
}.

(** RegExpBuiltinExec at one start position: [before] is the character in
    front of the position, [t] the input from the position on. *)
Definition start (before : option code_unit) (t : text) : mstate :=
  {| prev := before; input := t; pos := 0; group1 := None |}.

Definition exec_at (r : regex) (before : option code_unit) (t : text)
    : option mstate :=
  rmatch r (start before t) Some.

(** [String.prototype.matchAll] with a global regex: the matcher is tried at
    [lastIndex], then at every later index up to the length of the text; a
    match moves [lastIndex] to its end (an empty match moves it by one).
    [scan] walks the text once: [skip] counts the characters still covered
    by the previous match, [i] is the index of the current position and
    [before] the character in front of it. *)
Fixpoint scan (r : regex) (i : nat) (before : option code_unit) (t : text)
    (skip : nat) {struct t} : list rmatch_result :=
  match skip with
  | S skip' =>
      match t with
      | [] => []
      | c :: t' => scan r (S i) (Some c) t' skip'
      end
  | O =>
      match exec_at r before t with
      | Some st =>
          MatchResult i (take (pos st) t) (group1 st) ::
          match t with
          | [] => []
          | c :: t' => scan r (S i) (Some c) t' (pos st - 1)
          end
      | None =>
          match t with
          | [] => []
          | c :: t' => scan r (S i) (Some c) t' 0
          end
      end
  end.

Definition matchAll (r : regex) (t : text) : list rmatch_result :=
  scan r 0 None t 0.

(** *** What a regex can match

    [Matches r s s'] says that some way of matching [r] leads from state [s]
    to state [s'], without regard to priority.  The matcher is sound and
    complete for it ([rmatch_sound], [rmatch_complete] below). *)
Fixpoint Matches (r : regex) (s s' : mstate) {struct r} : Prop :=
  match r with
  | Eps => s' = s
  | Class p => ∃ c rest, input s = c :: rest ∧ p c = true ∧ s' = advance c rest s
  | Seq r1 r2 => ∃ m, Matches r1 s m ∧ Matches r2 m s'
  | Alt r1 r2 => Matches r1 s s' ∨ Matches r2 s s'
  | Opt r1 => (Matches r1 s s' ∧ pos s' ≠ pos s) ∨ s' = s
  | Times n r1 =>
      (fix rep (n : nat) (s : mstate) {struct n} : Prop :=
         match n with
         | O => s' = s
         | S n' => ∃ m, Matches r1 s m ∧ rep n' m
         end) n s
  | Group r1 =>
      ∃ m, Matches r1 s m ∧ s' = set_group (take (pos m - pos s) (input s)) m
  | WordBoundary => at_word_boundary s = true ∧ s' = s
  end.

(** The state after the characters [xs] have been consumed. *)
Definition consume (xs : text) (st : mstate) : mstate :=
  {| prev := match last xs with Some c => Some c | None => prev st end;
     input := drop (length xs) (input st);
     pos := pos st + length xs;
     group1 := group1 st |}.

(** The character in front of index [n] of [t], when [before] is in front
    of [t]. *)
Definition before_at (before : option code_unit) (t : text) (n : nat)
    : option code_unit :=
  match n with
  | O => before
  | S m => t !! m
  end.

End Regex.

(** ** services/ocrService.ts *)

Module OcrService.
Import Regex Async.

(** [[6-9]] *)
Definition is_6_to_9 (c : code_unit) : bool := between 54%N 57%N c.

Definition is_space_or_hyphen (c : code_unit) : bool :=
  ((c =? 32) || (c =? 45))%N.

(** [\+91|91|0] *)
Definition country_code : Regex.regex :=
  Alt (Lit (str "+91")) (Alt (Lit (str "91")) (Lit (str "0"))).

(** [[ -]] *)
Definition separator : Regex.regex := Class is_space_or_hyphen.

(** [[6-9]\d{9}] *)
Definition subscriber : Regex.regex :=
  Seq (Class is_6_to_9) (Times 9 (Class is_digit)).

(** [/(?:(?:\+91|91|0)?[ -]?)?([6-9]\d{9})\b/g] *)
Definition regex : Regex.regex :=
  Seq (Opt (Seq (Opt country_code) (Opt separator)))
      (Seq (Group subscriber) WordBoundary).

(** [Set.prototype.add] on a set that keeps insertion order. *)
Definition set_add (x : text) (s : list text) : list text :=
  if decide (x ∈ s) then s else s ++ [x].

(** The body of the [for (const match of matches)] loop: [match[1]] is
    truthy when it is defined and not the empty string. *)
Definition add_match (results : list text) (m : rmatch_result) : list text :=
  match m_group1 m with
  | Some (c :: g) => set_add (str "91" ++ c :: g) results
  | _ => results
  end.

Definition extractIndianNumbers (t : text) : list text :=
  foldl add_match [] (matchAll regex t).

(** *** [performOCR]

    The engine is outside the sources.  What it does during one call is
    given by an [engine]: the messages that it hands to the logger and how
    its promises settle. *)

Record log_message : Type := LogMessage {
  log_status : text;
  log_progress : Q
}.

Record engine (U : Type) : Type := Engine {
  (** [Tesseract.createWorker('eng', 1, {logger})] *)
  on_create : list log_message * Js.outcome unit;
  (** [worker.recognize(imageDataUrl)]; [None] is a result without [data] *)
  on_recognize : U → list log_message * Js.outcome (option text);
  (** [worker.terminate()] *)
  on_terminate : Js.outcome unit
}.
Arguments Engine {U} _ _ _.
Arguments on_create {U} _.
Arguments on_recognize {U} _ _.
Arguments on_terminate {U} _.

Definition failure_message : text := str "Failed to extract text from image".

Section performOCR.
Context {S U : Type}.

(** A worker comes to life, or ceases to be alive. *)
Definition spawned : M S unit :=
  λ w, (Js.Resolved tt, World (Datatypes.S (live_workers w)) (console w) (app_state w)).

Definition released : M S unit :=
  λ w, (Js.Resolved tt, World (pred (live_workers w)) (console w) (app_state w)).

(** The engine hands its messages to the logger of the worker. *)
Definition log_all (logger : log_message → M S unit) (ms : list log_message)
    : M S unit :=
  for_each ms logger.

Definition createWorker (Tesseract : engine U)
    (logger : log_message → M S unit) : M S unit :=
  do_await log_all logger (fst (on_create Tesseract)) in
  do_await settle (snd (on_create Tesseract)) in
  spawned.

Definition recognize (Tesseract : engine U)
    (logger : log_message → M S unit) (imageDataUrl : U)
    : M S (option text) :=
  do_await log_all logger (fst (on_recognize Tesseract imageDataUrl)) in
  settle (snd (on_recognize Tesseract imageDataUrl)).

Definition terminate (Tesseract : engine U) : M S unit :=
  do_await settle (on_terminate Tesseract) in
  released.

(** [const { data: { text } } = ...] throws a [TypeError] when [data] is
    missing. *)
Definition destructure (result : option text) : M S text :=
  match result with
  | Some t => ret t
  | None => throw (Js.ErrorObject (str "Cannot destructure property 'text'"))
  end.

(** The [logger] option: [if (m.status === 'recognizing text')
    onProgress(m.progress)]. *)
Definition logger (onProgress : Q → M S unit) (m : log_message) : M S unit :=
  if decide (log_status m = str "recognizing text")
  then onProgress (log_progress m)
  else ret tt.

Definition performOCR (Tesseract : engine U) (imageDataUrl : U)
    (onProgress : Q → M S unit) : M S text :=
  try_catch
    (do_await createWorker Tesseract (logger onProgress) in
     let_await result :=
       recognize Tesseract (logger onProgress) imageDataUrl in
     let_await t := destructure result in
     do_await terminate Tesseract in
     ret t)
    (λ err,
       do_await console_error err in
       throw (Js.ErrorObject failure_message)).

End performOCR.

(** *** A call of [performOCR], declaratively *)

(** The progress values of the messages that the logger forwards. *)
Definition recognizing (ms : list log_message) : list Q :=
  log_progress <$> filter (λ m, log_status m = str "recognizing text") ms.

(** The arguments of the calls of [onProgress], in order. *)
Definition ocr_progress {U} (Tesseract : engine U) (imageDataUrl : U) : list Q :=
  recognizing (fst (on_create Tesseract)) ++
  match snd (on_create Tesseract) with
  | Js.Resolved _ => recognizing (fst (on_recognize Tesseract imageDataUrl))
  | Js.Rejected _ => []
  end.

(** How the call settles, the number of workers that it leaves alive, and
    what it writes to the console. *)
Definition ocr_run {U} (Tesseract : engine U) (imageDataUrl : U)
    : Js.outcome text * nat * list Js.error :=
  let failed := Js.Rejected (Js.ErrorObject failure_message) in
  match snd (on_create Tesseract) with
  | Js.Rejected e => (failed, 0, [e])
  | Js.Resolved _ =>
      match snd (on_recognize Tesseract imageDataUrl) with
      | Js.Rejected e => (failed, 1, [e])
      | Js.Resolved None =>
          (failed, 1,
           [Js.ErrorObject (str "Cannot destructure property 'text'")])
      | Js.Resolved (Some t) =>
          match on_terminate Tesseract with
          | Js.Rejected e => (failed, 1, [e])
          | Js.Resolved _ => (Js.Resolved t, 0, [])
          end
      end
  end.

(** *** The pattern, declaratively *)

(** The optional prefix and the optional separator of a match. *)
Definition prefixes : list text := [str "+91"; str "91"; str "0"; []].
Definition separators : list text := [str " "; str "-"; []].

(** Ten digits of which the first is 6, 7, 8 or 9. *)
Definition digit_run (cap : text) : Prop :=
  ∃ c ds, cap = c :: ds ∧ is_6_to_9 c = true ∧ length ds = 9 ∧
          Forall (λ d, is_digit d = true) ds.

(** [rest] does not start with a character of the class [follow]. *)
Definition not_followed_by (follow : code_unit → bool) (rest : text) : Prop :=
  ∀ c, head rest = Some c → follow c = false.

(** [t] starts with a match [pfx ++ sp ++ cap] that is followed by [rest]. *)
Record Shape (follow : code_unit → bool) (t pfx sp cap rest : text) : Prop := {
  shape_text : t = pfx ++ sp ++ cap ++ rest;
  shape_prefix : pfx ∈ prefixes;
  shape_separator : sp ∈ separators;
  shape_run : digit_run cap;
  shape_end : not_followed_by follow rest
}.

(** Leftmost, non-overlapping global matching of [Shape]: at index [i] with
    [t] remaining, either a match starts here and the scan goes on behind
    it, or none does and the scan moves on by one character. *)
Inductive LeftmostScan (follow : code_unit → bool)
    : nat → text → list rmatch_result → Prop :=
| scan_done i : LeftmostScan follow i [] []
| scan_miss i c t ms :
    (∀ pfx sp cap rest, ¬ Shape follow (c :: t) pfx sp cap rest) →
    LeftmostScan follow (S i) t ms →
    LeftmostScan follow i (c :: t) ms
| scan_hit i t pfx sp cap rest ms :
    Shape follow t pfx sp cap rest →
    LeftmostScan follow (i + length (pfx ++ sp ++ cap)) rest ms →
    LeftmostScan follow i t
      (MatchResult i (pfx ++ sp ++ cap) (Some cap) :: ms).

(** [t] contains [occ] at a place where a character of class [follow] does
    not come next. *)
Definition contains_before (follow : code_unit → bool) (occ t : text) : Prop :=
  ∃ pre post, t = pre ++ occ ++ post ∧ not_followed_by follow post.

Definition contains (occ t : text) : Prop :=
  ∃ pre post, t = pre ++ occ ++ post.

(** The normalized numbers of the matches, in match order, duplicates
    included. *)
Definition normalize (m : rmatch_result) : option text :=
  match m_group1 m with
  | Some (c :: g) => Some (str "91" ++ c :: g)
  | _ => None
  end.

Definition normalized_matches (t : text) : list text :=
  omap normalize (matchAll regex t).

(** [l] without the later occurrences of each element. *)
Fixpoint first_seen (l : list text) : list text :=
  match l with
  | [] => []
  | x :: l' => x :: filter (λ y, y ≠ x) (first_seen l')
  end.

(** [Array.prototype.join]: the elements with [sep] between them. *)
Fixpoint join (sep : text) (l : list text) : text :=
  match l with
  | [] => []
  | [x] => x
  | x :: l' => x ++ sep ++ join sep l'
  end.

End OcrService.


(** ** services/imageProcessing.ts *)

Module ImageProcessing.
Local Open Scope Z_scope.

(** *** Numbers and pixel buffers

    [ImageData.data] is a [Uint8ClampedArray]: its elements are integers
    from 0 to 255, four per pixel (red, green, blue, alpha), row by row.
    The numbers that the code computes are the integers and the thirds of
    integers below 766, which JavaScript's doubles compare and round as
    the rationals do; they are modelled by [Z] where only integers occur
    and by [Q] otherwise. *)

Definition Qltb (a b : Q) : bool :=
  match Qcompare a b with
  | Lt => true
  | _ => false
  end.

(** The conversion that storing into a [Uint8ClampedArray] applies
    (ECMAScript ToUint8Clamp): clamp to [0, 255], then round to the nearest
    integer, a tie to the even one. *)
Definition ToUint8Clamp (number : Q) : Z :=
  let clamped :=
    if Qltb number 0 then 0%Q
    else if Qltb 255 number then 255%Q
    else number in
  let f := Qfloor clamped in
  if Qltb clamped (inject_Z f + (1 # 2))%Q then f
  else if Qltb (inject_Z f + (1 # 2))%Q clamped then f + 1
  else if Z.even f then f else f + 1.

(** [data[i]] for an index inside the buffer. *)
Definition get (data : list Z) (i : nat) : Z := data !!! i.

(** [data[i] = value]; a store outside the buffer is ignored. *)
Definition set (data : list Z) (i : nat) (value : Q) : list Z :=
  <[i := ToUint8Clamp value]> data.

(** *** Grayscale and contrast: the first loop of [preprocessImage] *)

(** [avg > 128 ? 255 : (avg < 50 ? 0 : avg)] *)
Definition contrast (avg : Q) : Q :=
  if Qltb 128 avg then 255%Q
  else if Qltb avg 50 then 0%Q
  else avg.

(** [(r + g + b) / 3] *)
Definition average (r g b : Z) : Q :=
  ((inject_Z r + inject_Z g + inject_Z b) / 3)%Q.

(** The loop body at offset [i]. *)
Definition grayscale_step (data : list Z) (i : nat) : list Z :=
  let avg := average (get data i) (get data (i + 1)) (get data (i + 2)) in
  let value := contrast avg in
  let data := set data i value in
  let data := set data (i + 1) value in
  set data (i + 2) value.

(** The values of [i] in [for (let i = 0; i < len; i += 4)]. *)
Definition loop_offsets (len : nat) : list nat :=
  (λ k, 4 * k)%nat <$> seq 0 ((len + 3) / 4)%nat.

Definition grayscale_contrast (data : list Z) : list Z :=
  foldl grayscale_step data (loop_offsets (length data)).

(** *** [sharpen] *)

Definition weights : list Z := [0; -1; 0; -1; 5; -1; 0; -1; 0].

(** [Math.round(Math.sqrt(weights.length))] *)
Definition side : nat := 3.

(** [Math.floor(side / 2)] *)
Definition halfSide : Z := 1.

(** The body of the two kernel loops: [acc] holds [r], [g] and [b]. *)
Definition kernel_step (src : list Z) (sw sh sx sy cy cx : nat)
    (acc : Z * Z * Z) : Z * Z * Z :=
  let scy := Z.of_nat sy + Z.of_nat cy - halfSide in
  let scx := Z.of_nat sx + Z.of_nat cx - halfSide in
  if (0 <=? scy) && (scy <? Z.of_nat sh) && (0 <=? scx) && (scx <? Z.of_nat sw)
  then
    let srcOff := Z.to_nat ((scy * Z.of_nat sw + scx) * 4) in
    let wt := weights !!! (cy * side + cx)%nat in
    let '(r, g, b) := acc in
    (r + get src srcOff * wt,
     g + get src (srcOff + 1) * wt,
     b + get src (srcOff + 2) * wt)
  else acc.

(** The weighted sums [r], [g], [b] for the pixel [(x, y)]. *)
Definition convolve (src : list Z) (sw sh x y : nat) : Z * Z * Z :=
  foldl (λ acc cy,
           foldl (λ acc cx, kernel_step src sw sh x y cy cx acc) acc (seq 0 side))
        (0, 0, 0) (seq 0 side).

(** The body of the loop over [x]. *)
Definition sharpen_pixel (src : list Z) (sw sh : nat) (dst : list Z)
    (y x : nat) : list Z :=
  let dstOff := ((y * sw + x) * 4)%nat in
  let '(r, g, b) := convolve src sw sh x y in
  let dst := set dst dstOff (inject_Z r) in
  let dst := set dst (dstOff + 1) (inject_Z g) in
  let dst := set dst (dstOff + 2) (inject_Z b) in
  set dst (dstOff + 3) 255%Q.

(** [ctx.createImageData(w, h)]: transparent black. *)
Definition createImageData (w h : nat) : list Z := replicate (w * h * 4) 0.

(** [sharpen]: [src] is what [ctx.getImageData] returns, the result is what
    [ctx.putImageData] writes back. *)
Definition sharpen (src : list Z) (w h : nat) : list Z :=
  foldl (λ dst y, foldl (λ dst x, sharpen_pixel src w h dst y x) dst (seq 0 w))
        (createImageData w h) (seq 0 h).

(** The handler [img.onload] of [preprocessImage]: [data] is the decoded
    image of [w] by [h] pixels as [getImageData] returns it, the result the
    content of the canvas that is encoded.  The canvas is modelled as a
    store of the pixel bytes: what [putImageData] writes, [getImageData]
    reads back.  This is exact for opaque pixels; for others a browser may
    round the colours on the way. *)
Definition img_onload (w h : nat) (data : list Z) : list Z :=
  let data := grayscale_contrast data in
  sharpen data w h.

(** What the browser makes of the file: the reader fails, the image does
    not load, the canvas has no 2D context, or the image is decoded to [w]
    by [h] pixels. *)
Inductive load_result : Type :=
| ReaderError
| ImageError
| NoContext
| Loaded (w h : nat) (data : list Z).

(** [canvas.toDataURL('image/png')]: the size and the pixel bytes stand for
    the data URL. *)
Record data_url : Type := DataUrl {
  url_width : nat;
  url_height : nat;
  url_pixels : list Z
}.

(** How the promise of [preprocessImage] settles: [reader.onerror = reject]
    and [img.onerror = reject] reject with the event, a missing context
    with a string; otherwise the promise resolves with the encoded canvas. *)
Definition preprocessImage_settles (file : load_result) : Js.outcome data_url :=
  match file with
  | ReaderError => Js.Rejected Js.EventObject
  | ImageError => Js.Rejected Js.EventObject
  | NoContext => Js.Rejected (Js.StringValue (str "Could not get canvas context"))
  | Loaded w h data => Js.Resolved (DataUrl w h (img_onload w h data))
  end.

Definition preprocessImage {S} (file : load_result) : Async.M S data_url :=
  Async.settle (preprocessImage_settles file).

(** *** Images, declaratively *)

(** The buffer of the [w] by [h] image whose pixel at [(x, y)] is [f x y]. *)
Definition render (w h : nat) (f : nat → nat → list Z) : list Z :=
  seq 0 h ≫= λ y, seq 0 w ≫= λ x, f x y.


(** The offset of channel [c] of the pixel [(x, y)]. *)
Definition offset (w x y c : nat) : nat := ((y * w + x) * 4 + c)%nat.

(** The gray level of a pixel: 255 above an average of 128, 0 below an
    average of 50, and in between the integer nearest to the average. *)
Definition gray_level (r g b : Z) : Z :=
  if 384 <? r + g + b then 255
  else if r + g + b <? 150 then 0
  else (r + g + b + 1) / 3.

(** The first loop, pixel by pixel. *)
Fixpoint gray_pixels (data : list Z) : list Z :=
  match data with
  | r :: g :: b :: a :: data' =>
      let v := gray_level r g b in v :: v :: v :: a :: gray_pixels data'
  | _ => data
  end.

(** Saturation at the ends of the byte range. *)
Definition clamp (s : Z) : Z :=
  if s <? 0 then 0 else if 255 <? s then 255 else s.

Definition is_byte (v : Z) : Prop := 0 ≤ v ≤ 255.

(** The four bytes that [sharpen] produces for the pixel [(x, y)]. *)
Definition pixel_out (src : list Z) (w h x y : nat) : list Z :=
  let '(r, g, b) := convolve src w h x y in
  [clamp r; clamp g; clamp b; 255].


End ImageProcessing.

(** ** App.tsx *)

Module App.
Import OcrService ImageProcessing Async.

(** ['pending' | 'processing' | 'completed' | 'error'] *)
Module Status.
Inductive t : Type := pending | processing | completed | error.
End Status.

Record ProcessingResult : Type := Result {
  id : text;
  fileName : text;
  status : Status.t;
  progress : Z;
  rawText : option text;
  numbers : list text;
  error : option text;
  previewUrl : text
}.

Definition MAX_FILES : nat := 20.

(** A selected file together with what its environment answers: the draw
    of [Math.random] for its id, the object URL, what the browser makes of
    its content, and what the OCR engine does. *)
Record upload : Type := Upload {
  file_name : text;
  random_id : text;
  object_url : text;
  decoded : load_result;
  ocr_engine : engine data_url
}.

#[global] Instance upload_inhabited : Inhabited upload :=
  populate (Upload [] [] [] ReaderError
              (Engine ([], Js.Rejected Js.EventObject)
                      (λ _, ([], Js.Rejected Js.EventObject))
                      (Js.Rejected Js.EventObject))).

#[global] Instance ProcessingResult_inhabited : Inhabited ProcessingResult :=
  populate (Result [] [] Status.pending 0 None [] None []).

(** The state of the component: [results], [isProcessing], and for the
    observer every value that [results] has taken, in order. *)
Record component : Type := Component {
  results : list ProcessingResult;
  isProcessing : bool;
  rendered : list (list ProcessingResult)
}.

(** The argument of [setResults]: the function from the previous state to
    the next. *)
Definition setter : Type := list ProcessingResult → list ProcessingResult.

Definition set_results (f : setter) (c : component) : component :=
  let s := f (results c) in
  Component s (isProcessing c) (rendered c ++ [s]).

Definition setResults (f : setter) : M component unit :=
  modify (set_results f).

Definition setIsProcessing (b : bool) : M component unit :=
  modify (λ c, Component (results c) b (rendered c)).

(** [prev.map(r => r.id === resultId ? f(r) : r)] *)
Definition update (resultId : text) (f : ProcessingResult → ProcessingResult)
    : setter :=
  λ prev, (λ r, if decide (id r = resultId) then f r else r) <$> prev.

(** [{ ...r, status: 'processing' }] *)
Definition start_processing (r : ProcessingResult) : ProcessingResult :=
  Result (id r) (fileName r) Status.processing (progress r) (rawText r)
         (numbers r) (error r) (previewUrl r).

(** [{ ...r, progress: Math.round(progress * 100) }]; the progress is
    modelled by a rational. *)
Definition set_progress (p : Q) (r : ProcessingResult) : ProcessingResult :=
  Result (id r) (fileName r) (status r) (Js.Math_round (p * 100)%Q)
         (rawText r) (numbers r) (error r) (previewUrl r).

(** [{ ...r, status: 'completed', progress: 100, rawText: text, numbers }] *)
Definition complete (t : text) (ns : list text) (r : ProcessingResult)
    : ProcessingResult :=
  Result (id r) (fileName r) Status.completed 100 (Some t) ns (error r)
         (previewUrl r).

(** [{ ...r, status: 'error', error: error.message }] *)
Definition fail (e : Js.error) (r : ProcessingResult) : ProcessingResult :=
  Result (id r) (fileName r) Status.error (progress r) (rawText r) (numbers r)
         (Js.message e) (previewUrl r).

(** An element of [initialResults]. *)
Definition initialResult (u : upload) : ProcessingResult :=
  Result (random_id u) (file_name u) Status.pending 0 None [] None
         (object_url u).

(** The body of the [for] loop: the [try] block and its [catch]. *)
Definition process_file (file : upload) (resultId : text) : M component unit :=
  try_catch
    (do_await setResults (update resultId start_processing) in
     let_await processedDataUrl := preprocessImage (decoded file) in
     let_await t :=
       performOCR (ocr_engine file) processedDataUrl
         (λ progress, setResults (update resultId (set_progress progress))) in
     let numbers := extractIndianNumbers t in
     setResults (update resultId (complete t numbers)))
    (λ error, setResults (update resultId (fail error))).

Definition handleFileUpload (selected : list upload) : M component unit :=
  let files := take MAX_FILES selected in
  if decide (length files = 0) then ret tt else
  do_await setIsProcessing true in
  let initialResults := initialResult <$> files in
  do_await setResults (λ _, initialResults) in
  do_await
    for_each (seq 0 (length files))
      (λ i,
         let file := files !!! i in
         let resultId := id (initialResults !!! i) in
         process_file file resultId) in
  setIsProcessing false.

(** The component at rest with the results [prev], and what an observer
    sees of a run of [handleFileUpload] from there. *)
Definition boot (prev : list ProcessingResult) : world component :=
  World 0 [] (Component prev false []).

Definition trace (selected : list upload) (prev : list ProcessingResult)
    : list (list ProcessingResult) :=
  rendered (app_state (snd (handleFileUpload selected (boot prev)))).

(** *** A run, declaratively *)

(** The changes that one round of the loop makes to the record of its
    file: processing, then either the failure of [preprocessImage], or the
    progress reports of [performOCR] followed by its failure or by the
    completion. *)
Definition steps (u : upload) : list (ProcessingResult → ProcessingResult) :=
  start_processing ::
  match preprocessImage_settles (decoded u) with
  | Js.Rejected e => [fail e]
  | Js.Resolved processedDataUrl =>
      (set_progress <$> ocr_progress (ocr_engine u) processedDataUrl) ++
      match fst (fst (ocr_run (ocr_engine u) processedDataUrl)) with
      | Js.Rejected e => [fail e]
      | Js.Resolved t => [complete t (extractIndianNumbers t)]
      end
  end.

(** The calls of [setResults] in one round of the loop, and in a run. *)
Definition process (u : upload) : list setter :=
  update (random_id u) <$> steps u.

Definition setters (selected : list upload) : list setter :=
  let files := take MAX_FILES selected in
  match files with
  | [] => []
  | _ => (λ _, initialResult <$> files) :: (files ≫= process)
  end.

(** The successive values of the [results] state under [calls]. *)
Fixpoint states (s : list ProcessingResult) (calls : list setter)
    : list (list ProcessingResult) :=
  match calls with
  | [] => []
  | f :: calls' => f s :: states (f s) calls'
  end.

(** The state after the calls [calls]. *)
Definition run (s : list ProcessingResult) (calls : list setter)
    : list ProcessingResult :=
  foldl (λ s f, f s) s calls.

Definition terminal (st : Status.t) : Prop :=
  st = Status.completed ∨ st = Status.error.

(** The record of a file when its round of the loop is over. *)
Definition final_result (u : upload) : ProcessingResult :=
  foldl (λ r f, f r) (initialResult u) (steps u).

(** The successive values of one record under the changes [fs]. *)
Fixpoint record_states (r : ProcessingResult)
    (fs : list (ProcessingResult → ProcessingResult)) : list ProcessingResult :=
  match fs with
  | [] => []
  | f :: fs' => f r :: record_states (f r) fs'
  end.

(** A change of a record that keeps its id and does not make a started
    job wait again. *)
Definition advances (f : ProcessingResult → ProcessingResult) : Prop :=
  ∀ r, id (f r) = id r ∧
       (status r ≠ Status.pending → status (f r) ≠ Status.pending).

(** The jobs of a state are worked on one after the other: finished jobs,
    then at most one job that has been started, then jobs that wait. *)
Definition sequential (s : list ProcessingResult) : Prop :=
  ∃ finished current waiting,
    s = finished ++ current ++ waiting ∧
    Forall (λ r, terminal (status r)) finished ∧
    length current ≤ 1 ∧
    Forall (λ r, status r = Status.pending) waiting.

End App.

(** ** Numbers as strings *)

Module ToString.

(** The decimal digits of a numeral, as code units. *)
Fixpoint digits (u : Decimal.uint) : text :=
  match u with
  | Decimal.Nil => []
  | Decimal.D0 u => 48%N :: digits u
  | Decimal.D1 u => 49%N :: digits u
  | Decimal.D2 u => 50%N :: digits u
  | Decimal.D3 u => 51%N :: digits u
  | Decimal.D4 u => 52%N :: digits u
  | Decimal.D5 u => 53%N :: digits u
  | Decimal.D6 u => 54%N :: digits u
  | Decimal.D7 u => 55%N :: digits u
  | Decimal.D8 u => 56%N :: digits u
  | Decimal.D9 u => 57%N :: digits u
  end.

(** [Number.prototype.toString], which a template literal applies to a
    number: the non-negative integers below 10^21 (lengths, indices and
    readings of the clock) are written in decimal notation. *)
Definition Number_toString (n : N) : text := digits (N.to_uint n).

End ToString.

(** ** [String.prototype.replace] *)

Module StringReplace.

(** The syntax of the pattern of the download name: a class, the greedy
    [+] on a class, sequence, and the assertion [$] (no [m] flag: the end
    of the input). *)
Inductive pattern : Type :=
| Class (p : code_unit → bool)
| Plus (p : code_unit → bool)
| Seq (r1 r2 : pattern)
| EndOfInput.

(** One or more characters of the class [p]: the longest run is tried
    first, and one character is given back at a time when the continuation
    [k] refuses. *)
Fixpoint plus (p : code_unit → bool) (s : text) (k : text → option text)
    : option text :=
  match s with
  | c :: s' =>
      if p c then
        match plus p s' k with
        | Some res => Some res
        | None => k s'
        end
      else None
  | [] => None
  end.

(** The matcher, in continuation-passing style; the state is the input that
    remains. *)
Fixpoint pmatch (r : pattern) (s : text) (k : text → option text)
    {struct r} : option text :=
  match r with
  | Class p =>
      match s with
      | c :: s' => if p c then k s' else None
      | [] => None
      end
  | Plus p => plus p s k
  | Seq r1 r2 => pmatch r1 s (λ s', pmatch r2 s' k)
  | EndOfInput =>
      match s with
      | [] => k []
      | _ :: _ => None
      end
  end.

(** [t.replace(r, replacement)] for a regex without the [g] flag and a
    replacement without [$]: the matcher is tried at every index from the
    left, the first match is replaced, and [t] is returned as it is when
    there is none. *)
Fixpoint replace (r : pattern) (replacement t : text) : text :=
  match pmatch r t Some with
  | Some rest => replacement ++ rest
  | None =>
      match t with
      | [] => []
      | c :: t' => c :: replace r replacement t'
      end
  end.

End StringReplace.

(** ** App.tsx: the history, the downloads and the clearing of the queue *)

Module Handlers.
Import OcrService ToString StringReplace.

Module HistoryItem.
Record t : Type := Make {
  id : text;
  fileName : text;
  timestamp : N;
  count : nat;
  data : text
}.
End HistoryItem.

(** What an object URL stands for: [new Blob([content], { type })], or a
    file that the user has selected. *)
Inductive blob : Type :=
| Blob (content mime : text)
| File (name : text).

(** The page: the state of the component ([results], [history],
    [isProcessing]), the value of the file input behind [fileInputRef]
    ([None] when the ref is not attached), the history that is stored under
    the key [ocr_history] of [localStorage] (the list stands for its JSON
    text, [None] for no entry), the object URLs that are alive with their
    blobs, and the files that the browser has saved, each with the name it
    was saved under. *)
Record page : Type := Page {
  results : list App.ProcessingResult;
  history : list HistoryItem.t;
  isProcessing : bool;
  file_input : option text;
  ocr_history : option (list HistoryItem.t);
  object_urls : list (text * blob);
  saved_files : list (text * blob)
}.

Definition setResults (rs : list App.ProcessingResult) (p : page) : page :=
  Page rs (history p) (isProcessing p) (file_input p) (ocr_history p)
       (object_urls p) (saved_files p).

Definition setHistory (h : list HistoryItem.t) (p : page) : page :=
  Page (results p) h (isProcessing p) (file_input p) (ocr_history p)
       (object_urls p) (saved_files p).

(** [localStorage.setItem('ocr_history', JSON.stringify(h))]; the storage
    is taken to accept the entry. *)
Definition localStorage_setItem (h : list HistoryItem.t) (p : page) : page :=
  Page (results p) (history p) (isProcessing p) (file_input p) (Some h)
       (object_urls p) (saved_files p).

Definition set_object_urls (urls : list (text * blob)) (p : page) : page :=
  Page (results p) (history p) (isProcessing p) (file_input p) (ocr_history p)
       urls (saved_files p).

(** [URL.createObjectURL(b)]: the browser chooses the URL [url]. *)
Definition createObjectURL (url : text) (b : blob) (p : page) : page :=
  set_object_urls ((url, b) :: object_urls p) p.

(** [URL.revokeObjectURL(url)]; a URL that is not alive is ignored. *)
Definition revokeObjectURL (url : text) (p : page) : page :=
  set_object_urls (filter (λ e, e.1 ≠ url) (object_urls p)) p.

(** [a.click()] on an anchor with [a.href = href] and [a.download =
    download]: the browser saves the blob behind [href] under the name
    [download]; nothing is saved when the URL is not alive. *)
Definition click (href download : text) (p : page) : page :=
  match list_find (λ e, e.1 = href) (object_urls p) with
  | Some (_, (_, b)) =>
      Page (results p) (history p) (isProcessing p) (file_input p)
           (ocr_history p) (object_urls p) (saved_files p ++ [(download, b)])
  | None => p
  end.

(** The line feed of ["\n"]. *)
Definition LF : text := [10%N].

(** ["Number,Phone Number\n" +
     numbers.map((num, idx) => `${idx + 1},${num}`).join("\n")] *)
Definition csvContent (numbers : list text) : text :=
  (str "Number,Phone Number" ++ LF) ++
  join LF (imap (λ idx num, Number_toString (N.of_nat (idx + 1)) ++ str "," ++ num)
                numbers).

(** [`${history.length + 1}.csv`] *)
Definition next_name (p : page) : text :=
  Number_toString (N.of_nat (length (history p) + 1)) ++ str ".csv".

(** [saveToHistory]; [now_id] and [now_ts] are the two readings of
    [Date.now()].  The parameter [fileName] is not used by the source. *)
Definition saveToHistory (now_id now_ts : N) (fileName : text)
    (numbers : list text) (p : page) : page :=
  if decide (length numbers = 0) then p else
  let csvContent := csvContent numbers in
  let newItem :=
    HistoryItem.Make (Number_toString now_id) (next_name p) now_ts
                     (length numbers) csvContent in
  let newHistory := take 5 (newItem :: history p) in
  let p := setHistory newHistory p in
  localStorage_setItem newHistory p.

(** An optional string argument is truthy when it is given and not
    empty. *)
Definition truthy (s : option text) : bool :=
  match s with
  | Some (_ :: _) => true
  | _ => false
  end.

(** [downloadCSV]; [url] is the object URL that the browser chooses for the
    blob. *)
Definition downloadCSV (url : text) (now_id now_ts : N) (numbers : list text)
    (customName : option text) (p : page) : page :=
  let fileName := if truthy customName then default [] customName
                  else next_name p in
  let csvContent := csvContent numbers in
  let blob := Blob csvContent (str "text/csv") in
  let p' := createObjectURL url blob p in
  let p' := click url fileName p' in
  let p' := revokeObjectURL url p' in
  if negb (truthy customName)
  then saveToHistory now_id now_ts fileName numbers p'
  else p'.

(** [downloadAllCombined]: the numbers of all results, each once, in the
    order in which [Set.prototype.add] first sees them. *)
Definition allNumbersSet (rs : list App.ProcessingResult) : list text :=
  foldl (λ s r, foldl (λ s n, set_add n s) s (App.numbers r)) [] rs.

Definition downloadAllCombined (url : text) (now_id now_ts : N) (p : page)
    : page :=
  downloadCSV url now_id now_ts (allNumbersSet (results p)) None p.

(** [clearResults] *)
Definition clearResults (p : page) : page :=
  let p' := foldl (λ p r, revokeObjectURL (App.previewUrl r) p) p (results p) in
  let p' := setResults [] p' in
  match file_input p' with
  | Some _ =>
      Page (results p') (history p') (isProcessing p') (Some [])
           (ocr_history p') (object_urls p') (saved_files p')
  | None => p'
  end.

(** The [onClick] of the download button of a history item. *)
Definition history_onClick (url : text) (item : HistoryItem.t) (p : page)
    : page :=
  let blob := Blob (HistoryItem.data item) (str "text/csv") in
  let p' := createObjectURL url blob p in
  click url (HistoryItem.fileName item) p'.

(** The class [[^/.]] *)
Definition not_slash_or_dot (c : code_unit) : bool :=
  negb ((c =? 47) || (c =? 46))%N.

(** [/\.[^/.]+$/] *)
Definition extension : pattern :=
  Seq (Class (N.eqb 46)) (Seq (Plus not_slash_or_dot) EndOfInput).

(** [result.fileName.replace(/\.[^/.]+$/, '') + ".csv"]: the match is
    replaced by the empty string. *)
Definition csv_name (fileName : text) : text :=
  replace extension [] fileName ++ str ".csv".

(** The [onClick] of the download button of a row of the queue; the button
    is rendered when [result.numbers.length > 0]. *)
Definition row_onClick (url : text) (now_id now_ts : N)
    (result : App.ProcessingResult) (p : page) : page :=
  downloadCSV url now_id now_ts (App.numbers result)
              (Some (csv_name (App.fileName result))) p.

(** [disabled] of the button of the combined download:
    [isProcessing || results.every(r => r.numbers.length === 0)] *)
Definition combined_disabled (p : page) : bool :=
  isProcessing p ||
  forallb (λ r, bool_decide (length (App.numbers r) = 0)) (results p).

(** The handlers read [results] and [history] as the render that they
    belong to has them; these are the values of the page when the handler
    starts, and no handler reads one of them after it has set it. *)

End Handlers.

(** ** Quantities that the properties of the sources speak of *)

Module Observations.
Import OcrService ImageProcessing App.
Local Open Scope Z_scope.


(** The number of workers that the round of the loop for the file [u]
    leaves alive: one if the image is enhanced, the worker is created, and
    then the recognition does not yield a text or the worker does not
    terminate; none otherwise. *)
Definition worker_left (u : upload) : nat :=
  match preprocessImage_settles (decoded u) with
  | Js.Rejected _ => 0%nat
  | Js.Resolved processedDataUrl =>
      match snd (on_create (ocr_engine u)) with
      | Js.Rejected _ => 0%nat
      | Js.Resolved _ =>
          match snd (on_recognize (ocr_engine u) processedDataUrl),
                on_terminate (ocr_engine u) with
          | Js.Resolved (Some _), Js.Resolved _ => 0%nat
          | _, _ => 1%nat
          end
      end
  end.

End Observations.

(** * Properties *)

(** ** The matcher *)

Module RegexFacts.
Import Regex.

Lemma rmatch_sound r : ∀ st k res,
  rmatch r st k = Some res → ∃ st', Matches r st st' ∧ k st' = Some res.
Proof.
  induction r as [|p|r1 IH1 r2 IH2|r1 IH1 r2 IH2|r1 IH1|n r1 IH1|r1 IH1|];
    intros st k res H; simpl in *.
  - eauto.
  - destruct (input st) as [|c rest] eqn:E; [done|].
    destruct (p c) eqn:Ep; [|done]. eauto 10.
  - apply IH1 in H as (m & Hm & H). apply IH2 in H as (st' & Hst' & H). eauto.
  - destruct (rmatch r1 st k) eqn:E.
    + simplify_eq. apply IH1 in E as (st' & ? & ?). eauto.
    + apply IH2 in H as (st' & ? & ?). eauto.
  - destruct (rmatch r1 st _) eqn:E.
    + simplify_eq. apply IH1 in E as (st' & ? & E).
      destruct (Nat.eqb_spec (pos st') (pos st)); [done|]. eauto.
    + eauto.
  - revert st H. induction n as [|n IHn]; intros st H.
    + eauto.
    + apply IH1 in H as (m & Hm & H). apply IHn in H as (st' & ? & ?). eauto.
  - apply IH1 in H as (m & Hm & H). eauto.
  - destruct (at_word_boundary st) eqn:E; [|done]. eauto.
Qed.

Lemma rmatch_complete r : ∀ st st' k,
  Matches r st st' → is_Some (k st') → is_Some (rmatch r st k).
Proof.
  induction r as [|p|r1 IH1 r2 IH2|r1 IH1 r2 IH2|r1 IH1|n r1 IH1|r1 IH1|];
    intros st st' k HM Hk; simpl in *.
  - by subst.
  - destruct HM as (c & rest & -> & -> & ->). done.
  - destruct HM as (m & H1 & H2). eapply IH1; [done|]. by eapply IH2.
  - destruct (rmatch r1 st k) eqn:E; [done|].
    destruct HM as [HM|HM]; [|by eapply IH2].
    eapply IH1 in HM; [|done]. rewrite E in HM. by destruct HM.
  - destruct (rmatch r1 st _) eqn:E; [done|].
    destruct HM as [[HM Hne]| ->]; [|done].
    eapply IH1 in HM; [rewrite E in HM; by destruct HM|].
    simpl. by destruct (Nat.eqb_spec (pos st') (pos st)).
  - revert st HM. induction n as [|n IHn]; intros st HM.
    + by subst.
    + destruct HM as (m & H1 & H2). eapply IH1; [done|]. by apply IHn.
  - destruct HM as (m & H1 & ->). by eapply IH1.
  - destruct HM as [-> ->]. done.
Qed.

Lemma Matches_Seq r1 r2 s s' :
  Matches (Seq r1 r2) s s' ↔ ∃ m, Matches r1 s m ∧ Matches r2 m s'.
Proof. done. Qed.

Lemma Matches_Group r s s' :
  Matches (Group r) s s' ↔
  ∃ m, Matches r s m ∧ s' = set_group (take (pos m - pos s) (input s)) m.
Proof. done. Qed.

Lemma Matches_WordBoundary s s' :
  Matches WordBoundary s s' ↔ at_word_boundary s = true ∧ s' = s.
Proof. done. Qed.

Lemma consume_nil st : consume [] st = st.
Proof. destruct st. unfold consume. simpl. f_equal. lia. Qed.

Lemma consume_app xs ys st : consume (xs ++ ys) st = consume ys (consume xs st).
Proof.
  unfold consume. simpl. f_equal.
  - rewrite last_app. by destruct (last ys).
  - by rewrite length_app, drop_drop.
  - rewrite length_app. lia.
Qed.

Lemma advance_consume c rest st :
  input st = c :: rest → advance c rest st = consume [c] st.
Proof.
  intros E. unfold advance, consume. rewrite E. simpl. f_equal. lia.
Qed.

Lemma consume_input xs rest st :
  input st = xs ++ rest → input (consume xs st) = rest.
Proof. intros E. simpl. rewrite E. by rewrite drop_app_length. Qed.

Lemma Matches_Class p st st' :
  Matches (Class p) st st' ↔
  ∃ c rest, input st = c :: rest ∧ p c = true ∧ st' = consume [c] st.
Proof.
  simpl. split; intros (c & rest & E & Hp & ->); exists c, rest;
    by rewrite (advance_consume c rest st E).
Qed.

Lemma Matches_Lit s : ∀ st st',
  Matches (Lit s) st st' ↔ (∃ rest, input st = s ++ rest) ∧ st' = consume s st.
Proof.
  induction s as [|c s IH]; intros st st'.
  - simpl. rewrite consume_nil. split; [intros ->; eauto | by intros [_ ->]].
  - change (Lit (c :: s)) with (Seq (Chr c) (Lit s)).
    change (c :: s) with ([c] ++ s). rewrite consume_app.
    cbn [Matches]. unfold Chr. setoid_rewrite Matches_Class. setoid_rewrite IH.
    split.
    + intros (m & (c' & rest & E & Hc & ->) & (rest' & E') & ->).
      apply N.eqb_eq in Hc as <-. split; [|done].
      exists rest'. rewrite E. rewrite (consume_input [c] rest st E) in E'.
      by subst rest.
    + intros [(rest & E) ->]. eexists. split.
      * exists c, (s ++ rest). split; [done|]. split; [apply N.eqb_refl|done].
      * split; [|done]. exists rest. by apply (consume_input [c]).
Qed.

Lemma Matches_Times_Class p n : ∀ st st',
  Matches (Times n (Class p)) st st' ↔
  ∃ xs rest, input st = xs ++ rest ∧ length xs = n ∧
             Forall (λ d, p d = true) xs ∧ st' = consume xs st.
Proof.
  induction n as [|n IH]; intros st st'.
  - simpl. split.
    + intros ->. exists [], (input st). by rewrite consume_nil.
    + intros (xs & rest & _ & Hl & _ & ->).
      apply nil_length_inv in Hl as ->. by rewrite consume_nil.
  - change (Matches (Times (S n) (Class p)) st st') with
      (∃ m, Matches (Class p) st m ∧ Matches (Times n (Class p)) m st').
    setoid_rewrite Matches_Class. setoid_rewrite IH. split.
    + intros (m & (c & rest & E & Hc & ->) & (xs & rest' & E' & Hl & Hxs & ->)).
      exists (c :: xs), rest'. rewrite (consume_input [c] rest st E) in E'.
      subst rest. split; [done|]. split; [by simpl; f_equal|].
      split; [by constructor|]. symmetry. apply (consume_app [c]).
    + intros (xs & rest & E & Hl & Hxs & ->).
      destruct xs as [|c xs]; [done|]. simpl in Hl.
      apply Forall_cons in Hxs as [Hc Hxs]. eexists. split.
      * by exists c, (xs ++ rest).
      * exists xs, rest. rewrite (consume_input [c] (xs ++ rest) st E).
        split; [done|]. split; [lia|]. split; [done|]. apply (consume_app [c]).
Qed.

Lemma scan_0 r i before t :
  scan r i before t 0 =
  match exec_at r before t with
  | Some st =>
      MatchResult i (take (pos st) t) (group1 st) ::
      match t with
      | [] => []
      | c :: t' => scan r (S i) (Some c) t' (pos st - 1)
      end
  | None =>
      match t with
      | [] => []
      | c :: t' => scan r (S i) (Some c) t' 0
      end
  end.
Proof. by destruct t. Qed.

(** Skipping the characters of a match resumes the scan behind it. *)
Lemma scan_skip r : ∀ t n i before,
  n ≤ length t →
  scan r i before t n = scan r (i + n) (before_at before t n) (drop n t) 0.
Proof.
  induction t as [|c t IH]; intros n i before Hn.
  - simpl in Hn. assert (n = 0) as -> by lia. by rewrite Nat.add_0_r.
  - destruct n as [|n].
    + by rewrite Nat.add_0_r.
    + simpl in Hn. cbn [scan drop]. rewrite IH by lia.
      replace (S i + n) with (i + S n) by lia. by destruct n.
Qed.

End RegexFacts.

(** ** The number extractor *)

Module OcrServiceFacts.
Import Regex RegexFacts OcrService.

(** Facts about character classes reduce to arithmetic on code units. *)
Ltac class_arith :=
  unfold is_word, is_6_to_9, is_digit, is_space_or_hyphen, between in *;
  repeat first
    [ rewrite andb_true_iff in * | rewrite orb_true_iff in *
    | rewrite andb_false_iff in * | rewrite orb_false_iff in *
    | rewrite N.leb_le in * | rewrite N.leb_gt in *
    | rewrite N.eqb_eq in * | rewrite N.eqb_neq in * ];
  lia.

Lemma is_digit_word c : is_digit c = true → is_word c = true.
Proof. intros H. class_arith. Qed.

Lemma is_6_to_9_digit c : is_6_to_9 c = true → is_digit c = true.
Proof. intros H. class_arith. Qed.

Lemma digit_run_digits cap :
  digit_run cap → Forall (λ d, is_digit d = true) cap.
Proof.
  intros (c & ds & -> & Hc & _ & Hds). constructor; [|done].
  by apply is_6_to_9_digit.
Qed.

Lemma digit_run_length cap : digit_run cap → length cap = 10.
Proof. intros (c & ds & -> & _ & Hl & _). simpl. lia. Qed.

Lemma in_prefixes pfx :
  pfx ∈ prefixes ↔ pfx = str "+91" ∨ pfx = str "91" ∨ pfx = str "0" ∨ pfx = [].
Proof. unfold prefixes. rewrite !elem_of_cons, elem_of_nil. tauto. Qed.

Lemma in_separators sp :
  sp ∈ separators ↔ sp = str " " ∨ sp = str "-" ∨ sp = [].
Proof. unfold separators. rewrite !elem_of_cons, elem_of_nil. tauto. Qed.

Lemma prefixes_length pfx : pfx ∈ prefixes → length pfx ≤ 3.
Proof. rewrite in_prefixes. intros [->|[->|[->| ->]]]; simpl; lia. Qed.

Lemma separators_length sp : sp ∈ separators → length sp ≤ 1.
Proof. rewrite in_separators. intros [->|[->| ->]]; simpl; lia. Qed.

(** [(?:\+91|91|0)?] *)
Lemma Matches_country_code st m :
  Matches (Opt country_code) st m ↔
  ∃ pfx, pfx ∈ prefixes ∧ (∃ rest, input st = pfx ++ rest) ∧ m = consume pfx st.
Proof.
  unfold country_code. cbn [Matches]. rewrite !Matches_Lit.
  setoid_rewrite in_prefixes. split.
  - intros [[[[H ->]|[[H ->]|[H ->]]] _]| ->]; [eauto 10..|].
    exists []. rewrite consume_nil. eauto 10.
  - intros (pfx & [->|[->|[->| ->]]] & H & ->).
    + left. split; [by left|]. simpl. lia.
    + left. split; [by right; left|]. simpl. lia.
    + left. split; [by right; right|]. simpl. lia.
    + right. apply consume_nil.
Qed.

(** [[ -]?] *)
Lemma Matches_separator st m :
  Matches (Opt separator) st m ↔
  ∃ sp, sp ∈ separators ∧ (∃ rest, input st = sp ++ rest) ∧ m = consume sp st.
Proof.
  unfold separator. cbn [Matches]. setoid_rewrite in_separators.
  change (∃ c rest, input st = c :: rest ∧ is_space_or_hyphen c = true ∧
                    m = advance c rest st) with (Matches (Class is_space_or_hyphen) st m).
  rewrite Matches_Class. split.
  - intros [[(c & rest & E & Hc & ->) _]| ->].
    + unfold is_space_or_hyphen in Hc.
      apply orb_true_iff in Hc as [Hc|Hc]; apply N.eqb_eq in Hc as ->.
      * exists (str " "). split; [by left|]. split; [by exists rest|done].
      * exists (str "-"). split; [by right; left|]. split; [by exists rest|done].
    + exists []. rewrite consume_nil. eauto 10.
  - intros (sp & [->|[->| ->]] & [rest E] & ->).
    + left. split; [|simpl; lia]. by exists 32%N, rest.
    + left. split; [|simpl; lia]. by exists 45%N, rest.
    + right. apply consume_nil.
Qed.

(** [(?:(?:\+91|91|0)?[ -]?)?] *)
Lemma Matches_lead st m :
  Matches (Opt (Seq (Opt country_code) (Opt separator))) st m ↔
  ∃ pfx sp, pfx ∈ prefixes ∧ sp ∈ separators ∧
            (∃ rest, input st = pfx ++ sp ++ rest) ∧ m = consume (pfx ++ sp) st.
Proof.
  cbn [Matches]. fold (Matches (Opt country_code)) (Matches (Opt separator)).
  setoid_rewrite Matches_country_code. setoid_rewrite Matches_separator. split.
  - intros [[(m' & (pfx & Hp & [r1 E1] & ->) & (sp & Hs & [r2 E2] & ->)) _]| ->].
    + exists pfx, sp. rewrite (consume_input pfx r1 st E1) in E2. subst r1.
      rewrite consume_app. eauto 10.
    + exists [], []. rewrite consume_nil. split; [by apply in_prefixes; eauto 10|].
      split; [by apply in_separators; eauto|]. eauto.
  - intros (pfx & sp & Hp & Hs & [rest E] & ->).
    destruct (decide (pfx ++ sp = [])) as [Hnil|Hne].
    + right. rewrite Hnil. apply consume_nil.
    + left. split.
      * exists (consume pfx st). split; [eauto 10|].
        exists sp. split; [done|]. split; [|apply consume_app].
        exists rest. by apply consume_input.
      * simpl. destruct (pfx ++ sp); [done|]. simpl. lia.
Qed.

Lemma consume_prev xs st d : last xs = Some d → prev (consume xs st) = Some d.
Proof. simpl. by intros ->. Qed.

Lemma last_digit cap :
  digit_run cap → ∃ d, last cap = Some d ∧ is_word d = true.
Proof.
  intros H. pose proof (digit_run_length _ H) as Hl.
  apply digit_run_digits in H.
  destruct (last cap) as [d|] eqn:E.
  - exists d. split; [done|]. apply is_digit_word.
    apply last_Some_elem_of in E. by eapply (proj1 (Forall_forall _ _) H).
  - apply last_None in E as ->. done.
Qed.

Lemma not_followed_by_head follow rest :
  not_followed_by follow rest ↔
  match head rest with Some c => follow c | None => false end = false.
Proof.
  unfold not_followed_by. destruct (head rest) as [c|]; split; eauto.
  - by intros H c' [= <-].
  - done.
Qed.

(** [([6-9]\d{9})\b] *)
Lemma Matches_number st st' :
  Matches (Seq (Group subscriber) WordBoundary) st st' ↔
  ∃ cap rest, input st = cap ++ rest ∧ digit_run cap ∧
              not_followed_by is_word rest ∧
              st' = set_group cap (consume cap st).
Proof.
  unfold subscriber. rewrite Matches_Seq. setoid_rewrite Matches_Group.
  setoid_rewrite Matches_WordBoundary. setoid_rewrite Matches_Seq.
  setoid_rewrite Matches_Class. setoid_rewrite Matches_Times_Class. split.
  - intros (m & (m0 & (m1 & (c & r1 & E1 & Hc & ->) &
                        (xs & rest & E2 & Hl & Hxs & ->)) & ->) & Hb & ->).
    rewrite (consume_input [c] r1 st E1) in E2. subst r1.
    assert (Hrun : digit_run (c :: xs)) by (exists c, xs; done).
    exists (c :: xs), rest. split; [done|]. split; [done|].
    rewrite <-(consume_app [c] xs) in *. change ([c] ++ xs) with (c :: xs) in *.
    replace (pos (consume (c :: xs) st) - pos st) with (length (c :: xs))
      in * by (simpl; lia).
    change (c :: xs ++ rest) with ((c :: xs) ++ rest) in E1.
    rewrite E1, take_app_length in *. split; [|done].
    apply not_followed_by_head.
    unfold at_word_boundary in Hb. cbn [prev input set_group] in Hb.
    destruct (last_digit _ Hrun) as (d & Hd & Hw).
    fold (prev (consume (c :: xs) st)) in Hb.
    rewrite (consume_prev _ _ _ Hd) in Hb. cbn [is_word_opt] in Hb.
    rewrite Hw, (consume_input _ _ _ E1) in Hb. unfold is_word_opt in Hb.
    destruct (head rest); simpl in *; by destruct (is_word _).
  - intros (cap & rest & E & Hrun & Hend & ->).
    pose proof Hrun as (c & xs & -> & Hc & Hl & Hxs).
    exists (set_group (c :: xs) (consume (c :: xs) st)). split.
    + exists (consume (c :: xs) st). split.
      * exists (consume [c] st). split; [by exists c, (xs ++ rest)|].
        exists xs, rest. rewrite (consume_input [c] (xs ++ rest) st E).
        split; [done|]. split; [done|]. split; [done|]. apply (consume_app [c]).
      * replace (pos (consume (c :: xs) st) - pos st) with (length (c :: xs))
          by (simpl; lia).
        rewrite E. change (c :: xs ++ rest) with ((c :: xs) ++ rest).
        by rewrite take_app_length.
    + split; [|done]. unfold at_word_boundary. cbn [prev input set_group].
      destruct (last_digit _ Hrun) as (d & Hd & Hw).
      fold (prev (consume (c :: xs) st)).
      rewrite (consume_prev _ _ _ Hd). cbn [is_word_opt]. rewrite Hw.
      fold (input (consume (c :: xs) st)).
      rewrite (consume_input (c :: xs) rest st E).
      apply not_followed_by_head in Hend. unfold is_word_opt.
      destruct (head rest); simpl in *; by rewrite ?Hend.
Qed.

(** The whole pattern: what [regex] can match at a position is exactly a
    [Shape] with word characters as the forbidden followers. *)
Lemma Matches_regex st st' :
  Matches regex st st' ↔
  ∃ pfx sp cap rest, Shape is_word (input st) pfx sp cap rest ∧
                     st' = set_group cap (consume (pfx ++ sp ++ cap) st).
Proof.
  unfold regex. rewrite Matches_Seq.
  setoid_rewrite Matches_lead. setoid_rewrite Matches_number. split.
  - intros (m & (pfx & sp & Hp & Hs & [r E] & ->) &
            (cap & rest & E' & Hrun & Hend & ->)).
    rewrite app_assoc in E. rewrite (consume_input _ _ _ E) in E'. subst r.
    exists pfx, sp, cap, rest. split.
    + split; [by rewrite E, <-app_assoc|done..].
    + by rewrite !app_assoc, <-consume_app.
  - intros (pfx & sp & cap & rest & [E Hp Hs Hrun Hend] & ->).
    exists (consume (pfx ++ sp) st). split.
    + exists pfx, sp. eauto 10.
    + exists cap, rest. rewrite app_assoc in E.
      rewrite (consume_input _ _ _ E).
      split; [done|]. split; [done|]. split; [done|].
      by rewrite !app_assoc, <-consume_app.
Qed.

(** A digit run that is followed by a token boundary cannot end inside
    another digit run: if [cap ++ rest] and [cap' ++ rest'] are the same
    text up to a shift [d] of at most ten characters, the shift is empty. *)
Lemma run_end cap rest d cap' rest' :
  cap ++ rest = d ++ cap' ++ rest' →
  length cap = 10 → length cap' = 10 →
  Forall (λ c, is_digit c = true) cap' →
  not_followed_by is_word rest →
  length d ≤ 10 →
  d = [].
Proof.
  intros E Hl Hl' Hdig Hend Hd. destruct d as [|x d]; [done|]. exfalso.
  assert (H1 : (cap ++ rest) !! 10 = head rest).
  { rewrite lookup_app_r by lia. rewrite Hl, head_lookup. done. }
  assert (H2 : ((x :: d) ++ cap' ++ rest') !! 10 = cap' !! (10 - length (x :: d))).
  { rewrite lookup_app_r by done. apply lookup_app_l. simpl in *. lia. }
  rewrite E, H2 in H1.
  destruct (lookup_lt_is_Some_2 cap' (10 - length (x :: d))) as [y Hy];
    [simpl in *; lia|].
  rewrite Hy in H1. symmetry in H1. apply Hend in H1.
  rewrite is_digit_word in H1; [done|].
  by eapply (Forall_lookup_1 _ _ _ _ Hdig).
Qed.

Lemma lead_unique pfx sp pfx' sp' :
  pfx ∈ prefixes → sp ∈ separators → pfx' ∈ prefixes → sp' ∈ separators →
  pfx ++ sp = pfx' ++ sp' → pfx = pfx' ∧ sp = sp'.
Proof.
  rewrite !in_prefixes, !in_separators.
  intros [->|[->|[->| ->]]] [->|[->| ->]] [->|[->|[->| ->]]] [->|[->| ->]];
    by intros [=].
Qed.

(** At most one match starts at a given position. *)
Lemma Shape_unique t pfx sp cap rest pfx' sp' cap' rest' :
  Shape is_word t pfx sp cap rest → Shape is_word t pfx' sp' cap' rest' →
  pfx = pfx' ∧ sp = sp' ∧ cap = cap' ∧ rest = rest'.
Proof.
  intros [E Hp Hs Hrun Hend] [E' Hp' Hs' Hrun' Hend'].
  pose proof (digit_run_length _ Hrun) as Hl.
  pose proof (digit_run_length _ Hrun') as Hl'.
  pose proof (prefixes_length _ Hp). pose proof (prefixes_length _ Hp').
  pose proof (separators_length _ Hs). pose proof (separators_length _ Hs').
  rewrite E in E'. rewrite !(app_assoc pfx), !(app_assoc pfx') in E'.
  assert (pfx ++ sp = pfx' ++ sp' ∧ cap ++ rest = cap' ++ rest') as [E1 E2].
  { apply app_eq_inv in E' as [(k & Ek & E')|(k & Ek & E')].
    - assert (k = []) as ->.
      { apply (run_end cap' rest' k cap rest E' Hl' Hl
                 (digit_run_digits _ Hrun) Hend').
        apply (f_equal length) in Ek. rewrite !length_app in Ek. lia. }
      by rewrite app_nil_r in Ek.
    - assert (k = []) as ->.
      { apply (run_end cap rest k cap' rest' E' Hl Hl'
                 (digit_run_digits _ Hrun') Hend).
        apply (f_equal length) in Ek. rewrite !length_app in Ek. lia. }
      by rewrite app_nil_r in Ek. }
  apply lead_unique in E1 as [-> ->]; [|done..].
  apply app_inj_1 in E2 as [-> ->]; [done|lia].
Qed.

(** The matcher at one position: it finds a match exactly when a [Shape]
    starts there, and then reports that shape. *)
Lemma exec_at_Some before t st :
  exec_at regex before t = Some st →
  ∃ pfx sp cap rest, Shape is_word t pfx sp cap rest ∧
                     st = set_group cap (consume (pfx ++ sp ++ cap) (start before t)).
Proof.
  intros H. apply rmatch_sound in H as (st' & HM & [= ->]).
  by apply Matches_regex in HM.
Qed.

Lemma exec_at_Shape before t pfx sp cap rest :
  Shape is_word t pfx sp cap rest →
  exec_at regex before t =
    Some (set_group cap (consume (pfx ++ sp ++ cap) (start before t))).
Proof.
  intros HS.
  destruct (rmatch_complete regex (start before t)
              (set_group cap (consume (pfx ++ sp ++ cap) (start before t))) Some)
    as [st Hst]; [|done|].
  { apply Matches_regex. by exists pfx, sp, cap, rest. }
  change (exec_at regex before t = Some st) in Hst. rewrite Hst.
  apply exec_at_Some in Hst as (pfx' & sp' & cap' & rest' & HS' & ->).
  by destruct (Shape_unique _ _ _ _ _ _ _ _ _ HS HS') as (-> & -> & -> & ->).
Qed.

Lemma exec_at_None before t :
  exec_at regex before t = None →
  ∀ pfx sp cap rest, ¬ Shape is_word t pfx sp cap rest.
Proof.
  intros H pfx sp cap rest HS.
  by rewrite (exec_at_Shape before _ _ _ _ _ HS) in H.
Qed.

Lemma Shape_split follow t pfx sp cap rest :
  Shape follow t pfx sp cap rest → t = (pfx ++ sp ++ cap) ++ rest.
Proof. intros [-> _ _ _ _]. by rewrite <-!app_assoc. Qed.

Lemma Shape_length follow t pfx sp cap rest :
  Shape follow t pfx sp cap rest → 10 ≤ length (pfx ++ sp ++ cap).
Proof.
  intros [_ _ _ Hrun _]. apply digit_run_length in Hrun.
  rewrite !length_app. lia.
Qed.

(** [matchAll] performs leftmost, non-overlapping global matching of the
    pattern. *)
Lemma scan_leftmost : ∀ n t, length t ≤ n → ∀ i before,
  LeftmostScan is_word i t (scan regex i before t 0).
Proof.
  induction n as [|n IH]; intros t Hn i before; rewrite scan_0.
  - destruct t; [|simpl in Hn; lia].
    destruct (exec_at regex before []) as [st|] eqn:E; [|constructor].
    apply exec_at_Some in E as (pfx & sp & cap & rest & HS & _).
    pose proof (Shape_length _ _ _ _ _ _ HS).
    apply Shape_split, (f_equal length) in HS.
    rewrite length_app in HS. simpl in HS. lia.
  - destruct (exec_at regex before t) as [st|] eqn:E.
    + apply exec_at_Some in E as (pfx & sp & cap & rest & HS & ->).
      pose proof (Shape_length _ _ _ _ _ _ HS) as Hlen.
      pose proof (Shape_split _ _ _ _ _ _ HS) as Et.
      set (M := pfx ++ sp ++ cap) in *.
      cbn [pos group1 set_group consume start]. rewrite Nat.add_0_l.
      assert (take (length M) t = M) as ->
        by (rewrite Et; apply take_app_length).
      destruct t as [|c t]; [destruct M; simpl in *; [lia|done]|].
      rewrite scan_skip.
      2:{ apply (f_equal length) in Et. rewrite length_app in Et.
          simpl in Et. lia. }
      replace (S i + (length M - 1)) with (i + length M) by lia.
      replace (drop (length M - 1) t) with rest.
      2:{ change (drop (length M - 1) t) with (drop (S (length M - 1)) (c :: t)).
          replace (S (length M - 1)) with (length M) by lia.
          by rewrite Et, drop_app_length. }
      apply (scan_hit is_word i (c :: t) pfx sp cap rest); [done|]. apply IH.
      apply (f_equal length) in Et. rewrite length_app in Et.
      simpl in Et, Hn. lia.
    + destruct t as [|c t]; [constructor|].
      apply scan_miss; [by apply (exec_at_None before)|].
      apply IH. simpl in Hn. lia.
Qed.

Lemma matchAll_leftmost t : LeftmostScan is_word 0 t (matchAll regex t).
Proof. by apply (scan_leftmost (length t)). Qed.

(** Every capture is a digit run of the text that is followed by a token
    boundary. *)
Lemma LeftmostScan_sound follow i t ms m :
  LeftmostScan follow i t ms → m ∈ ms →
  ∃ cap, m_group1 m = Some cap ∧ digit_run cap ∧ contains_before follow cap t.
Proof.
  intros H. revert m. induction H as [i|i c t ms Hno _ IH|i t pfx sp cap rest ms HS _ IH];
    intros m Hm.
  - by apply elem_of_nil in Hm.
  - destruct (IH m Hm) as (cap & Hg & Hrun & pre & post & -> & Hend).
    exists cap. split; [done|]. split; [done|]. by exists (c :: pre), post.
  - apply elem_of_cons in Hm as [->|Hm].
    + exists cap. split; [done|]. destruct HS as [-> _ _ Hrun Hend].
      split; [done|]. exists (pfx ++ sp), rest. by rewrite <-app_assoc.
    + destruct (IH m Hm) as (cap' & Hg & Hrun & pre & post & -> & Hend).
      exists cap'. split; [done|]. split; [done|].
      exists ((pfx ++ sp ++ cap) ++ pre), post.
      split; [|done]. rewrite (Shape_split _ _ _ _ _ _ HS). by rewrite <-!app_assoc.
Qed.

(** Every digit run of the text that is followed by a token boundary is
    captured by some match. *)
Lemma LeftmostScan_complete i t ms :
  LeftmostScan is_word i t ms →
  ∀ occ, digit_run occ → contains_before is_word occ t →
  ∃ m, m ∈ ms ∧ m_group1 m = Some occ.
Proof.
  induction 1 as [i|i c t ms Hno _ IH|i t pfx sp cap rest ms HS _ IH];
    intros occ Hocc (pre & post & E & Hend).
  - apply digit_run_length in Hocc. apply (f_equal length) in E.
    rewrite !length_app in E. simpl in E. lia.
  - destruct pre as [|c' pre].
    + destruct (Hno [] [] occ post). split; [done| | |done..].
      * apply in_prefixes. eauto 10.
      * apply in_separators. eauto.
    + simplify_eq/=. apply (IH occ Hocc). by exists pre, post.
  - pose proof (digit_run_length _ Hocc) as Hlo.
    destruct HS as [Et Hp Hs Hrun Hendr].
    pose proof (digit_run_length _ Hrun) as Hlc.
    pose proof (prefixes_length _ Hp). pose proof (separators_length _ Hs).
    rewrite E in Et. rewrite (app_assoc pfx) in Et.
    apply app_eq_inv in Et as [(k & Ek & Et)|(k & Ek & Et)].
    + (* the match starts at or before the occurrence *)
      destruct (decide (length k < 10)) as [Hk|Hk].
      * assert (k = []) as ->.
        { apply (run_end cap rest k occ post Et Hlc Hlo
                   (digit_run_digits _ Hocc) Hendr). lia. }
        simpl in Et. apply app_inj_1 in Et as [-> ->]; [|lia].
        eexists. split; [by left|done].
      * (* the match ends in front of the occurrence *)
        assert (Hk' : take 10 k ++ drop 10 k = k) by apply take_drop.
        rewrite <-Hk', <-app_assoc in Et.
        apply app_inj_1 in Et as [-> ->];
          [|rewrite length_take; lia].
        destruct (IH occ Hocc) as (m & Hm & Hg); [by exists (drop 10 k), post|].
        exists m. split; [by right|done].
    + (* the occurrence starts inside the prefix or separator *)
      assert (k = []) as ->.
      { apply (run_end occ post k cap rest Et Hlo Hlc
                 (digit_run_digits _ Hrun) Hend).
        apply (f_equal length) in Ek. rewrite !length_app in Ek. lia. }
      simpl in Et. apply app_inj_1 in Et as [-> ->]; [|lia].
      eexists. split; [by left|done].
Qed.

(** *** Deduplication in first-seen order *)

Lemma first_seen_filter (P : list N → Prop) `{!∀ x, Decision (P x)} l :
  filter P (first_seen l) = first_seen (filter P l).
Proof.
  induction l as [|x l IH]; [done|]. cbn [first_seen].
  destruct (decide (P x)) as [Hx|Hx].
  - rewrite !filter_cons_True by done. cbn [first_seen]. f_equal.
    rewrite <-IH, !list_filter_filter. apply list_filter_iff. tauto.
  - rewrite !filter_cons_False by done. rewrite <-IH, list_filter_filter.
    apply list_filter_iff. intros y. split; [tauto|].
    intros Hy. split; [done|]. by intros ->.
Qed.

Lemma elem_of_first_seen l x : x ∈ first_seen l ↔ x ∈ l.
Proof.
  induction l as [|y l IH]; [done|]. cbn [first_seen].
  rewrite !elem_of_cons, list_elem_of_filter, IH.
  destruct (decide (x = y)); tauto.
Qed.

Lemma NoDup_first_seen l : NoDup (first_seen l).
Proof.
  induction l as [|y l IH]; [constructor|]. cbn [first_seen].
  apply NoDup_cons. split; [|by apply NoDup_filter].
  rewrite list_elem_of_filter. tauto.
Qed.

Lemma foldl_set_add l : ∀ acc,
  foldl (λ s x, set_add x s) acc l =
  acc ++ first_seen (filter (λ x, x ∉ acc) l).
Proof.
  induction l as [|x l IH]; intros acc; [by rewrite app_nil_r|].
  cbn [foldl]. unfold set_add at 2. rewrite IH. destruct (decide (x ∈ acc)).
  - by rewrite filter_cons_False by tauto.
  - rewrite filter_cons_True by done. cbn [first_seen].
    rewrite <-app_assoc. cbn [app]. do 2 f_equal.
    rewrite first_seen_filter, list_filter_filter. f_equal.
    apply list_filter_iff. intros y. rewrite elem_of_app, list_elem_of_singleton.
    tauto.
Qed.

Lemma foldl_add_match ms : ∀ acc,
  foldl add_match acc ms = foldl (λ s x, set_add x s) acc (omap normalize ms).
Proof.
  induction ms as [|m ms IH]; intros acc; [done|].
  cbn [foldl omap list_omap]. rewrite IH. unfold add_match, normalize.
  by destruct (m_group1 m) as [[|c g]|].
Qed.

(** The extractor returns the normalized numbers of the matches, without
    repetition, each at the place of its first occurrence. *)
Lemma extractIndianNumbers_first_seen t :
  extractIndianNumbers t = first_seen (normalized_matches t).
Proof.
  unfold extractIndianNumbers, normalized_matches.
  rewrite foldl_add_match, foldl_set_add. cbn [app]. f_equal.
  induction (omap normalize (matchAll regex t)) as [|x l IH]; [done|].
  rewrite filter_cons_True by apply not_elem_of_nil. by f_equal.
Qed.

Lemma normalize_digit_run m cap :
  m_group1 m = Some cap → digit_run cap → normalize m = Some (str "91" ++ cap).
Proof. unfold normalize. intros -> (c & ds & -> & _). done. Qed.

(** The numbers that are returned: [91] in front of every digit run of the
    text that is followed by a token boundary. *)
Lemma elem_of_extractIndianNumbers t n :
  n ∈ extractIndianNumbers t ↔
  ∃ cap, n = str "91" ++ cap ∧ digit_run cap ∧ contains_before is_word cap t.
Proof.
  rewrite extractIndianNumbers_first_seen, elem_of_first_seen.
  unfold normalized_matches. rewrite list_elem_of_omap.
  pose proof (matchAll_leftmost t) as Hscan. split.
  - intros (m & Hm & Hn).
    destruct (LeftmostScan_sound _ _ _ _ _ Hscan Hm) as (cap & Hg & Hrun & Hc).
    rewrite (normalize_digit_run _ _ Hg Hrun) in Hn. simplify_eq. eauto.
  - intros (cap & -> & Hrun & Hc).
    destruct (LeftmostScan_complete _ _ _ Hscan cap Hrun Hc) as (m & Hm & Hg).
    exists m. split; [done|]. by apply normalize_digit_run.
Qed.

Lemma Shape_too_short follow t pfx sp cap rest :
  length t < 10 → ¬ Shape follow t pfx sp cap rest.
Proof.
  intros Hl HS. pose proof (Shape_length _ _ _ _ _ _ HS).
  apply Shape_split, (f_equal length) in HS. rewrite length_app in HS. lia.
Qed.

(** Leftmost scanning is a function of the text. *)
Lemma LeftmostScan_functional i t ms :
  LeftmostScan is_word i t ms → ∀ ms', LeftmostScan is_word i t ms' → ms = ms'.
Proof.
  induction 1 as [i|i c t ms Hno _ IH|i t pfx sp cap rest ms HS _ IH];
    intros ms' H'.
  - inversion H' as [| |? ? ? ? ? ? ? HS']; subst; [done|].
    eapply Shape_too_short in HS' as []. simpl. lia.
  - inversion H' as [|? ? ? ? ? H''|? ? ? ? ? ? ? HS']; subst.
    + by apply IH.
    + by apply Hno in HS'.
  - inversion H' as [|? ? ? ? Hno|? ? ? ? ? ? ? HS' H'']; subst.
    + eapply Shape_too_short in HS as []. simpl. lia.
    + by apply Hno in HS.
    + destruct (Shape_unique _ _ _ _ _ _ _ _ _ HS HS') as (-> & -> & -> & ->).
      f_equal. by apply IH.
Qed.

Lemma NoDup_count (l : list (list N)) x :
  NoDup l → x ∈ l → length (filter (λ y, y = x) l) = 1.
Proof.
  induction 1 as [|y l Hy Hl IH]; intros Hx; [by apply elem_of_nil in Hx|].
  destruct (decide (y = x)) as [->|Hne].
  - rewrite filter_cons_True by done. simpl. f_equal.
    destruct (filter (λ y, y = x) l) as [|z l'] eqn:E; [done|].
    assert (Hz : z ∈ filter (λ y, y = x) l) by (rewrite E; left).
    by apply list_elem_of_filter in Hz as [-> Hz].
  - rewrite filter_cons_False by done. apply IH.
    apply elem_of_cons in Hx as [->|]; done.
Qed.

(** *** Joined numbers *)

Section joined.
Context (sep : list N).
Hypothesis sep_nonempty : sep ≠ [].
Hypothesis sep_nonword : Forall (λ c, is_word c = false) sep.

Lemma join_cons x l : l ≠ [] → join sep (x :: l) = x ++ sep ++ join sep l.
Proof. by destruct l. Qed.

Lemma sep_boundary post : not_followed_by is_word (sep ++ post).
Proof.
  intros c. pose proof sep_nonword as Hw.
  destruct sep as [|c' sep'] eqn:E; [done|]. simpl. intros [= <-].
  by apply Forall_cons in Hw as [? _].
Qed.

(** What follows an element of a joined list: nothing, or the separator. *)
Lemma join_elem l x :
  x ∈ l → ∃ pre post, join sep l = pre ++ x ++ post ∧
                      not_followed_by is_word post.
Proof.
  induction l as [|y l IH]; intros Hx; [by apply elem_of_nil in Hx|].
  destruct (decide (l = [])) as [->|Hl].
  - apply list_elem_of_singleton in Hx as ->. exists [], [].
    by rewrite app_nil_r.
  - rewrite join_cons by done. apply elem_of_cons in Hx as [->|Hx].
    + exists [], (sep ++ join sep l). split; [done|]. apply sep_boundary.
    + destruct (IH Hx) as (pre & post & -> & Hend).
      exists (y ++ sep ++ pre), post. split; [|done]. by rewrite <-!app_assoc.
Qed.

(** A digit run of the joined text that is followed by a token boundary is
    the subscriber part of one of the joined numbers. *)
Lemma join_run l : ∀ pre cap post,
  Forall (λ n, ∃ c, n = str "91" ++ c ∧ digit_run c) l →
  join sep l = pre ++ cap ++ post →
  digit_run cap → not_followed_by is_word post →
  str "91" ++ cap ∈ l.
Proof.
  induction l as [|x l IH]; intros pre cap post Hnum E Hrun Hend.
  - apply digit_run_length in Hrun. apply (f_equal length) in E.
    rewrite !length_app in E. simpl in E. lia.
  - apply Forall_cons in Hnum as [(c0 & -> & Hrun0) Hnum].
    pose proof (digit_run_length _ Hrun) as Hl.
    pose proof (digit_run_length _ Hrun0) as Hl0.
    assert (∃ R, join sep ((str "91" ++ c0) :: l) = str "91" ++ c0 ++ R ∧
                 not_followed_by is_word R ∧
                 (R = [] ∨ l ≠ [] ∧ R = sep ++ join sep l))
      as (R & ER & HendR & HR).
    { destruct (decide (l = [])) as [->|Hne].
      - exists []. rewrite app_nil_r. split; [done|]. split; [done|]. by left.
      - exists (sep ++ join sep l). rewrite join_cons, <-app_assoc by done.
        split; [done|]. split; [apply sep_boundary|]. by right. }
    rewrite ER in E. apply app_eq_inv in E as [(k & Ek & E)|(k & Ek & E)].
    + (* the run starts inside the country code *)
      assert (k = []) as ->.
      { apply (run_end cap post k c0 R E Hl Hl0
                 (digit_run_digits _ Hrun0) Hend).
        apply (f_equal length) in Ek. rewrite length_app in Ek.
        simpl in Ek. lia. }
      simpl in E. apply app_inj_1 in E as [-> _]; [|lia]. by left.
    + (* the run starts behind the country code *)
      destruct (decide (length k < 10)) as [Hk|Hk].
      * assert (k = []) as ->
          by (apply (run_end c0 R k cap post E Hl0 Hl
                       (digit_run_digits _ Hrun) HendR); lia).
        simpl in E. apply app_inj_1 in E as [-> _]; [|lia]. by left.
      * (* the run starts behind this number *)
        rewrite <-(take_drop 10 k), <-app_assoc in E.
        apply app_inj_1 in E as [_ E]; [|rewrite length_take; lia].
        destruct HR as [->|[Hne ->]].
        { apply (f_equal length) in E. rewrite !length_app in E.
          simpl in E. lia. }
        right. apply app_eq_inv in E as [(k' & Ek' & E)|(k' & Ek' & E)].
        -- destruct k' as [|d k'].
           ++ apply (IH [] cap post); done.
           ++ exfalso. pose proof sep_nonword as Hw. rewrite Ek' in Hw.
              apply Forall_app in Hw as [_ Hw].
              apply Forall_cons in Hw as [Hw _].
              destruct Hrun as (c & ds & -> & Hc & _). injection E as <- _.
              apply is_6_to_9_digit, is_digit_word in Hc. congruence.
        -- apply (IH k' cap post); done.
Qed.

End joined.

(** *** The specification of the extractor *)

Lemma digit_run_9876543210 : digit_run (str "9876543210").
Proof.
  exists 57%N, (str "876543210"). split; [done|]. split; [done|].
  split; [done|]. repeat constructor.
Qed.

(** Claim C1, as stated, fails: the specification forbids only a digit
    behind the ten-digit run, so for the text [9876543210a] it prescribes
    one match, whereas the regex ends in [\b] and finds none. *)
Lemma run_before_letter_not_matched :
  LeftmostScan is_digit 0 (str "9876543210a")
    [MatchResult 0 (str "9876543210") (Some (str "9876543210"))] ∧
  matchAll regex (str "9876543210a") = [] ∧
  extractIndianNumbers (str "9876543210a") = [].
Proof.
  split; [|by vm_compute].
  apply (scan_hit is_digit 0 (str "9876543210a") [] [] (str "9876543210")
           (str "a") []).
  - split.
    + done.
    + apply in_prefixes. eauto 10.
    + apply in_separators. eauto.
    + apply digit_run_9876543210.
    + by intros c [= <-].
  - apply scan_miss; [|constructor].
    intros pfx sp cap rest. apply Shape_too_short. simpl. lia.
Qed.

(** Claim C1, as amended: for every text, the matches of
    [extractIndianNumbers] are exactly the leftmost, non-overlapping
    occurrences of: one of the prefixes [+91], [91], [0] or none, then at
    most one space or hyphen, then a run of ten digits starting with 6, 7,
    8 or 9 that is not followed by a letter, a digit or an underscore; the
    capture is the ten-digit run, and each match contributes [91] followed
    by its capture, a string of twelve characters. *)
Theorem extractIndianNumbers_matching t :
  LeftmostScan is_word 0 t (matchAll regex t) ∧
  (∀ ms, LeftmostScan is_word 0 t ms → ms = matchAll regex t) ∧
  (∀ m, m ∈ matchAll regex t →
        ∃ cap, m_group1 m = Some cap ∧ digit_run cap ∧
               normalize m = Some (str "91" ++ cap) ∧
               length (str "91" ++ cap) = 12) ∧
  (∀ n, n ∈ extractIndianNumbers t ↔
        ∃ m, m ∈ matchAll regex t ∧ normalize m = Some n).
Proof.
  pose proof (matchAll_leftmost t) as Hscan.
  split; [done|]. split; [|split].
  - intros ms Hms. by apply (LeftmostScan_functional 0 t).
  - intros m Hm.
    destruct (LeftmostScan_sound _ _ _ _ _ Hscan Hm) as (cap & Hg & Hrun & _).
    exists cap. split; [done|]. split; [done|].
    split; [by apply normalize_digit_run|].
    apply digit_run_length in Hrun. rewrite length_app, Hrun. done.
  - intros n. rewrite extractIndianNumbers_first_seen, elem_of_first_seen.
    apply list_elem_of_omap.
Qed.

(** Claim C4, as stated, fails: the text [9876543210a] contains
    [9876543210], and nothing is extracted from it. *)
Lemma contains_9876543210_not_extracted :
  contains (str "9876543210") (str "9876543210a") ∧
  extractIndianNumbers (str "9876543210a") = [].
Proof. split; [by exists [], (str "a")|by vm_compute]. Qed.

(** A digit behind the number has the same effect, and the digits that are
    matched instead are others. *)
Example contains_9876543210_before_digit :
  extractIndianNumbers (str "98765432101") = [str "918765432101"].
Proof. by vm_compute. Qed.

(** Claim C4, as amended: for every text that contains [9876543210] at a
    place where no letter, digit or underscore follows it, the extractor
    returns a sequence that contains [919876543210]. *)
Theorem extract_9876543210 t :
  contains_before is_word (str "9876543210") t →
  str "919876543210" ∈ extractIndianNumbers t.
Proof.
  intros H. apply elem_of_extractIndianNumbers.
  exists (str "9876543210"). split; [done|].
  split; [apply digit_run_9876543210|done].
Qed.

Lemma extract_9876543210_witness :
  contains_before is_word (str "9876543210") (str "tel: 09876543210.") ∧
  str "919876543210" ∈ extractIndianNumbers (str "tel: 09876543210.").
Proof.
  assert (H : contains_before is_word (str "9876543210") (str "tel: 09876543210.")).
  { exists (str "tel: 0"), (str "."). split; [reflexivity|].
    intros c Hc. injection Hc as <-. reflexivity. }
  split; [exact H|]. exact (extract_9876543210 _ H).
Defined.

(** Claim C5, as stated, fails: a text can contain the three spellings of
    the number and yield no occurrence of [919876543210] at all. *)
Lemma three_spellings_not_extracted :
  let t := str "+91 9876543210a 919876543210b 09876543210c" in
  contains (str "+91 9876543210") t ∧
  contains (str "919876543210") t ∧
  contains (str "09876543210") t ∧
  extractIndianNumbers t = [].
Proof.
  split; [by exists [], (str "a 919876543210b 09876543210c")|].
  split; [by exists (str "+91 9876543210a "), (str "b 09876543210c")|].
  split; [by exists (str "+91 9876543210a 919876543210b "), (str "c")|].
  by vm_compute.
Qed.

(** Claim C5, as amended: for every text, the extractor returns the
    normalized numbers of its matches without repetition, each at the place
    of its first occurrence; a text without matches yields the empty
    sequence; and a text that contains [9876543210], under whatever
    spelling and however often, at least once at a place where no letter,
    digit or underscore follows it, yields exactly one occurrence of
    [919876543210]. *)
Theorem extract_dedup t :
  extractIndianNumbers t = first_seen (normalized_matches t) ∧
  NoDup (extractIndianNumbers t) ∧
  (matchAll regex t = [] → extractIndianNumbers t = []) ∧
  (contains_before is_word (str "9876543210") t →
   length (filter (λ n, n = str "919876543210") (extractIndianNumbers t)) = 1).
Proof.
  split; [apply extractIndianNumbers_first_seen|].
  split; [rewrite extractIndianNumbers_first_seen; apply NoDup_first_seen|].
  split.
  - unfold extractIndianNumbers. by intros ->.
  - intros H. apply NoDup_count.
    + rewrite extractIndianNumbers_first_seen. apply NoDup_first_seen.
    + apply elem_of_extractIndianNumbers.
      exists (str "9876543210"). split; [done|].
      split; [apply digit_run_9876543210|done].
Qed.

Lemma extract_dedup_witness :
  let t := str "+91 9876543210 919876543210 09876543210" in
  contains_before is_word (str "9876543210") t ∧
  length (filter (λ n, n = str "919876543210") (extractIndianNumbers t)) = 1.
Proof.
  intros t.
  assert (H : contains_before is_word (str "9876543210") t).
  { exists (str "+91 "), (str " 919876543210 09876543210").
    split; [reflexivity|]. intros c Hc. injection Hc as <-. reflexivity. }
  split; [exact H|].
  exact (proj2 (proj2 (proj2 (extract_dedup t))) H).
Defined.

Example three_spellings_extracted_once :
  extractIndianNumbers (str "+91 9876543210 919876543210 09876543210") =
  [str "919876543210"].
Proof. by vm_compute. Qed.

Example first_seen_order :
  extractIndianNumbers (str "7000000001, 9876543210, 07000000001, 6000000002") =
  [str "917000000001"; str "919876543210"; str "916000000002"].
Proof. by vm_compute. Qed.

Lemma extractIndianNumbers_numbers t :
  Forall (λ n, ∃ c, n = str "91" ++ c ∧ digit_run c) (extractIndianNumbers t).
Proof.
  apply Forall_forall. intros n Hn.
  apply elem_of_extractIndianNumbers in Hn as (cap & -> & Hrun & _). eauto.
Qed.

(** Claim C6: extraction is idempotent.  The extracted numbers are joined
    with a separator between them, as [Array.prototype.join] does; the
    separator is any non-empty text without letters, digits and
    underscores (a comma, a space, a line break).  Extracting from the
    joined text yields the same set of numbers. *)
Theorem extract_idempotent t sep :
  sep ≠ [] → Forall (λ c, is_word c = false) sep →
  ∀ n, n ∈ extractIndianNumbers (join sep (extractIndianNumbers t)) ↔
       n ∈ extractIndianNumbers t.
Proof.
  intros Hne Hsep n.
  rewrite (elem_of_extractIndianNumbers (join _ _)). split.
  - intros (cap & -> & Hrun & pre & post & E & Hend).
    eapply (join_run sep Hne Hsep); eauto using extractIndianNumbers_numbers.
  - intros Hn.
    pose proof Hn as (cap & -> & Hrun & _)%elem_of_extractIndianNumbers.
    destruct (join_elem sep Hne Hsep _ _ Hn) as (pre & post & E & Hend).
    exists cap. split; [done|]. split; [done|].
    exists (pre ++ str "91"), post. split; [|done].
    rewrite E. by rewrite <-!app_assoc.
Qed.

Lemma extract_idempotent_witness :
  let t := str "Ravi 9876543210, office +91-8888888888 (old: 09876543210)" in
  str ", " ≠ [] ∧ Forall (λ c, is_word c = false) (str ", ") ∧
  ∀ n, n ∈ extractIndianNumbers (join (str ", ") (extractIndianNumbers t)) ↔
       n ∈ extractIndianNumbers t.
Proof.
  intros t.
  assert (H1 : str ", " ≠ []) by (intros H; discriminate H).
  assert (H2 : Forall (λ c, is_word c = false) (str ", ")).
  { apply Forall_cons. split; [reflexivity|].
    apply Forall_cons. split; [reflexivity|]. apply Forall_nil. exact I. }
  split; [exact H1|]. split; [exact H2|].
  exact (extract_idempotent t (str ", ") H1 H2).
Defined.

(** Without a separator the joined numbers run into each other, and only
    the last ten digits are found. *)
Example join_without_separator :
  let ns := extractIndianNumbers (str "9876543210 9876543211") in
  ns = [str "919876543210"; str "919876543211"] ∧
  extractIndianNumbers (join [] ns) = [str "919876543211"].
Proof. by vm_compute. Qed.

End OcrServiceFacts.

(** ** The recognition adapter *)

Module PerformOCRFacts.
Import Async OcrService.

Section callback.
Context {S U : Type} (f : Q → S → S).

(** The logger forwards the progress of the messages with the status
    [recognizing text], in order, and nothing else; the callback changes
    the state of the application by [f]. *)
Lemma log_all_spec ms : ∀ w,
  log_all (logger (λ p, modify (f p))) ms w =
  (Js.Resolved tt,
   World (live_workers w) (console w)
         (foldl (λ s p, f p s) (app_state w) (recognizing ms))).
Proof.
  unfold recognizing, log_all.
  induction ms as [|m ms IH]; intros [lw con s]; cbn [for_each].
  - done.
  - unfold bind, logger.
    destruct (decide (log_status m = str "recognizing text")) as [Hm|Hm].
    + unfold modify. cbn [live_workers console app_state].
      by rewrite IH, filter_cons_True by done.
    + unfold ret. by rewrite IH, filter_cons_False by done.
Qed.

(** What a call of [performOCR] does to the world. *)
Lemma performOCR_run (Tesseract : engine U) url w :
  performOCR Tesseract url (λ p, modify (f p)) w =
  let '(settled, alive, errors) := ocr_run Tesseract url in
  (settled,
   World (alive + live_workers w) (console w ++ errors)
         (foldl (λ s p, f p s) (app_state w) (ocr_progress Tesseract url))).
Proof.
  unfold performOCR, ocr_run, ocr_progress, try_catch, bind at 1.
  unfold createWorker, recognize, terminate, bind.
  rewrite log_all_spec. cbn [live_workers console app_state].
  destruct Tesseract as [[logs1 [[]|e1]] rec term]; cbn [on_create fst snd settle].
  2:{ unfold throw, console_error. cbn. by rewrite app_nil_r. }
  unfold ret, spawned. cbn [on_recognize on_terminate live_workers console app_state].
  rewrite log_all_spec. cbn [live_workers console app_state].
  rewrite foldl_app.
  destruct (rec url) as [logs2 [[t|]|e2]]; cbn [fst snd settle destructure];
    unfold ret, throw, console_error; cbn; [|done..].
  destruct term as [[]|e3]; cbn; [|done].
  by rewrite app_nil_r.
Qed.

End callback.

(** Whatever fails, the caller sees an [Error] with the fixed message and
    nothing of what the engine threw. *)
Lemma ocr_run_rejection {U} (Tesseract : engine U) url err alive errors :
  ocr_run Tesseract url = (Js.Rejected err, alive, errors) →
  err = Js.ErrorObject failure_message.
Proof.
  unfold ocr_run.
  destruct (snd (on_create Tesseract)) as [[]|e1]; [|congruence].
  destruct (snd (on_recognize Tesseract url)) as [[t|]|e2]; [|congruence..].
  destruct (on_terminate Tesseract) as [[]|e3]; congruence.
Qed.

Lemma performOCR_rejection {S U} (f : Q → S → S) (Tesseract : engine U)
    url w err w' :
  performOCR Tesseract url (λ p, modify (f p)) w = (Js.Rejected err, w') →
  err = Js.ErrorObject failure_message.
Proof.
  rewrite performOCR_run.
  destruct (ocr_run Tesseract url) as [[settled alive] errors] eqn:E.
  intros [= -> _]. by eapply ocr_run_rejection.
Qed.

(** On success the worker of the call is terminated and the text
    returned. *)
Lemma performOCR_resolved {S U} (f : Q → S → S) logs1 rec logs2 t url w :
  rec url = (logs2, Js.Resolved (Some t)) →
  let Tesseract := Engine (U:=U) (logs1, Js.Resolved tt) rec (Js.Resolved tt) in
  fst (performOCR Tesseract url (λ p, modify (f p)) w) = Js.Resolved t ∧
  live_workers (snd (performOCR Tesseract url (λ p, modify (f p)) w)) =
    live_workers w.
Proof.
  intros Hrec Tesseract. rewrite performOCR_run. unfold ocr_run, Tesseract.
  cbn [on_create on_recognize on_terminate fst snd]. by rewrite Hrec.
Qed.

(** Claim C9 at the failing input: when [createWorker] succeeds and
    [worker.recognize] rejects, the call ends with its worker still alive,
    because [worker.terminate()] is only reached on success.  The caller
    sees the fixed message, as the claim demands. *)
Theorem performOCR_failure_keeps_worker {S U} (f : Q → S → S)
    logs1 logs2 err term (url : U) w :
  let Tesseract :=
    Engine (logs1, Js.Resolved tt) (λ _, (logs2, Js.Rejected err)) term in
  let after := performOCR Tesseract url (λ p, modify (f p)) w in
  fst after = Js.Rejected (Js.ErrorObject failure_message) ∧
  live_workers (snd after) = Datatypes.S (live_workers w).
Proof.
  intros Tesseract after. unfold after. rewrite performOCR_run.
  unfold ocr_run, Tesseract. cbn. done.
Qed.

Example recognize_rejects_worker_alive :
  let Tesseract :=
    Engine ([], Js.Resolved tt)
           (λ _ : unit,
              ([LogMessage (str "recognizing text") (1 # 2)],
               Js.Rejected (Js.ErrorObject (str "out of memory"))))
           (Js.Resolved tt) in
  performOCR Tesseract tt (λ p, modify (cons p)) (World 0 [] []) =
  (Js.Rejected (Js.ErrorObject failure_message),
   World 1 [Js.ErrorObject (str "out of memory")] [1 # 2]).
Proof. reflexivity. Qed.

End PerformOCRFacts.

(** ** The job orchestrator *)

Module AppFacts.
Import Async OcrService ImageProcessing App.

Lemma steps_tail_advance u :
  ∃ fs, steps u = start_processing :: fs ∧ Forall advances fs.
Proof.
  unfold steps. eexists. split; [done|].
  destruct (preprocessImage_settles (decoded u)) as [url|e].
  - destruct (fst (fst (ocr_run (ocr_engine u) url))) as [t|e];
      (apply Forall_app; split;
       [apply Forall_fmap, Forall_forall; by intros p _ r|]);
      apply Forall_cons; (split; [by intros r|by apply Forall_nil]).
  - apply Forall_cons. split; [by intros r|by apply Forall_nil].
Qed.

Lemma steps_advance u : Forall advances (steps u).
Proof.
  destruct (steps_tail_advance u) as (fs & -> & Hfs).
  apply Forall_cons. split; [by intros r|done].
Qed.

Lemma record_states_advance fs : ∀ r r',
  Forall advances fs → status r ≠ Status.pending → r' ∈ record_states r fs →
  id r' = id r ∧ status r' ≠ Status.pending.
Proof.
  induction fs as [|f fs IH]; intros r r' Hfs Hr Hr'; [by apply elem_of_nil in Hr'|].
  apply Forall_cons in Hfs as [Hf Hfs]. cbn [record_states] in Hr'.
  destruct (Hf r) as [Hid Hst].
  apply elem_of_cons in Hr' as [->|Hr']; [auto|].
  destruct (IH (f r) r' Hfs (Hst Hr) Hr') as [Hid' Hst']. split; [|done].
  by rewrite Hid'.
Qed.

(** During its round a job keeps its id and is never waiting. *)
Lemma steps_states u r r' :
  r' ∈ record_states r (steps u) →
  id r' = id r ∧ status r' ≠ Status.pending.
Proof.
  destruct (steps_tail_advance u) as (fs & -> & Hfs). cbn [record_states].
  intros [->|Hr']%elem_of_cons; [done|].
  by apply (record_states_advance fs (start_processing r) r').
Qed.

Lemma foldl_advance fs : ∀ r,
  Forall advances fs → id (foldl (λ r f, f r) r fs) = id r.
Proof.
  induction fs as [|f fs IH]; intros r Hfs; [done|].
  apply Forall_cons in Hfs as [Hf Hfs]. cbn [foldl]. rewrite IH by done.
  apply Hf.
Qed.

(** Every round ends in [completed] or [error]. *)
Lemma final_result_terminal u : terminal (status (final_result u)).
Proof.
  unfold final_result, steps, terminal. cbn [foldl].
  destruct (preprocessImage_settles (decoded u)) as [url|e]; [|by right].
  destruct (fst (fst (ocr_run (ocr_engine u) url))) as [t|e];
    rewrite foldl_app; cbn [foldl]; [by left|by right].
Qed.

Lemma final_result_id u : id (final_result u) = random_id u.
Proof. unfold final_result. by rewrite foldl_advance by apply steps_advance. Qed.

(** With distinct ids, a call of [setResults] changes one record. *)
Lemma update_middle f r l1 l2 :
  id r ∉ id <$> l1 → id r ∉ id <$> l2 →
  update (id r) f (l1 ++ r :: l2) = l1 ++ f r :: l2.
Proof.
  intros H1 H2. unfold update. rewrite fmap_app, fmap_cons.
  rewrite decide_True by done. f_equal; [|f_equal].
  - rewrite <-(list_fmap_id l1) at 2. apply list_fmap_ext.
    intros i r' Hr'. rewrite decide_False; [done|].
    intros E. apply H1. rewrite <-E. apply list_elem_of_fmap.
    exists r'. split; [done|]. by eapply list_elem_of_lookup_2.
  - rewrite <-(list_fmap_id l2) at 2. apply list_fmap_ext.
    intros i r' Hr'. rewrite decide_False; [done|].
    intros E. apply H2. rewrite <-E. apply list_elem_of_fmap.
    exists r'. split; [done|]. by eapply list_elem_of_lookup_2.
Qed.

Lemma states_update_middle fs : ∀ r l1 l2,
  Forall advances fs → id r ∉ id <$> l1 → id r ∉ id <$> l2 →
  states (l1 ++ r :: l2) (update (id r) <$> fs) =
    (λ r', l1 ++ r' :: l2) <$> record_states r fs ∧
  run (l1 ++ r :: l2) (update (id r) <$> fs) =
    l1 ++ foldl (λ r f, f r) r fs :: l2.
Proof.
  induction fs as [|f fs IH]; intros r l1 l2 Hfs H1 H2; [done|].
  apply Forall_cons in Hfs as [Hf Hfs].
  unfold run. cbn [fmap list_fmap states record_states foldl].
  rewrite update_middle by done.
  destruct (Hf r) as [Hid _].
  destruct (IH (f r) l1 l2 Hfs) as [IH1 IH2]; [by rewrite Hid..|].
  rewrite Hid in IH1, IH2. unfold run in IH2. by rewrite IH1, IH2.
Qed.

Lemma states_app s fs gs :
  states s (fs ++ gs) = states s fs ++ states (run s fs) gs.
Proof.
  revert s. induction fs as [|f fs IH]; intros s; [done|].
  cbn [app states]. unfold run. cbn [foldl]. by rewrite IH.
Qed.

Lemma run_app s fs gs : run s (fs ++ gs) = run (run s fs) gs.
Proof. apply foldl_app. Qed.

Lemma last_states s fs : fs ≠ [] → last (states s fs) = Some (run s fs).
Proof.
  revert s. induction fs as [|f fs IH]; intros s Hne; [done|].
  destruct fs as [|g fs]; [done|].
  cbn [states]. unfold run. cbn [foldl].
  change (last (f s :: g (f s) :: states (g (f s)) fs))
    with (last (states (f s) (g :: fs))).
  by rewrite IH.
Qed.

(** The loop over the files: with [done] finished and [rest] waiting,
    every state that follows is sequential, and in the end all of [rest]
    is finished as well. *)
Lemma loop_sequential rest : ∀ done,
  NoDup (id <$> done ++ (initialResult <$> rest)) →
  Forall (λ r, terminal (status r)) done →
  Forall (λ s, sequential s ∧
               id <$> s = id <$> done ++ (initialResult <$> rest))
         (states (done ++ (initialResult <$> rest)) (rest ≫= process)) ∧
  run (done ++ (initialResult <$> rest)) (rest ≫= process) =
    done ++ (final_result <$> rest).
Proof.
  induction rest as [|u rest IH]; intros done Hnd Hdone.
  - split; [constructor|]. by rewrite !app_nil_r.
  - rewrite bind_cons, states_app, run_app. cbn [fmap list_fmap].
    rewrite fmap_app, fmap_cons in Hnd.
    apply NoDup_app in Hnd as (Hnd1 & Hnd12 & Hnd2).
    apply NoDup_cons in Hnd2 as [Hnd2 Hnd3].
    assert (H1 : id (initialResult u) ∉ id <$> done).
    { intros H. apply (Hnd12 _ H). by left. }
    destruct (states_update_middle (steps u) (initialResult u) done
                (initialResult <$> rest) (steps_advance u) H1 Hnd2) as [Hst Hrun].
    change (process u) with (update (id (initialResult u)) <$> steps u).
    rewrite Hst, Hrun. fold (final_result u).
    assert (Hrest : Forall (λ r, status r = Status.pending)
                           (initialResult <$> rest)).
    { apply Forall_fmap, Forall_forall. by intros u' _. }
    destruct (IH (done ++ [final_result u])) as [IH1 IH2].
    { rewrite fmap_app, fmap_app, <-app_assoc. cbn [fmap list_fmap app].
      rewrite final_result_id. apply NoDup_app. split; [done|].
      split; [done|]. by apply NoDup_cons. }
    { apply Forall_app. split; [done|]. constructor; [|done].
      apply final_result_terminal. }
    rewrite <-app_assoc in IH1, IH2. cbn [app] in IH1, IH2.
    split; [|by rewrite IH2, <-app_assoc].
    apply Forall_app. split.
    + apply Forall_fmap, Forall_forall. intros r' Hr'.
      destruct (steps_states _ _ _ Hr') as [Hid Hs].
      cbn [compose]. split.
      * exists done, [r'], (initialResult <$> rest).
        split; [done|]. split; [done|]. split; [simpl; lia|done].
      * rewrite !fmap_app, !fmap_cons. by rewrite Hid.
    + eapply Forall_impl; [exact IH1|]. intros s [Hs Hids]. split; [done|].
      rewrite Hids, !fmap_app, !fmap_cons. by rewrite final_result_id.
Qed.



Lemma initialResult_ids (files : list upload) :
  id <$> (initialResult <$> files) = random_id <$> files.
Proof. by rewrite <-list_fmap_compose. Qed.

(** The states under the calls of a run: all are sequential and list the
    jobs of the accepted files in their order; the last one holds the final
    record of every file. *)
Lemma setters_states selected prev :
  let files := take MAX_FILES selected in
  NoDup (random_id <$> files) →
  Forall (λ s, sequential s ∧ id <$> s = random_id <$> files)
         (states prev (setters selected)) ∧
  (files ≠ [] →
   last (states prev (setters selected)) = Some (final_result <$> files)).
Proof.
  intros files Hnd. unfold setters. fold files.
  destruct files as [|u files'] eqn:E; [by split|].
  rewrite <-E in *. clear E.
  destruct (loop_sequential files []) as [H1 H2];
    [by rewrite app_nil_l, initialResult_ids|done|].
  rewrite !app_nil_l in H1, H2. rewrite initialResult_ids in H1.
  split.
  - cbn [states]. constructor; [|done]. split; [|apply initialResult_ids].
    exists [], [], (initialResult <$> files). split; [done|].
    split; [done|]. split; [simpl; lia|].
    apply Forall_fmap, Forall_forall. by intros u' _.
  - intros _. rewrite last_states by done. unfold run. cbn [foldl].
    f_equal. exact H2.
Qed.

(** *** The run of [handleFileUpload] *)

Lemma foldl_set_results gs : ∀ c,
  foldl (λ c g, set_results g c) c gs =
  Component (run (results c) gs) (isProcessing c)
            (rendered c ++ states (results c) gs).
Proof.
  induction gs as [|g gs IH]; intros [s ip rs].
  - unfold run. cbn. by rewrite app_nil_r.
  - cbn [foldl]. rewrite IH. unfold run, set_results. cbn.
    by rewrite <-app_assoc.
Qed.

(** One round of the loop makes the calls of [process] and does not
    throw. *)
Lemma process_file_run u w :
  ∃ alive errors,
    process_file u (random_id u) w =
    (Js.Resolved tt,
     World alive errors
           (foldl (λ c g, set_results g c) (app_state w) (process u))).
Proof.
  unfold process_file, process, steps, try_catch, bind at 1, setResults.
  unfold modify at 1. cbn [live_workers console app_state fmap list_fmap foldl].
  unfold preprocessImage.
  destruct (preprocessImage_settles (decoded u)) as [url|e];
    cbn [settle]; unfold bind at 1, ret, throw.
  2:{ unfold modify. cbn. eauto. }
  unfold bind.
  rewrite (PerformOCRFacts.performOCR_run
             (λ p, set_results (update (random_id u) (set_progress p)))).
  destruct (ocr_run (ocr_engine u) url) as [[[t|e] alive] errors];
    cbn [fst live_workers console app_state]; unfold modify;
    cbn [live_workers console app_state];
    rewrite fmap_app, foldl_app, <-list_fmap_compose;
    rewrite !(foldl_fmap (λ c g, set_results g c));
    cbn [fmap list_fmap foldl compose]; eauto.
Qed.

Lemma for_each_files (files : list upload) n : ∀ k w,
  k + n = length files →
  ∃ alive errors,
    for_each (seq k n)
      (λ i, process_file (files !!! i)
              (id ((initialResult <$> files) !!! i))) w =
    (Js.Resolved tt,
     World alive errors
           (foldl (λ c g, set_results g c) (app_state w) (drop k files ≫= process))).
Proof.
  induction n as [|n IH]; intros k w Hk.
  - rewrite drop_ge by lia. destruct w. cbn. eauto.
  - cbn [seq for_each].
    destruct (lookup_lt_is_Some_2 files k ltac:(lia)) as [u Hu].
    rewrite (list_lookup_total_correct _ _ _ Hu).
    rewrite (list_lookup_total_correct (initialResult <$> files) k
               (initialResult u)) by (by rewrite list_lookup_fmap, Hu).
    change (id (initialResult u)) with (random_id u).
    destruct (process_file_run u w) as (alive & errors & Hrun).
    unfold bind. rewrite Hrun.
    destruct (IH (S k) (World alive errors
                (foldl (λ c g, set_results g c) (app_state w) (process u)))
                ltac:(lia)) as (alive' & errors' & Hloop).
    rewrite Hloop. exists alive', errors'. cbn [app_state].
    by rewrite (drop_S _ _ _ Hu), bind_cons, foldl_app.
Qed.

(** What an observer sees of a run are the states under its calls of
    [setResults]. *)
Lemma handleFileUpload_trace selected prev :
  trace selected prev = states prev (setters selected).
Proof.
  unfold trace, handleFileUpload, setters, boot.
  destruct (take MAX_FILES selected) as [|u files] eqn:E; [done|].
  rewrite decide_False by done. rewrite <-E. clear E.
  set (files' := take MAX_FILES selected).
  unfold bind at 1, setIsProcessing at 1, modify at 1.
  unfold bind at 1, setResults, modify at 1.
  cbn [live_workers console app_state results isProcessing rendered set_results].
  unfold bind.
  edestruct (for_each_files files' (length files') 0) as (alive & errors & Hloop);
    [done|].
  rewrite Hloop. unfold setIsProcessing, modify. cbn [snd app_state rendered].
  rewrite drop_0, foldl_set_results. done.
Qed.



(** The batch is worked off to the end, and the final record of a job
    depends on its own file only. *)
Lemma handleFileUpload_final selected prev :
  take MAX_FILES selected ≠ [] →
  NoDup (random_id <$> take MAX_FILES selected) →
  last (trace selected prev) =
    Some (final_result <$> take MAX_FILES selected).
Proof.
  intros Hne Hnd. rewrite handleFileUpload_trace.
  by apply (setters_states selected prev Hnd).
Qed.

Lemma foldl_set_progress ps : ∀ r,
  let r' := foldl (λ r f, f r) r (set_progress <$> ps) in
  id r' = id r ∧ fileName r' = fileName r ∧
  status r' = status r ∧ rawText r' = rawText r ∧
  numbers r' = numbers r ∧ error r' = error r ∧
  previewUrl r' = previewUrl r.
Proof.
  induction ps as [|p ps IH]; intros r; [done|].
  cbn [fmap list_fmap foldl]. destruct (IH (set_progress p r)) as
    (-> & -> & -> & -> & -> & -> & ->). done.
Qed.

(** A job whose image is enhanced and recognized is completed with the
    text and its numbers. *)
Lemma final_result_completed u url t alive errors :
  preprocessImage_settles (decoded u) = Js.Resolved url →
  ocr_run (ocr_engine u) url = (Js.Resolved t, alive, errors) →
  final_result u =
    Result (random_id u) (file_name u) Status.completed 100 (Some t)
           (extractIndianNumbers t) None (object_url u).
Proof.
  intros H1 H2. unfold final_result, steps. rewrite H1, H2.
  cbn [foldl fst]. rewrite foldl_app. cbn [foldl].
  destruct (foldl_set_progress (ocr_progress (ocr_engine u) url)
              (start_processing (initialResult u)))
    as (E1 & E2 & E3 & E4 & E5 & E6 & E7).
  unfold complete. by rewrite E1, E2, E6, E7.
Qed.

(** A job whose recognition fails is failed with the message of
    [performOCR]. *)
Lemma final_result_ocr_failed u url e alive errors :
  preprocessImage_settles (decoded u) = Js.Resolved url →
  ocr_run (ocr_engine u) url = (Js.Rejected e, alive, errors) →
  status (final_result u) = Status.error ∧
  error (final_result u) = Some failure_message.
Proof.
  intros H1 H2. unfold final_result, steps. rewrite H1, H2.
  apply PerformOCRFacts.ocr_run_rejection in H2 as ->.
  cbn [foldl fst]. by rewrite foldl_app.
Qed.

(** A job whose enhancement fails is failed with [error.message] of the
    value that [preprocessImage] rejects with. *)
Lemma final_result_enhance_failed u e :
  preprocessImage_settles (decoded u) = Js.Rejected e →
  final_result u =
    Result (random_id u) (file_name u) Status.error 0 None [] (Js.message e)
           (object_url u).
Proof. intros H. unfold final_result, steps. by rewrite H. Qed.

(** Claim C3 at the failing input: when the enhancer fails because the
    canvas gives no 2D context, [preprocessImage] rejects with the string
    ['Could not get canvas context'], which has no [message]; the job ends
    in [error], and its [error] field is [undefined] instead of the message
    of the stage.  A file that does not load, which rejects with an event,
    ends in the same way. *)
Theorem enhance_failure_has_no_reason name rid url eng prev :
  let u := Upload name rid url NoContext eng in
  preprocessImage_settles (decoded u) =
    Js.Rejected (Js.StringValue (str "Could not get canvas context")) ∧
  last (trace [u] prev) =
    Some [Result rid name Status.error 0 None [] None url].
Proof.
  intros u. split; [done|].
  rewrite handleFileUpload_final.
  - done.
  - done.
  - cbn. apply NoDup_singleton.
Qed.

Example undecodable_image_has_no_reason :
  last (trace
          [Upload (str "scan.png") (str "k3j9x0a1b") (str "blob:1") ImageError
                  (Engine ([], Js.Resolved tt) (λ _, ([], Js.Resolved (Some [])))
                          (Js.Resolved tt))] []) =
  Some [Result (str "k3j9x0a1b") (str "scan.png") Status.error 0 None [] None
               (str "blob:1")].
Proof. reflexivity. Qed.

(** A batch of three in which the enhancer fails for the second file:
    the first and the third job are completed. *)
Example batch_of_three :
  let eng t := Engine ([], Js.Resolved tt)
                      (λ _, ([LogMessage (str "recognizing text") (1 # 2)],
                             Js.Resolved (Some t)))
                      (Js.Resolved tt) in
  let selected :=
    [Upload (str "a.png") (str "id1") (str "blob:1") (Loaded 1 1 [9; 9; 9; 255]%Z)
            (eng (str "9876543210"));
     Upload (str "b.png") (str "id2") (str "blob:2") ImageError (eng []);
     Upload (str "c.png") (str "id3") (str "blob:3") (Loaded 1 1 [0; 0; 0; 255]%Z)
            (eng (str "no number"))] in
  last (trace selected []) =
  Some [Result (str "id1") (str "a.png") Status.completed 100 (Some (str "9876543210"))
               [str "919876543210"] None (str "blob:1");
        Result (str "id2") (str "b.png") Status.error 0 None [] None (str "blob:2");
        Result (str "id3") (str "c.png") Status.completed 100 (Some (str "no number"))
               [] None (str "blob:3")].
Proof. by vm_compute. Qed.

End AppFacts.

(** ** Buffers filled chunk by chunk *)

Module ChunkFacts.
Section chunks.
Context {A : Type} (m : nat) (g : nat → list A).
Hypothesis g_length : ∀ i, length (g i) = m.

Lemma length_chunks (l : list nat) : length (l ≫= g) = length l * m.
Proof.
  induction l as [|i l IH]; [done|].
  rewrite bind_cons, length_app, IH, g_length. simpl. lia.
Qed.

(** Element [j] of chunk [i]. *)
Lemma lookup_chunks n : ∀ a i j,
  i < n → j < m → (seq a n ≫= g) !! (i * m + j) = g (a + i) !! j.
Proof.
  induction n as [|n IH]; intros a i j Hi Hj; [lia|].
  cbn [seq]. rewrite bind_cons. destruct i as [|i].
  - rewrite lookup_app_l by (rewrite g_length; lia).
    by rewrite Nat.add_0_r.
  - rewrite lookup_app_r by (rewrite g_length; lia).
    rewrite g_length.
    replace (S i * m + j - m) with (i * m + j) by lia.
    rewrite IH by lia. by replace (S a + i) with (a + S i) by lia.
Qed.

(** A loop whose [i]-th round replaces chunk [i] of the buffer by [g i]
    fills the buffer with the chunks in order. *)
Lemma fold_fill (step : list A → nat → list A) (base : nat) :
  (∀ done rest i, length done = base + m * i → m ≤ length rest →
                  step (done ++ rest) i = done ++ g i ++ drop m rest) →
  ∀ n a done rest,
    length done = base + m * a → m * n ≤ length rest →
    foldl step (done ++ rest) (seq a n) =
    done ++ (seq a n ≫= g) ++ drop (m * n) rest.
Proof.
  intros Hstep. induction n as [|n IH]; intros a done rest Hd Hr.
  - by rewrite Nat.mul_0_r.
  - cbn [seq foldl]. rewrite Hstep by lia. rewrite app_assoc.
    rewrite IH.
    + rewrite bind_cons, drop_drop, <-!app_assoc.
      by replace (m + m * n) with (m * S n) by lia.
    + rewrite length_app, g_length. lia.
    + rewrite length_drop. lia.
Qed.

End chunks.
End ChunkFacts.

(** ** The image enhancer *)

Module Uint8ClampFacts.
Import ImageProcessing.
Local Open Scope Z_scope.

(** *** Storing numbers *)

Lemma Qltb_lt a b : Qltb a b = (Qnum a * QDen b <? Qnum b * QDen a).
Proof. done. Qed.

(** An integer is stored saturated. *)
Ltac case_ltb :=
  repeat match goal with
         | |- context [?a <? ?b] => destruct (Z.ltb_spec a b)
         end.

Lemma ToUint8Clamp_integer s : ToUint8Clamp (inject_Z s) = clamp s.
Proof.
  unfold ToUint8Clamp, clamp. rewrite !Qltb_lt. cbn [Qnum Qden inject_Z].
  rewrite !Z.mul_1_r. change (0 * 1) with 0.
  destruct (Z.ltb_spec s 0); [by vm_compute|].
  destruct (Z.ltb_spec 255 s); [by vm_compute|].
  rewrite Qfloor_Z. unfold Qplus. cbn [Qnum Qden inject_Z].
  change (Z.pos (1 * 2)) with 2. case_ltb; lia.
Qed.

(** The gray level that the first loop stores for a pixel. *)
Lemma ToUint8Clamp_contrast r g b :
  0 ≤ r + g + b ≤ 765 →
  ToUint8Clamp (contrast (average r g b)) = gray_level r g b.
Proof.
  intros Hs. unfold contrast, gray_level, average. rewrite !Qltb_lt.
  unfold Qdiv, Qmult, Qplus, Qinv. cbn [Qnum Qden inject_Z].
  change (Z.pos (1 * 1 * 1 * 3)) with 3. change (Z.pos (1 * 1)) with 1.
  change (1 * 1 * 1 * 3)%positive with 3%positive.
  replace (((r * 1 + g * 1) * 1 + b * 1) * 1 * 1) with (r + g + b) by lia.
  replace (((r * 1 + g * 1) * 1 + b * 1) * 1) with (r + g + b) by lia.
  destruct (Z.ltb_spec (128 * 3) (r + g + b)).
  { destruct (Z.ltb_spec 384 (r + g + b)); [by vm_compute|lia]. }
  destruct (Z.ltb_spec 384 (r + g + b)); [lia|].
  destruct (Z.ltb_spec (r + g + b) (50 * 3)).
  { destruct (Z.ltb_spec (r + g + b) 150); [by vm_compute|lia]. }
  destruct (Z.ltb_spec (r + g + b) 150); [lia|].
  generalize dependent (r + g + b). clear r g b. intros s Hs H1 H2 H3 H4.
  unfold ToUint8Clamp. rewrite !Qltb_lt. cbn [Qnum Qden].
  change (Z.pos 3) with 3. change (Qnum 0) with 0. change (QDen 0) with 1.
  change (Qnum 255) with 255. change (QDen 255) with 1.
  destruct (Z.ltb_spec (s * 1) (0 * 3)); [lia|].
  destruct (Z.ltb_spec (255 * 3) (s * 1)); [lia|].
  unfold Qfloor, Qplus. cbn [Qnum Qden inject_Z].
  change (Z.pos 3) with 3. change (Z.pos (1 * 2)) with 2.
  pose proof (Z.div_mod s 3 ltac:(lia)). pose proof (Z.mod_pos_bound s 3 ltac:(lia)).
  pose proof (Z.div_mod (s + 1) 3 ltac:(lia)).
  pose proof (Z.mod_pos_bound (s + 1) 3 ltac:(lia)).
  case_ltb; try lia.
Qed.

Lemma average_gt_128 r g b : (128 < average r g b)%Q ↔ 384 < r + g + b.
Proof.
  unfold average, Qlt, Qdiv, Qmult, Qplus, Qinv. cbn [Qnum Qden inject_Z].
  change (Z.pos (1 * 1 * 1 * 3)) with 3. change (Z.pos (1 * 1)) with 1. lia.
Qed.

Lemma average_lt_50 r g b : (average r g b < 50)%Q ↔ r + g + b < 150.
Proof.
  unfold average, Qlt, Qdiv, Qmult, Qplus, Qinv. cbn [Qnum Qden inject_Z].
  change (Z.pos (1 * 1 * 1 * 3)) with 3. change (Z.pos (1 * 1)) with 1. lia.
Qed.



Lemma average_eq r g b v : (inject_Z v == average r g b)%Q ↔ 3 * v = r + g + b.
Proof.
  unfold average, Qeq, Qdiv, Qmult, Qplus, Qinv. cbn [Qnum Qden inject_Z].
  change (Z.pos (1 * 1 * 1 * 3)) with 3. change (Z.pos (1 * 1)) with 1. lia.
Qed.

(** [v] is the integer nearest to the average. *)
Lemma average_nearest r g b :
  let v := (r + g + b + 1) / 3 in
  (inject_Z v - (1 # 2) < average r g b)%Q ∧
  (average r g b < inject_Z v + (1 # 2))%Q.
Proof.
  pose proof (Z.div_mod (r + g + b + 1) 3 ltac:(lia)).
  pose proof (Z.mod_pos_bound (r + g + b + 1) 3 ltac:(lia)).
  unfold average, Qminus, Qopp, Qlt, Qdiv, Qmult, Qplus, Qinv.
  cbn [Qnum Qden inject_Z].
  change (Z.pos (1 * 1 * 1 * 3)) with 3. change (Z.pos (1 * 1)) with 1.
  change (Z.pos (1 * 2)) with 2. lia.
Qed.

Lemma ToUint8Clamp_255 : ToUint8Clamp 255 = 255.
Proof. done. Qed.


Lemma gray_level_byte r g b : is_byte (gray_level r g b).
Proof.
  unfold is_byte, gray_level.
  pose proof (Z.div_mod (r + g + b + 1) 3 ltac:(lia)).
  pose proof (Z.mod_pos_bound (r + g + b + 1) 3 ltac:(lia)).
  case_ltb; lia.
Qed.

End Uint8ClampFacts.

Module ImageProcessingFacts.
Import ChunkFacts Uint8ClampFacts ImageProcessing.

(** *** Images *)

Lemma render_length w h f :
  (∀ x y, length (f x y) = 4) → length (render w h f) = w * h * 4.
Proof.
  intros Hf. unfold render.
  rewrite (length_chunks (w * 4)), length_seq; [lia|].
  intros y. by rewrite (length_chunks 4), length_seq.
Qed.

Lemma render_lookup w h f x y c :
  (∀ x y, length (f x y) = 4) → x < w → y < h → c < 4 →
  render w h f !! offset w x y c = f x y !! c.
Proof.
  intros Hf Hx Hy Hc. unfold render, offset.
  replace ((y * w + x) * 4 + c) with (y * (w * 4) + (x * 4 + c)) by lia.
  rewrite (lookup_chunks (w * 4)); [| |done|lia].
  - by rewrite (lookup_chunks 4).
  - intros y'. by rewrite (length_chunks 4), length_seq.
Qed.


(** *** The first loop *)

Lemma grayscale_step_app done r g b a rest :
  is_byte r → is_byte g → is_byte b →
  grayscale_step (done ++ r :: g :: b :: a :: rest) (length done) =
  done ++ gray_level r g b :: gray_level r g b :: gray_level r g b :: a :: rest.
Proof.
  intros Hr Hg Hb. unfold grayscale_step, set, get.
  rewrite !lookup_total_app_r by lia.
  replace (length done - length done) with 0 by lia.
  replace (length done + 1 - length done) with 1 by lia.
  replace (length done + 2 - length done) with 2 by lia.
  cbn [lookup_total list_lookup_total].
  rewrite ToUint8Clamp_contrast by (unfold is_byte in *; lia).
  rewrite !insert_app_r_alt by lia.
  replace (length done - length done) with 0 by lia.
  replace (length done + 1 - length done) with 1 by lia.
  replace (length done + 2 - length done) with 2 by lia.
  done.
Qed.

Lemma gray_pixels_length data : length (gray_pixels data) = length data.
Proof.
  assert (H : ∀ n data, length data ≤ n →
                        length (gray_pixels data) = length data).
  { clear data. induction n as [|n IH]; intros data Hn.
    - destruct data; [done|simpl in Hn; lia].
    - destruct data as [|r [|g [|b [|a data]]]]; try done.
      cbn [gray_pixels length]. rewrite IH; [done|]. simpl in Hn. lia. }
  by apply (H (length data)).
Qed.

Lemma grayscale_fold n : ∀ rest done k,
  length done = 4 * k → length rest = 4 * n → Forall is_byte rest →
  foldl grayscale_step (done ++ rest) ((λ k, 4 * k) <$> seq k n) =
  done ++ gray_pixels rest.
Proof.
  induction n as [|n IH]; intros rest done k Hd Hr Hb.
  - by destruct rest.
  - destruct rest as [|r [|g [|b [|a rest]]]]; try (simpl in Hr; lia).
    apply Forall_cons in Hb as [Br Hb]. apply Forall_cons in Hb as [Bg Hb].
    apply Forall_cons in Hb as [Bb Hb]. apply Forall_cons in Hb as [_ Hb].
    cbn [seq fmap list_fmap foldl gray_pixels]. rewrite <-Hd.
    rewrite grayscale_step_app by done.
    set (v := gray_level r g b).
    change (done ++ v :: v :: v :: a :: rest) with (done ++ [v; v; v; a] ++ rest).
    rewrite app_assoc. rewrite (IH rest (done ++ [v; v; v; a]) (S k)).
    + by rewrite <-app_assoc.
    + rewrite length_app. simpl. lia.
    + simpl in Hr. lia.
    + done.
Qed.

(** On image data the first loop works pixel by pixel. *)
Lemma grayscale_contrast_pixels data n :
  length data = 4 * n → Forall is_byte data →
  grayscale_contrast data = gray_pixels data.
Proof.
  intros Hl Hb. unfold grayscale_contrast, loop_offsets. rewrite Hl.
  replace ((4 * n + 3) / 4) with n.
  2:{ apply Nat.div_unique with 3; lia. }
  by apply (grayscale_fold n data [] 0).
Qed.

Lemma gray_pixels_lookup p : ∀ data,
  p * 4 + 4 ≤ length data →
  let v := gray_level (get data (p * 4)) (get data (p * 4 + 1))
                      (get data (p * 4 + 2)) in
  gray_pixels data !! (p * 4) = Some v ∧
  gray_pixels data !! (p * 4 + 1) = Some v ∧
  gray_pixels data !! (p * 4 + 2) = Some v ∧
  gray_pixels data !! (p * 4 + 3) = data !! (p * 4 + 3).
Proof.
  induction p as [|p IH]; intros data Hl.
  - destruct data as [|r [|g [|b [|a data]]]]; try (simpl in Hl; lia). done.
  - destruct data as [|r [|g [|b [|a data]]]]; try (simpl in Hl; lia).
    simpl in Hl. specialize (IH data ltac:(lia)).
    replace (S p * 4) with (S (S (S (S (p * 4))))) by lia.
    exact IH.
Qed.

(** *** [sharpen] *)

Lemma pixel_out_length src w h x y : length (pixel_out src w h x y) = 4.
Proof. unfold pixel_out. by destruct (convolve src w h x y) as [[r g] b]. Qed.

(** One round of the loop over [x] writes the four bytes of one pixel. *)
Lemma sharpen_pixel_app src w h done rest y x :
  length done = (y * w + x) * 4 → 4 ≤ length rest →
  sharpen_pixel src w h (done ++ rest) y x =
  done ++ pixel_out src w h x y ++ drop 4 rest.
Proof.
  intros Hd Hr. unfold sharpen_pixel, pixel_out, set.
  destruct (convolve src w h x y) as [[r g] b].
  rewrite !ToUint8Clamp_integer, ToUint8Clamp_255, <-Hd.
  destruct rest as [|z0 [|z1 [|z2 [|z3 rest]]]]; try (simpl in Hr; lia).
  rewrite !insert_app_r_alt by lia.
  replace (length done - length done) with 0 by lia.
  replace (length done + 1 - length done) with 1 by lia.
  replace (length done + 2 - length done) with 2 by lia.
  replace (length done + 3 - length done) with 3 by lia.
  done.
Qed.

(** [sharpen] computes every pixel of its output from [src] alone. *)
Lemma sharpen_render src w h :
  sharpen src w h = render w h (pixel_out src w h).
Proof.
  unfold sharpen, render, createImageData.
  assert (Hrow : ∀ y, length (seq 0 w ≫= λ x, pixel_out src w h x y) = w * 4).
  { intros y. rewrite (length_chunks 4), length_seq; [done|].
    intros x. apply pixel_out_length. }
  rewrite <-(app_nil_l (replicate _ _)).
  rewrite (fold_fill (w * 4) _ Hrow _ 0).
  - rewrite drop_ge by (rewrite length_replicate; lia). by rewrite app_nil_r.
  - intros done rest y Hd Hr.
    rewrite (fold_fill 4 (λ x, pixel_out src w h x y)
               (λ x, pixel_out_length src w h x y)
               (λ dst x, sharpen_pixel src w h dst y x) (y * w * 4));
      [by replace (4 * w) with (w * 4) by lia| |simpl; lia|lia].
    intros done' rest' x Hd' Hr'. apply sharpen_pixel_app; lia.
  - simpl. lia.
  - rewrite length_replicate. lia.
Qed.

Lemma sharpen_lookup src w h x y c :
  x < w → y < h → c < 4 →
  sharpen src w h !! offset w x y c = pixel_out src w h x y !! c.
Proof.
  intros. rewrite sharpen_render. apply render_lookup; [|done..].
  apply pixel_out_length.
Qed.




(** The reads of the kernel loops stay inside [src]. *)
Lemma kernel_reads_in_range (src : list Z) w h (scx scy : Z) :
  length src = w * h * 4 →
  (0 ≤ scy < Z.of_nat h)%Z → (0 ≤ scx < Z.of_nat w)%Z →
  Z.to_nat ((scy * Z.of_nat w + scx) * 4) + 2 < length src.
Proof. intros -> Hy Hx. nia. Qed.

(** *** The specification of the enhancer *)

(** Claim C7, as stated, fails: the buffer holds integers, so a mid-tone
    average that is not an integer is not stored unchanged.  The pixel
    (100, 100, 101) has the average 301/3 and becomes (100, 100, 100). *)
Lemma midtone_average_is_rounded :
  let data := [100; 100; 101; 255]%Z in
  (50 <= average 100 100 101 <= 128)%Q ∧
  grayscale_contrast data = [100; 100; 100; 255]%Z ∧
  ¬ (inject_Z 100 == average 100 100 101)%Q.
Proof.
  split; [split; by vm_compute|]. split; [by vm_compute|].
  rewrite average_eq. lia.
Qed.

(** Claim C7, as amended: in the first loop, for every pixel the average
    [avg = (R + G + B) / 3] is computed exactly, and the three colour
    channels are set to 255 if [avg > 128], to 0 if [avg < 50], and
    otherwise to the integer nearest to [avg], which is [avg] itself exactly
    when [R + G + B] is a multiple of 3; the alpha channel is untouched. *)
Theorem grayscale_contrast_pixel data n p :
  length data = 4 * n → Forall is_byte data → p < n →
  let r := get data (p * 4) in
  let g := get data (p * 4 + 1) in
  let b := get data (p * 4 + 2) in
  let avg := average r g b in
  ∃ v,
    grayscale_contrast data !! (p * 4) = Some v ∧
    grayscale_contrast data !! (p * 4 + 1) = Some v ∧
    grayscale_contrast data !! (p * 4 + 2) = Some v ∧
    grayscale_contrast data !! (p * 4 + 3) = data !! (p * 4 + 3) ∧
    ((128 < avg)%Q → v = 255%Z) ∧
    ((avg < 50)%Q → v = 0%Z) ∧
    ((50 <= avg <= 128)%Q →
       (inject_Z v - (1 # 2) < avg)%Q ∧ (avg < inject_Z v + (1 # 2))%Q ∧
       ((inject_Z v == avg)%Q ↔ ((r + g + b) mod 3 = 0)%Z)).
Proof.
  intros Hl Hb Hp r g b avg.
  rewrite (grayscale_contrast_pixels data n Hl Hb).
  destruct (gray_pixels_lookup p data ltac:(lia)) as (H0 & H1 & H2 & H3).
  exists (gray_level r g b). do 4 (split; [done|]).
  unfold avg, gray_level. split; [|split].
  - intros H%average_gt_128. by destruct (Z.ltb_spec 384 (r + g + b)); [|lia].
  - intros H%average_lt_50.
    destruct (Z.ltb_spec 384 (r + g + b)); [lia|].
    by destruct (Z.ltb_spec (r + g + b) 150); [|lia].
  - intros [Hlo Hhi]. apply Qle_not_lt in Hlo, Hhi.
    rewrite average_lt_50 in Hlo. rewrite average_gt_128 in Hhi.
    destruct (Z.ltb_spec 384 (r + g + b)); [lia|].
    destruct (Z.ltb_spec (r + g + b) 150); [lia|].
    split; [apply average_nearest|]. split; [apply average_nearest|].
    rewrite average_eq.
    pose proof (Z.div_mod (r + g + b + 1) 3 ltac:(lia)).
    pose proof (Z.mod_pos_bound (r + g + b + 1) 3 ltac:(lia)).
    pose proof (Z.div_mod (r + g + b) 3 ltac:(lia)).
    pose proof (Z.mod_pos_bound (r + g + b) 3 ltac:(lia)).
    lia.
Qed.

Lemma grayscale_contrast_pixel_witness :
  let data := [100; 100; 101; 7; 255; 130; 0; 255]%Z in
  length data = 4 * 2 ∧ Forall is_byte data ∧ 1 < 2 ∧
  ∃ v,
    grayscale_contrast data !! (1 * 4) = Some v ∧
    grayscale_contrast data !! (1 * 4 + 1) = Some v ∧
    grayscale_contrast data !! (1 * 4 + 2) = Some v ∧
    grayscale_contrast data !! (1 * 4 + 3) = data !! (1 * 4 + 3) ∧
    ((128 < average 255 130 0)%Q → v = 255%Z) ∧
    ((average 255 130 0 < 50)%Q → v = 0%Z) ∧
    ((50 <= average 255 130 0 <= 128)%Q →
       (inject_Z v - (1 # 2) < average 255 130 0)%Q ∧
       (average 255 130 0 < inject_Z v + (1 # 2))%Q ∧
       ((inject_Z v == average 255 130 0)%Q ↔ ((255 + 130 + 0) mod 3 = 0)%Z)).
Proof.
  intros data.
  assert (H1 : length data = 4 * 2) by reflexivity.
  assert (H2 : Forall is_byte data).
  { unfold data, is_byte. repeat (apply Forall_cons; split; [lia|]).
    apply Forall_nil. exact I. }
  assert (H3 : 1 < 2) by lia.
  split; [exact H1|]. split; [exact H2|]. split; [exact H3|].
  exact (grayscale_contrast_pixel data 2 1 H1 H2 H3).
Defined.





(** Claim C10: the output buffer of [sharpen] is a [Uint8ClampedArray], so
    for every pixel each weighted sum is stored saturated, a sum below 0 as
    0 and a sum above 255 as 255, and the stored values are integers from 0
    to 255; the alpha channel of the output is always 255. *)
Theorem sharpen_saturates src w h x y :
  length src = w * h * 4 → x < w → y < h →
  let '(r, g, b) := convolve src w h x y in
  let out := sharpen src w h in
  out !! offset w x y 0 = Some (ToUint8Clamp (inject_Z r)) ∧
  out !! offset w x y 1 = Some (ToUint8Clamp (inject_Z g)) ∧
  out !! offset w x y 2 = Some (ToUint8Clamp (inject_Z b)) ∧
  out !! offset w x y 3 = Some 255%Z ∧
  (∀ s, (s < 0)%Z → ToUint8Clamp (inject_Z s) = 0%Z) ∧
  (∀ s, (255 < s)%Z → ToUint8Clamp (inject_Z s) = 255%Z) ∧
  (∀ s, (0 ≤ s ≤ 255)%Z → ToUint8Clamp (inject_Z s) = s) ∧
  (∀ s, is_byte (ToUint8Clamp (inject_Z s))).
Proof.
  intros _ Hx Hy.
  pose proof (sharpen_lookup src w h x y) as Hout. unfold pixel_out in Hout.
  destruct (convolve src w h x y) as [[r g] b]. intros out.
  rewrite !ToUint8Clamp_integer.
  do 4 (split; [by apply Hout; lia|]).
  split; [|split; [|split]]; intros s; try intros Hs;
    rewrite ToUint8Clamp_integer; unfold is_byte, clamp;
    destruct (Z.ltb_spec s 0); destruct (Z.ltb_spec 255 s); lia.
Qed.

Lemma sharpen_saturates_witness :
  let src := [0; 0; 0; 255; 255; 255; 255; 255; 0; 0; 0; 255;
              255; 255; 255; 255; 255; 255; 0; 255; 255; 255; 255; 255;
              0; 0; 0; 255; 255; 255; 255; 255; 0; 0; 0; 255]%Z in
  length src = 3 * 3 * 4 ∧ 1 < 3 ∧
  convolve src 3 3 1 1 = (255, 255, -1020)%Z ∧
  sharpen src 3 3 !! offset 3 1 1 0 = Some 255%Z ∧
  sharpen src 3 3 !! offset 3 1 1 2 = Some 0%Z ∧
  sharpen src 3 3 !! offset 3 1 1 3 = Some 255%Z.
Proof.
  intros src.
  assert (H1 : length src = 3 * 3 * 4) by reflexivity.
  assert (H2 : 1 < 3) by lia.
  pose proof (sharpen_saturates src 3 3 1 1 H1 H2 H2) as H.
  assert (Hc : convolve src 3 3 1 1 = (255, 255, -1020)%Z) by reflexivity.
  rewrite Hc in H. destruct H as (Hr & _ & Hb & Ha & _).
  split; [exact H1|]. split; [exact H2|]. split; [exact Hc|].
  split; [exact Hr|]. split; [exact Hb|]. exact Ha.
Defined.

End ImageProcessingFacts.

(** * Further properties of the sources *)

(** ** The extractor on longer texts *)

Module TextFacts.
Import Regex RegexFacts OcrService OcrServiceFacts.

(** Matches do not overlap and each covers at least ten characters. *)
Lemma LeftmostScan_length follow i t ms :
  LeftmostScan follow i t ms → 10 * length ms ≤ length t.
Proof.
  induction 1 as [i|i c t ms _ _ IH|i t pfx sp cap rest ms HS _ IH].
  - done.
  - simpl. lia.
  - pose proof (Shape_length _ _ _ _ _ _ HS) as Hlen.
    apply Shape_split, (f_equal length) in HS. rewrite length_app in HS.
    simpl. lia.
Qed.

Lemma first_seen_length l : length (first_seen l) ≤ length l.
Proof.
  induction l as [|x l IH]; [done|]. cbn [first_seen length].
  pose proof (length_filter (λ y, y ≠ x) (first_seen l)). lia.
Qed.

Lemma omap_length {A B} (f : A → option B) l : length (omap f l) ≤ length l.
Proof.
  induction l as [|x l IH]; [done|]. cbn [omap list_omap].
  destruct (f x); simpl; lia.
Qed.

(** [extractIndianNumbers]: a text of [n] characters yields at most [n / 10]
    numbers; in particular a text of fewer than ten characters yields
    none. *)
Theorem extractIndianNumbers_bound t :
  10 * length (extractIndianNumbers t) ≤ length t ∧
  (length t < 10 → extractIndianNumbers t = []).
Proof.
  assert (H : 10 * length (extractIndianNumbers t) ≤ length t).
  { rewrite extractIndianNumbers_first_seen. unfold normalized_matches.
    pose proof (first_seen_length (omap normalize (matchAll regex t))).
    pose proof (omap_length normalize (matchAll regex t)).
    pose proof (LeftmostScan_length _ _ _ _ (matchAll_leftmost t)). lia. }
  split; [done|]. intros Hl.
  destruct (extractIndianNumbers t); [done|]. simpl in H. lia.
Qed.

Lemma digit_run_not_word cap c :
  digit_run cap → is_word c = false → c ∉ cap.
Proof.
  intros Hrun Hc Hin. apply digit_run_digits in Hrun.
  apply (proj1 (Forall_forall _ _) Hrun), is_digit_word in Hin. congruence.
Qed.

Lemma not_followed_by_app follow post c rest :
  not_followed_by follow post → follow c = false →
  not_followed_by follow (post ++ c :: rest).
Proof.
  intros Hpost Hc d. destruct post as [|e post]; simpl.
  - by intros [= <-].
  - intros [= <-]. by apply Hpost.
Qed.

(** A digit run of [t1 ++ c :: t2] lies in [t1] or in [t2] when [c] is not
    a word character, and it is followed by a token boundary there as
    well. *)
Lemma contains_before_app cap t1 c t2 :
  digit_run cap → is_word c = false →
  contains_before is_word cap (t1 ++ c :: t2) ↔
  contains_before is_word cap t1 ∨ contains_before is_word cap t2.
Proof.
  intros Hrun Hc. pose proof (digit_run_not_word cap c Hrun Hc) as Hnot.
  split.
  - intros (pre & post & E & Hend).
    apply app_eq_inv in E as [(k & -> & E)|(k & -> & E)].
    + symmetry in E. apply app_eq_inv in E as [(k' & -> & E)|(k' & -> & E)].
      * left. exists pre, k'. split; [done|].
        intros d Hd. apply Hend. subst post. by destruct k'.
      * destruct k' as [|d k'].
        -- left. exists pre, []. by rewrite !app_nil_r.
        -- injection E as <- _. destruct Hnot.
           apply elem_of_app. right. by left.
    + destruct k as [|d k].
      * destruct Hrun as (d & ds & -> & _). injection E as -> _.
        destruct Hnot. by left.
      * injection E as <- ->. right. by exists k, post.
  - intros [(pre & post & -> & Hend)|(pre & post & -> & Hend)].
    + exists pre, (post ++ c :: t2). rewrite <-!app_assoc. split; [done|].
      by apply not_followed_by_app.
    + exists (t1 ++ c :: pre), post. by rewrite <-!app_assoc.
Qed.

(** [extractIndianNumbers] works piece by piece: across a character that is
    not a letter, a digit or an underscore (a line break, a comma, a
    space), the numbers of a text are those of the part in front of it
    together with those of the part behind it. *)
Theorem extractIndianNumbers_app t1 c t2 n :
  is_word c = false →
  n ∈ extractIndianNumbers (t1 ++ c :: t2) ↔
  n ∈ extractIndianNumbers t1 ∨ n ∈ extractIndianNumbers t2.
Proof.
  intros Hc. rewrite !elem_of_extractIndianNumbers. split.
  - intros (cap & -> & Hrun & H).
    apply contains_before_app in H as [H|H]; [left|right|done..]; eauto.
  - intros [(cap & -> & Hrun & H)|(cap & -> & Hrun & H)];
      exists cap; (split; [done|]); (split; [done|]);
      apply contains_before_app; auto.
Qed.

Lemma extractIndianNumbers_app_witness :
  let t1 := str "Ravi: 09876543210" in
  let t2 := str "Office +91-8888888888 ext. 12" in
  is_word 10%N = false ∧
  (str "918888888888" ∈ extractIndianNumbers (t1 ++ 10%N :: t2) ↔
   str "918888888888" ∈ extractIndianNumbers t1 ∨
   str "918888888888" ∈ extractIndianNumbers t2).
Proof.
  intros t1 t2.
  assert (H : is_word 10%N = false) by reflexivity.
  split; [exact H|].
  exact (extractIndianNumbers_app t1 10%N t2 (str "918888888888") H).
Defined.

Example lines_extracted_in_order :
  extractIndianNumbers
    (str "Ravi: 09876543210" ++ 10%N :: str "Office +91-8888888888 ext. 12") =
  [str "919876543210"; str "918888888888"].
Proof. by vm_compute. Qed.

End TextFacts.

(** ** A call of [performOCR] *)

Module RecognitionFacts.
Import Async OcrService PerformOCRFacts.




(** [performOCR] resolves exactly when the worker is created, the
    recognition yields a text and the worker terminates; it resolves with
    that text, and then the call leaves no worker alive and writes nothing
    to the console. *)
Theorem performOCR_resolves_iff {S U} (f : Q → S → S) (Tesseract : engine U)
    url w t :
  let after := performOCR Tesseract url (λ p, modify (f p)) w in
  (fst after = Js.Resolved t ↔
   snd (on_create Tesseract) = Js.Resolved tt ∧
   snd (on_recognize Tesseract url) = Js.Resolved (Some t) ∧
   on_terminate Tesseract = Js.Resolved tt) ∧
  (fst after = Js.Resolved t →
   live_workers (snd after) = live_workers w ∧ console (snd after) = console w).
Proof.
  intros after. unfold after. rewrite performOCR_run. unfold ocr_run.
  destruct (snd (on_create Tesseract)) as [[]|e1]; cbn [fst snd].
  2:{ split; [split; [done|by intros [? _]]|done]. }
  destruct (snd (on_recognize Tesseract url)) as [[t'|]|e2]; cbn [fst snd].
  2,3: split; [split; [done|by intros (_ & ? & _)]|done].
  destruct (on_terminate Tesseract) as [[]|e3]; cbn [fst snd live_workers console].
  - split; [|by rewrite app_nil_r].
    split; [by intros [= ->]|by intros (_ & [= ->] & _)].
  - split; [split; [done|by intros (_ & _ & ?)]|done].
Qed.

Lemma foldl_snoc {A} (l : list A) : ∀ acc,
  foldl (λ seen p, seen ++ [p]) acc l = acc ++ l.
Proof.
  induction l as [|x l IH]; intros acc; cbn [foldl].
  - by rewrite app_nil_r.
  - by rewrite IH, <-app_assoc.
Qed.

(** [performOCR] hands to [onProgress] the progress of exactly those
    messages of the engine whose status is ['recognizing text'], in the
    order in which they arrive: those of the creation of the worker, and,
    if the worker has been created, those of the recognition. *)
Theorem performOCR_progress {U} (Tesseract : engine U) url (w : world (list Q)) :
  let seen p := modify (λ calls, calls ++ [p]) in
  let forwarded ms :=
    log_progress <$> filter (λ m, log_status m = str "recognizing text") ms in
  app_state (snd (performOCR Tesseract url seen w)) =
  app_state w ++ forwarded (fst (on_create Tesseract)) ++
  match snd (on_create Tesseract) with
  | Js.Resolved _ => forwarded (fst (on_recognize Tesseract url))
  | Js.Rejected _ => []
  end.
Proof.
  intros seen forwarded. unfold seen.
  rewrite (performOCR_run (λ p calls, calls ++ [p])).
  destruct (ocr_run Tesseract url) as [[settled alive] errors].
  cbn [snd app_state]. by rewrite foldl_snoc.
Qed.

Example progress_of_a_call :
  let Tesseract :=
    Engine ([LogMessage (str "loading tesseract core") 1;
             LogMessage (str "initialized api") 1], Js.Resolved tt)
           (λ _ : unit,
              ([LogMessage (str "recognizing text") 0;
                LogMessage (str "recognizing text") (1 # 2);
                LogMessage (str "recognizing text") 1],
               Js.Resolved (Some (str "9876543210"))))
           (Js.Resolved tt) in
  performOCR Tesseract tt (λ p, modify (λ calls, calls ++ [p])) (World 0 [] []) =
  (Js.Resolved (str "9876543210"), World 0 [] [0; 1 # 2; 1]%Q).
Proof. reflexivity. Qed.

End RecognitionFacts.

(** ** The enhancer on whole images *)

Module EnhancerFacts.
Import ChunkFacts Uint8ClampFacts ImageProcessing ImageProcessingFacts Observations.

(** The first loop leaves three kinds of gray: black, white, and the
    levels from 50 to 128. *)
Lemma gray_level_range r g b :
  let v := gray_level r g b in
  (v = 0 ∨ 50 ≤ v ≤ 128 ∨ v = 255)%Z.
Proof.
  unfold gray_level.
  pose proof (Z.div_mod (r + g + b + 1) 3 ltac:(lia)).
  pose proof (Z.mod_pos_bound (r + g + b + 1) 3 ltac:(lia)).
  case_ltb; lia.
Qed.

Lemma gray_level_fixed v :
  (v = 0 ∨ 50 ≤ v ≤ 128 ∨ v = 255)%Z → gray_level v v v = v.
Proof.
  intros Hv. unfold gray_level.
  pose proof (Z.div_mod (v + v + v + 1) 3 ltac:(lia)).
  pose proof (Z.mod_pos_bound (v + v + v + 1) 3 ltac:(lia)).
  case_ltb; lia.
Qed.

Lemma gray_pixels_idempotent data :
  gray_pixels (gray_pixels data) = gray_pixels data.
Proof.
  assert (H : ∀ n data, length data ≤ n →
                        gray_pixels (gray_pixels data) = gray_pixels data).
  { clear data. induction n as [|n IH]; intros data Hn.
    - destruct data; [done|simpl in Hn; lia].
    - destruct data as [|r [|g [|b [|a data]]]]; try done.
      cbn [gray_pixels]. rewrite gray_level_fixed by apply gray_level_range.
      rewrite IH; [done|]. simpl in Hn. lia. }
  by apply (H (length data)).
Qed.

Lemma gray_pixels_bytes data :
  Forall is_byte data → Forall is_byte (gray_pixels data).
Proof.
  assert (H : ∀ n data, length data ≤ n → Forall is_byte data →
                        Forall is_byte (gray_pixels data)).
  { clear data. induction n as [|n IH]; intros data Hn Hb.
    - destruct data; [done|simpl in Hn; lia].
    - destruct data as [|r [|g [|b [|a data]]]]; try done.
      cbn [gray_pixels].
      apply Forall_cons in Hb as [_ Hb]. apply Forall_cons in Hb as [_ Hb].
      apply Forall_cons in Hb as [_ Hb]. apply Forall_cons in Hb as [Ha Hb].
      repeat (apply Forall_cons; split; [apply gray_level_byte|]).
      apply Forall_cons. split; [done|]. apply IH; [simpl in Hn; lia|done]. }
  by apply (H (length data)).
Qed.

(** The first loop of [preprocessImage] is idempotent: run on its own
    output it changes nothing, since every gray level that it produces (0,
    255, or a level from 50 to 128) is mapped to itself. *)
Theorem grayscale_contrast_idempotent data n :
  length data = 4 * n → Forall is_byte data →
  grayscale_contrast (grayscale_contrast data) = grayscale_contrast data.
Proof.
  intros Hl Hb. rewrite (grayscale_contrast_pixels data n Hl Hb).
  rewrite (grayscale_contrast_pixels (gray_pixels data) n).
  - apply gray_pixels_idempotent.
  - by rewrite gray_pixels_length.
  - by apply gray_pixels_bytes.
Qed.

Lemma grayscale_contrast_idempotent_witness :
  let data := [12; 200; 90; 255; 100; 100; 101; 7; 255; 130; 0; 255]%Z in
  length data = 4 * 3 ∧ Forall is_byte data ∧
  grayscale_contrast data =
    [101; 101; 101; 255; 100; 100; 100; 7; 255; 255; 255; 255]%Z ∧
  grayscale_contrast (grayscale_contrast data) = grayscale_contrast data.
Proof.
  intros data.
  assert (H1 : length data = 4 * 3) by reflexivity.
  assert (H2 : Forall is_byte data).
  { unfold data, is_byte. repeat (apply Forall_cons; split; [lia|]).
    apply Forall_nil. exact I. }
  split; [exact H1|]. split; [exact H2|]. split; [reflexivity|].
  exact (grayscale_contrast_idempotent data 3 H1 H2).
Defined.

(** *** The output of the enhancer *)

(** The kernel reads the channels of one pixel of [src]. *)
Lemma kernel_offset w h (scx scy : Z) :
  (0 ≤ scy < Z.of_nat h)%Z → (0 ≤ scx < Z.of_nat w)%Z →
  ∃ p, p < w * h ∧ Z.to_nat ((scy * Z.of_nat w + scx) * 4) = p * 4.
Proof.
  intros Hy Hx. exists (Z.to_nat (scy * Z.of_nat w + scx)). split; [nia|].
  rewrite Z2Nat.inj_mul by nia. done.
Qed.

Lemma kernel_step_gray src w h x y cy cx s :
  (∀ p, p < w * h → get src (p * 4 + 1) = get src (p * 4) ∧
                    get src (p * 4 + 2) = get src (p * 4)) →
  ∃ s', kernel_step src w h x y cy cx (s, s, s) = (s', s', s').
Proof.
  intros Hgray. unfold kernel_step.
  destruct (Z.leb_spec 0 (Z.of_nat y + Z.of_nat cy - halfSide)); [|by exists s].
  destruct (Z.ltb_spec (Z.of_nat y + Z.of_nat cy - halfSide) (Z.of_nat h));
    [|by exists s].
  destruct (Z.leb_spec 0 (Z.of_nat x + Z.of_nat cx - halfSide)); [|by exists s].
  destruct (Z.ltb_spec (Z.of_nat x + Z.of_nat cx - halfSide) (Z.of_nat w));
    [|by exists s].
  cbn [andb].
  destruct (kernel_offset w h (Z.of_nat x + Z.of_nat cx - halfSide)
              (Z.of_nat y + Z.of_nat cy - halfSide)) as (p & Hp & ->); [lia..|].
  destruct (Hgray p Hp) as [-> ->]. eauto.
Qed.

Lemma convolve_gray src w h x y :
  (∀ p, p < w * h → get src (p * 4 + 1) = get src (p * 4) ∧
                    get src (p * 4 + 2) = get src (p * 4)) →
  ∃ s, convolve src w h x y = (s, s, s).
Proof.
  intros Hgray. unfold convolve, side. cbn [seq foldl].
  repeat match goal with
         | |- context [kernel_step src w h x y ?cy ?cx (?s, ?s, ?s)] =>
             let s' := fresh "s" in
             destruct (kernel_step_gray src w h x y cy cx s Hgray) as [s' ->]
         end.
  eauto.
Qed.

Lemma gray_pixels_gray data n p :
  length data = 4 * n → p < n →
  get (gray_pixels data) (p * 4 + 1) = get (gray_pixels data) (p * 4) ∧
  get (gray_pixels data) (p * 4 + 2) = get (gray_pixels data) (p * 4).
Proof.
  intros Hl Hp.
  destruct (gray_pixels_lookup p data ltac:(lia)) as (H0 & H1 & H2 & _).
  unfold get.
  by rewrite (list_lookup_total_correct _ _ _ H0),
    (list_lookup_total_correct _ _ _ H1), (list_lookup_total_correct _ _ _ H2).
Qed.

Lemma clamp_is_byte s : is_byte (clamp s).
Proof. unfold is_byte, clamp. case_ltb; lia. Qed.

(** [preprocessImage] always encodes an opaque gray image of the size of
    its input: for every pixel the three colour channels of the output are
    one and the same byte, and alpha is 255, whatever the colours and the
    transparency of the input. *)
Theorem img_onload_opaque_gray w h data x y :
  length data = w * h * 4 → Forall is_byte data → x < w → y < h →
  length (img_onload w h data) = w * h * 4 ∧
  ∃ v, is_byte v ∧
       img_onload w h data !! offset w x y 0 = Some v ∧
       img_onload w h data !! offset w x y 1 = Some v ∧
       img_onload w h data !! offset w x y 2 = Some v ∧
       img_onload w h data !! offset w x y 3 = Some 255%Z.
Proof.
  intros Hl Hb Hx Hy. unfold img_onload. split.
  - rewrite sharpen_render. apply render_length. intros. apply pixel_out_length.
  - rewrite (grayscale_contrast_pixels data (w * h)) by (done || lia).
    rewrite !sharpen_lookup by lia. unfold pixel_out.
    destruct (convolve_gray (gray_pixels data) w h x y) as [s ->].
    { intros p Hp. apply (gray_pixels_gray data (w * h)); [lia|done]. }
    exists (clamp s). split; [apply clamp_is_byte|done].
Qed.

Lemma img_onload_opaque_gray_witness :
  let data := [250; 10; 10; 0; 10; 250; 10; 128]%Z in
  length data = 2 * 1 * 4 ∧ Forall is_byte data ∧
  img_onload 2 1 data = [255; 255; 255; 255; 255; 255; 255; 255]%Z ∧
  ∃ v, is_byte v ∧
       img_onload 2 1 data !! offset 2 1 0 0 = Some v ∧
       img_onload 2 1 data !! offset 2 1 0 1 = Some v ∧
       img_onload 2 1 data !! offset 2 1 0 2 = Some v ∧
       img_onload 2 1 data !! offset 2 1 0 3 = Some 255%Z.
Proof.
  intros data.
  assert (H1 : length data = 2 * 1 * 4) by reflexivity.
  assert (H2 : Forall is_byte data).
  { unfold data, is_byte. repeat (apply Forall_cons; split; [lia|]).
    apply Forall_nil. exact I. }
  split; [exact H1|]. split; [exact H2|]. split; [reflexivity|].
  exact (proj2 (img_onload_opaque_gray 2 1 data 1 0 H1 H2 ltac:(lia) ltac:(lia))).
Defined.

End EnhancerFacts.

(** ** [sharpen] at the border of the image *)

Module BorderFacts.
Import ChunkFacts Uint8ClampFacts ImageProcessing ImageProcessingFacts Observations.





Example single_pixel_image :
  img_onload 1 1 [60; 60; 60; 255]%Z = [255; 255; 255; 255]%Z ∧
  img_onload 1 1 [50; 50; 50; 255]%Z = [250; 250; 250; 255]%Z.
Proof. split; reflexivity. Qed.

End BorderFacts.

(** ** A whole run of [handleFileUpload] *)

Module BatchFacts.
Import Async OcrService ImageProcessing App AppFacts Observations.

Lemma ocr_run_alive u url :
  preprocessImage_settles (decoded u) = Js.Resolved url →
  snd (fst (ocr_run (ocr_engine u) url)) = worker_left u.
Proof.
  intros H. unfold worker_left, ocr_run. rewrite H.
  destruct (snd (on_create (ocr_engine u))) as [[]|e1]; [|done].
  destruct (snd (on_recognize (ocr_engine u) url)) as [[t|]|e2]; [|done..].
  by destruct (on_terminate (ocr_engine u)) as [[]|e3].
Qed.

(** One round of the loop: it does not throw, it makes the calls of
    [process], and it leaves [worker_left] workers alive. *)
Lemma process_file_world u w :
  ∃ errors,
    process_file u (random_id u) w =
    (Js.Resolved tt,
     World (worker_left u + live_workers w) errors
           (foldl (λ c g, set_results g c) (app_state w) (process u))).
Proof.
  unfold process_file, process, steps, try_catch, bind at 1, setResults.
  unfold modify at 1. cbn [live_workers console app_state fmap list_fmap foldl].
  unfold preprocessImage.
  destruct (preprocessImage_settles (decoded u)) as [url|e] eqn:E;
    cbn [settle]; unfold bind at 1, ret, throw.
  2:{ unfold worker_left. rewrite E. unfold modify. cbn. eauto. }
  unfold bind.
  rewrite (PerformOCRFacts.performOCR_run
             (λ p, set_results (update (random_id u) (set_progress p)))).
  rewrite <-(ocr_run_alive u url E).
  destruct (ocr_run (ocr_engine u) url) as [[[t|e] alive] errors];
    cbn [fst snd live_workers console app_state]; unfold modify;
    cbn [live_workers console app_state];
    rewrite fmap_app, foldl_app, <-list_fmap_compose;
    rewrite !(foldl_fmap (λ c g, set_results g c));
    cbn [fmap list_fmap foldl compose]; eauto.
Qed.

Lemma for_each_files_world (files : list upload) n : ∀ k w,
  k + n = length files →
  ∃ errors,
    for_each (seq k n)
      (λ i, process_file (files !!! i)
              (id ((initialResult <$> files) !!! i))) w =
    (Js.Resolved tt,
     World (sum_list (worker_left <$> drop k files) + live_workers w) errors
           (foldl (λ c g, set_results g c) (app_state w) (drop k files ≫= process))).
Proof.
  induction n as [|n IH]; intros k w Hk.
  - rewrite drop_ge by lia. destruct w. cbn. eauto.
  - cbn [seq for_each].
    destruct (lookup_lt_is_Some_2 files k ltac:(lia)) as [u Hu].
    rewrite (list_lookup_total_correct _ _ _ Hu).
    rewrite (list_lookup_total_correct (initialResult <$> files) k
               (initialResult u)) by (by rewrite list_lookup_fmap, Hu).
    change (id (initialResult u)) with (random_id u).
    destruct (process_file_world u w) as (errors & Hrun).
    unfold bind. rewrite Hrun.
    destruct (IH (S k) (World (worker_left u + live_workers w) errors
                (foldl (λ c g, set_results g c) (app_state w) (process u)))
                ltac:(lia)) as (errors' & Hloop).
    rewrite Hloop. exists errors'. cbn [app_state live_workers].
    rewrite (drop_S _ _ _ Hu), bind_cons, foldl_app, fmap_cons.
    cbn [sum_list sum_list_with]. unfold Datatypes.id.
    by match goal with
       | |- (_, World ?a _ _) = (_, World ?b _ _) => replace a with b by lia
       end.
Qed.

(** The run as a whole, from any state of the component. *)
Lemma handleFileUpload_run selected w :
  take MAX_FILES selected ≠ [] →
  ∃ errors,
    handleFileUpload selected w =
    (Js.Resolved tt,
     World (sum_list (worker_left <$> take MAX_FILES selected) + live_workers w)
           errors
           (Component
              (run (results (app_state w)) (setters selected)) false
              (rendered (app_state w) ++
               states (results (app_state w)) (setters selected)))).
Proof.
  intros Hne. unfold handleFileUpload, setters.
  destruct (take MAX_FILES selected) as [|u files] eqn:E; [done|].
  rewrite decide_False by done. rewrite <-E. clear E Hne.
  set (files' := take MAX_FILES selected).
  unfold bind at 1, setIsProcessing at 1, modify at 1.
  unfold bind at 1, setResults, modify at 1.
  cbn [live_workers console app_state results isProcessing rendered set_results].
  unfold bind.
  edestruct (for_each_files_world files' (length files') 0) as (errors & Hloop);
    [done|].
  rewrite Hloop. unfold setIsProcessing, modify.
  cbn [snd app_state rendered live_workers console].
  rewrite drop_0, foldl_set_results. exists errors.
  cbn [results isProcessing rendered states]. unfold run, set_results.
  cbn [foldl results rendered]. by rewrite <-app_assoc.
Qed.

Lemma handleFileUpload_none selected w :
  take MAX_FILES selected = [] → handleFileUpload selected w = (Js.Resolved tt, w).
Proof. intros E. unfold handleFileUpload. rewrite E. done. Qed.

Lemma take_MAX_FILES_nil (selected : list upload) :
  take MAX_FILES selected = [] ↔ selected = [].
Proof. by destruct selected. Qed.

Lemma run_setters selected prev :
  take MAX_FILES selected ≠ [] →
  NoDup (random_id <$> take MAX_FILES selected) →
  run prev (setters selected) = final_result <$> take MAX_FILES selected.
Proof.
  intros Hne Hnd.
  destruct (setters_states selected prev Hnd) as [_ Hlast].
  specialize (Hlast Hne). rewrite last_states in Hlast; [by injection Hlast|].
  unfold setters. by destruct (take MAX_FILES selected).
Qed.

(** [handleFileUpload] never rejects.  An empty selection changes nothing:
    the results of the batch before stay.  Otherwise the results are
    replaced by one job for each of the first [MAX_FILES] files, and when
    the handler returns, [isProcessing] is false again and every job is
    completed or failed: none is left waiting or in processing, whatever
    fails on the way.  The ids that are drawn are taken to be distinct. *)
Theorem handleFileUpload_completes selected w :
  NoDup (random_id <$> take MAX_FILES selected) →
  let after := handleFileUpload selected w in
  fst after = Js.Resolved tt ∧
  (selected = [] → snd after = w) ∧
  (selected ≠ [] →
   isProcessing (app_state (snd after)) = false ∧
   length (results (app_state (snd after))) = length selected `min` MAX_FILES ∧
   Forall (λ r, terminal (status r)) (results (app_state (snd after)))).
Proof.
  intros Hnd after. unfold after.
  destruct (decide (selected = [])) as [->|Hne].
  - by rewrite handleFileUpload_none.
  - assert (Hne' : take MAX_FILES selected ≠ []) by by rewrite take_MAX_FILES_nil.
    destruct (handleFileUpload_run selected w Hne') as (errors & ->).
    cbn [fst snd app_state results isProcessing].
    split; [done|]. split; [done|]. intros _.
    rewrite run_setters by done. split; [done|]. split.
    + rewrite length_fmap, length_take. lia.
    + apply Forall_fmap, Forall_forall. intros u _. apply final_result_terminal.
Qed.

Lemma handleFileUpload_completes_witness :
  let eng := Engine ([], Js.Resolved tt) (λ _, ([], Js.Rejected Js.EventObject))
                    (Js.Resolved tt) in
  let selected :=
    [Upload (str "a.png") (str "id1") (str "blob:1") NoContext eng;
     Upload (str "b.png") (str "id2") (str "blob:2") (Loaded 1 1 [0; 0; 0; 255]%Z) eng] in
  let old := [Result (str "id0") (str "old.png") Status.completed 100 (Some [])
                     [] None (str "blob:0")] in
  let w := World 0 [] (Component old false []) in
  NoDup (random_id <$> take MAX_FILES selected) ∧
  fst (handleFileUpload selected w) = Js.Resolved tt ∧
  status <$> results (app_state (snd (handleFileUpload selected w))) =
    [Status.error; Status.error] ∧
  Forall (λ r, terminal (status r))
         (results (app_state (snd (handleFileUpload selected w)))).
Proof.
  intros eng selected old w.
  assert (H1 : NoDup (random_id <$> take MAX_FILES selected)).
  { apply (bool_decide_unpack _). vm_compute. exact I. }
  pose proof (handleFileUpload_completes selected w H1) as (Hres & _ & Hrest).
  destruct (Hrest ltac:(discriminate)) as (_ & _ & Hterm).
  split; [exact H1|]. split; [exact Hres|]. split; [reflexivity|]. exact Hterm.
Defined.

(** The workers that a batch leaves behind: [handleFileUpload] ends with
    one more worker alive for every file whose worker was created and whose
    recognition then failed (or whose worker did not terminate), since
    [performOCR] terminates its worker on success only. *)
Theorem handleFileUpload_workers selected w :
  live_workers (snd (handleFileUpload selected w)) =
  live_workers w + sum_list (worker_left <$> take MAX_FILES selected).
Proof.
  destruct (decide (take MAX_FILES selected = [])) as [E|Hne].
  - rewrite handleFileUpload_none by done. rewrite E. cbn. lia.
  - destruct (handleFileUpload_run selected w Hne) as (errors & ->).
    cbn [snd live_workers]. lia.
Qed.

Example workers_after_a_batch :
  let failing := Engine ([], Js.Resolved tt) (λ _, ([], Js.Rejected Js.EventObject))
                        (Js.Resolved tt) in
  let working := Engine ([], Js.Resolved tt) (λ _, ([], Js.Resolved (Some [])))
                        (Js.Resolved tt) in
  let img := Loaded 1 1 [0; 0; 0; 255]%Z in
  let selected :=
    [Upload (str "a.png") (str "id1") (str "blob:1") img failing;
     Upload (str "b.png") (str "id2") (str "blob:2") img working;
     Upload (str "c.png") (str "id3") (str "blob:3") img failing;
     Upload (str "d.png") (str "id4") (str "blob:4") NoContext failing] in
  live_workers (snd (handleFileUpload selected (boot []))) = 2.
Proof. by vm_compute. Qed.

(** *** The record of one job after the run *)

Lemma results_after selected w i u :
  NoDup (random_id <$> take MAX_FILES selected) →
  take MAX_FILES selected !! i = Some u →
  results (app_state (snd (handleFileUpload selected w))) !! i =
    Some (final_result u).
Proof.
  intros Hnd Hu.
  assert (Hne : take MAX_FILES selected ≠ []) by (intros E; by rewrite E in Hu).
  destruct (handleFileUpload_run selected w Hne) as (errors & ->).
  cbn [snd app_state results]. rewrite run_setters by done.
  by rewrite list_lookup_fmap, Hu.
Qed.



(** A file that is decoded, enhanced and recognized ends as a completed
    job: the engine is given the enhanced image (not the file), and the
    job holds the recognized text, the numbers that [extractIndianNumbers]
    finds in it, the progress 100 and no error, whatever the other files of
    the batch do. *)
Theorem handleFileUpload_completed_job selected w i u wd ht data logs1 logs2 t :
  NoDup (random_id <$> take MAX_FILES selected) →
  take MAX_FILES selected !! i = Some u →
  decoded u = Loaded wd ht data →
  on_create (ocr_engine u) = (logs1, Js.Resolved tt) →
  on_recognize (ocr_engine u) (DataUrl wd ht (img_onload wd ht data)) =
    (logs2, Js.Resolved (Some t)) →
  on_terminate (ocr_engine u) = Js.Resolved tt →
  results (app_state (snd (handleFileUpload selected w))) !! i =
    Some (Result (random_id u) (file_name u) Status.completed 100 (Some t)
                 (extractIndianNumbers t) None (object_url u)).
Proof.
  intros Hnd Hu Hdec Hcreate Hrec Hterm.
  rewrite (results_after selected w i u Hnd Hu). f_equal.
  apply (final_result_completed u (DataUrl wd ht (img_onload wd ht data)) t 0 []).
  - by rewrite Hdec.
  - unfold ocr_run. by rewrite Hcreate, Hrec, Hterm.
Qed.

Lemma handleFileUpload_completed_job_witness :
  let eng t := Engine ([], Js.Resolved tt)
                      (λ url,
                         if decide (url_pixels url = [255; 255; 255; 255]%Z)
                         then ([], Js.Resolved (Some t))
                         else ([], Js.Rejected Js.EventObject))
                      (Js.Resolved tt) in
  let u := Upload (str "b.png") (str "id2") (str "blob:2")
                  (Loaded 1 1 [200; 200; 200; 255]%Z)
                  (eng (str "call 9876543210")) in
  let selected :=
    [Upload (str "a.png") (str "id1") (str "blob:1") ImageError (eng []); u] in
  NoDup (random_id <$> take MAX_FILES selected) ∧
  results (app_state (snd (handleFileUpload selected (boot [])))) !! 1 =
    Some (Result (str "id2") (str "b.png") Status.completed 100
                 (Some (str "call 9876543210")) [str "919876543210"] None
                 (str "blob:2")).
Proof.
  intros eng u selected.
  assert (H1 : NoDup (random_id <$> take MAX_FILES selected)).
  { apply (bool_decide_unpack _). vm_compute. exact I. }
  split; [exact H1|].
  exact (handleFileUpload_completed_job selected (boot []) 1 u 1 1
           [200; 200; 200; 255]%Z [] [] (str "call 9876543210")
           H1 eq_refl eq_refl eq_refl eq_refl eq_refl).
Defined.



(** *** The progress that is shown *)

Lemma Math_round_percent p :
  (0 <= p <= 1)%Q → (0 ≤ Js.Math_round (p * 100) ≤ 100)%Z.
Proof.
  intros [H0 H1]. unfold Js.Math_round. split.
  - apply Z.le_trans with (Qfloor (1 # 2)); [done|]. apply Qfloor_resp_le. lra.
  - apply Z.le_trans with (Qfloor (100 + (1 # 2))); [|done].
    apply Qfloor_resp_le. lra.
Qed.

Lemma states_Forall (P : ProcessingResult → Prop) (calls : list setter) : ∀ s,
  Forall (λ g : setter, ∀ s, Forall P s → Forall P (g s)) calls →
  Forall P s → Forall (Forall P) (states s calls).
Proof.
  induction calls as [|g calls IH]; intros s Hcalls Hs; [constructor|].
  apply Forall_cons in Hcalls as [Hg Hcalls]. cbn [states].
  constructor; [by apply Hg|]. apply IH; [done|by apply Hg].
Qed.

Lemma update_Forall (P : ProcessingResult → Prop) rid f s :
  (∀ r, P r → P (f r)) → Forall P s → Forall P (update rid f s).
Proof.
  intros Hf Hs. unfold update. apply Forall_fmap.
  eapply Forall_impl; [exact Hs|]. intros r Hr. cbn.
  case_decide; [by apply Hf|done].
Qed.

Lemma elem_of_recognizing p ms :
  p ∈ recognizing ms → ∃ m, m ∈ ms ∧ log_progress m = p.
Proof.
  unfold recognizing. intros (m & -> & Hm)%list_elem_of_fmap.
  apply list_elem_of_filter in Hm as [_ Hm]. eauto.
Qed.

Lemma elem_of_ocr_progress {U} (Tesseract : engine U) url p :
  p ∈ ocr_progress Tesseract url →
  ∃ m, m ∈ fst (on_create Tesseract) ++ fst (on_recognize Tesseract url) ∧
       log_progress m = p.
Proof.
  unfold ocr_progress. intros [H|H]%elem_of_app.
  - apply elem_of_recognizing in H as (m & Hm & <-).
    exists m. split; [|done]. apply elem_of_app. by left.
  - destruct (snd (on_create Tesseract)); [|by apply elem_of_nil in H].
    apply elem_of_recognizing in H as (m & Hm & <-).
    exists m. split; [|done]. apply elem_of_app. by right.
Qed.

(** The progress of every job, in every state that the component passes
    through during [handleFileUpload], is an integer from 0 to 100,
    provided that the engine reports progress as a fraction from 0 to 1, as
    Tesseract does. *)
Theorem handleFileUpload_progress_range selected prev s r :
  (∀ u url m,
     u ∈ selected →
     m ∈ fst (on_create (ocr_engine u)) ++ fst (on_recognize (ocr_engine u) url) →
     (0 <= log_progress m <= 1)%Q) →
  s ∈ trace selected prev → r ∈ s → (0 ≤ progress r ≤ 100)%Z.
Proof.
  intros Henv Hs Hr. rewrite handleFileUpload_trace in Hs. unfold setters in Hs.
  set (P := λ r : ProcessingResult, (0 ≤ progress r ≤ 100)%Z).
  assert (Hfiles : ∀ u, u ∈ take MAX_FILES selected → u ∈ selected).
  { intros u (i & Hi)%list_elem_of_lookup. apply lookup_take_Some in Hi as [Hi _].
    by eapply list_elem_of_lookup_2. }
  destruct (take MAX_FILES selected) as [|u0 files] eqn:E;
    [by apply elem_of_nil in Hs|].
  rewrite <-E in *. clear E. cbn [states] in Hs.
  assert (Hinit : Forall P (initialResult <$> take MAX_FILES selected)).
  { apply Forall_fmap, Forall_forall. intros u _. unfold P. cbn. lia. }
  assert (Hall : Forall (Forall P)
                   (states (initialResult <$> take MAX_FILES selected)
                           (take MAX_FILES selected ≫= process))).
  { apply states_Forall; [|done]. apply Forall_bind, Forall_forall.
    intros u Hu%Hfiles. unfold process. apply Forall_fmap, Forall_forall.
    intros f Hf s' Hs'. cbn. apply update_Forall; [|done].
    intros r' Hr'. unfold steps in Hf.
    apply elem_of_cons in Hf as [->|Hf]; [done|].
    destruct (preprocessImage_settles (decoded u)) as [url|e].
    - apply elem_of_app in Hf as [Hf|Hf].
      + apply list_elem_of_fmap in Hf as (p & -> & Hp).
        apply elem_of_ocr_progress in Hp as (m & Hm & <-).
        unfold P. cbn. apply Math_round_percent. by apply (Henv u url).
      + destruct (fst (fst (ocr_run (ocr_engine u) url)));
          apply list_elem_of_singleton in Hf as ->; unfold P; cbn; [lia|done].
    - by apply list_elem_of_singleton in Hf as ->. }
  apply elem_of_cons in Hs as [->|Hs].
  - by apply (proj1 (Forall_forall _ _) Hinit).
  - apply (proj1 (Forall_forall _ _) Hall) in Hs.
    by apply (proj1 (Forall_forall _ _) Hs).
Qed.

Lemma handleFileUpload_progress_range_witness :
  let eng :=
    Engine ([LogMessage (str "loading tesseract core") 1], Js.Resolved tt)
           (λ _, ([LogMessage (str "recognizing text") (1 # 3);
                   LogMessage (str "recognizing text") 1],
                  Js.Resolved (Some (str "9876543210"))))
           (Js.Resolved tt) in
  let u := Upload (str "a.png") (str "id1") (str "blob:1")
                  (Loaded 1 1 [0; 0; 0; 255]%Z) eng in
  let r := Result (str "id1") (str "a.png") Status.processing 33 None [] None
                  (str "blob:1") in
  [r] ∈ trace [u] [] ∧ (0 ≤ progress r ≤ 100)%Z.
Proof.
  intros eng u r.
  assert (Hs : [r] ∈ trace [u] []).
  { apply (list_elem_of_lookup_2 _ 2). reflexivity. }
  split; [exact Hs|].
  refine (handleFileUpload_progress_range [u] [] [r] r _ Hs _).
  - intros u' url m Hu Hm. apply list_elem_of_singleton in Hu. subst u'.
    cbn in Hm. rewrite !elem_of_cons in Hm.
    destruct Hm as [->|[->|[->|Hm]]];
      [split; discriminate..|by apply elem_of_nil in Hm].
  - left.
Defined.

End BatchFacts.

(** ** Numbers as strings *)

Module ToStringFacts.
Import Regex ToString.

Lemma digits_digit u : Forall (λ c, is_digit c = true) (digits u).
Proof. induction u; cbn [digits]; by constructor. Qed.

Lemma Number_toString_digit n :
  Forall (λ c, is_digit c = true) (Number_toString n).
Proof. apply digits_digit. Qed.

Lemma Number_toString_no c n : is_digit c = false → c ∉ Number_toString n.
Proof.
  intros Hc Hin.
  apply (proj1 (Forall_forall _ _) (Number_toString_digit n)) in Hin.
  congruence.
Qed.

End ToStringFacts.

(** ** The name of the download of a row *)

Module StringReplaceFacts.
Import StringReplace Handlers.

(** [[^/.]+$]: the rest of the input, if it is not empty and has no slash
    and no dot. *)
Lemma plus_end p s : ∀ rest,
  plus p s (λ s', pmatch EndOfInput s' Some) = Some rest ↔
  rest = [] ∧ s ≠ [] ∧ Forall (λ c, p c = true) s.
Proof.
  induction s as [|c s IH]; intros rest; cbn [plus].
  - split; [done|]. by intros (_ & ? & _).
  - destruct (p c) eqn:Hc.
    2:{ split; [done|]. intros (_ & _ & Hs).
        apply Forall_cons in Hs as [Hs _]. congruence. }
    destruct (plus p s (λ s', pmatch EndOfInput s' Some)) as [res|] eqn:E.
    + destruct (proj1 (IH res) eq_refl) as (-> & Hne & Hs). split.
      * intros [= <-]. split; [done|]. split; [done|]. by constructor.
      * by intros (-> & _ & _).
    + split.
      * destruct s as [|d s]; [|done]. cbn [pmatch]. intros [= <-].
        split; [done|]. split; [done|]. by repeat constructor.
      * intros (-> & _ & Hs). apply Forall_cons in Hs as [_ Hs].
        destruct s as [|d s]; [done|].
        assert (Hne : d :: s ≠ []) by done.
        by destruct (proj2 (IH []) (conj eq_refl (conj Hne Hs))).
Qed.

(** Where [extension] matches: at a dot that is followed, up to the end of
    the input, by at least one character, none of them a slash or a dot. *)
Lemma pmatch_extension t rest :
  pmatch extension t Some = Some rest ↔
  rest = [] ∧ ∃ ext, t = str "." ++ ext ∧ ext ≠ [] ∧
                     Forall (λ c, c ∉ str "./") ext.
Proof.
  assert (Hclass : ∀ ext, Forall (λ c, not_slash_or_dot c = true) ext ↔
                          Forall (λ c, c ∉ str "./") ext).
  { intros ext. apply Forall_proper; [|done]. intros c.
    unfold not_slash_or_dot. cbn [str map list_ascii_of_string].
    rewrite !not_elem_of_cons, negb_true_iff, orb_false_iff, !N.eqb_neq.
    cbn. pose proof (not_elem_of_nil c). tauto. }
  unfold extension. cbn [pmatch]. destruct t as [|c t].
  - split; [done|]. by intros (_ & ext & ? & _).
  - destruct (N.eqb_spec 46 c) as [<-|Hc].
    + change (pmatch (Plus not_slash_or_dot) t
                (λ s', pmatch EndOfInput s' Some) = Some rest ↔
              rest = [] ∧ ∃ ext, 46%N :: t = str "." ++ ext ∧ ext ≠ [] ∧
                                 Forall (λ c, c ∉ str "./") ext).
      cbn [pmatch]. rewrite plus_end, Hclass. split.
      * intros (-> & Hne & Hs). split; [done|]. by exists t.
      * intros (-> & ext & [= ->] & Hne & Hs). done.
    + split; [done|]. intros (_ & ext & [= ?] & _). done.
Qed.

Lemma replace_extension_here stem ext :
  ext ≠ [] → Forall (λ c, c ∉ str "./") ext →
  replace extension [] (stem ++ str "." ++ ext) = stem.
Proof.
  intros Hne Hext. induction stem as [|c stem IH].
  - assert (H : pmatch extension (str "." ++ ext) Some = Some []).
    { apply pmatch_extension. split; [done|]. by exists ext. }
    change (str "." ++ ext) with (46%N :: ext) in *.
    cbn [app replace]. by rewrite H.
  - change (str "." ++ ext) with (46%N :: ext) in *. cbn [app replace].
    destruct (pmatch extension (c :: stem ++ 46%N :: ext) Some) as [rest|] eqn:E.
    + apply pmatch_extension in E as (_ & ext' & [= -> E] & _ & Hext').
      rewrite <-E in Hext'. apply Forall_app in Hext' as [_ Hext'].
      apply Forall_cons in Hext' as [Hdot _]. destruct Hdot. by left.
    + by rewrite IH.
Qed.

Lemma replace_extension_none t :
  (∀ stem ext, t = stem ++ str "." ++ ext → ext ≠ [] →
               ¬ Forall (λ c, c ∉ str "./") ext) →
  replace extension [] t = t.
Proof.
  induction t as [|c t IH]; intros Hno.
  - cbn [replace].
    destruct (pmatch extension [] Some) as [rest|] eqn:E; [|done].
    by apply pmatch_extension in E as (_ & ext & ? & _).
  - cbn [replace].
    destruct (pmatch extension (c :: t) Some) as [rest|] eqn:E.
    + apply pmatch_extension in E as (_ & ext & E & Hne & Hext).
      destruct (Hno [] ext E Hne Hext).
    + f_equal. apply IH. intros stem ext -> Hne.
      by apply (Hno (c :: stem) ext).
Qed.

Lemma csv_name_not_empty fileName : csv_name fileName ≠ [].
Proof. unfold csv_name. by destruct (replace extension [] fileName). Qed.

(** The name under which the numbers of a row are downloaded,
    [fileName.replace(/\.[^/.]+$/, '') + '.csv']: if the file name ends in
    a dot followed by at least one character, none of them a dot or a
    slash, this extension is replaced by [.csv] (only the last one:
    [scan.v2.png] gives [scan.v2.csv], and [.png] gives [.csv]); every
    other name is kept as it is and [.csv] is appended ([README] gives
    [README.csv], [notes.] gives [notes..csv]).  The name is never
    empty. *)
Theorem csv_name_extension fileName :
  (∀ stem ext,
     fileName = stem ++ str "." ++ ext → ext ≠ [] →
     Forall (λ c, c ∉ str "./") ext →
     csv_name fileName = stem ++ str ".csv") ∧
  ((∀ stem ext,
      fileName = stem ++ str "." ++ ext → ext ≠ [] →
      ¬ Forall (λ c, c ∉ str "./") ext) →
   csv_name fileName = fileName ++ str ".csv") ∧
  csv_name fileName ≠ [].
Proof.
  unfold csv_name. split; [|split].
  - intros stem ext -> Hne Hext. by rewrite replace_extension_here.
  - intros Hno. by rewrite replace_extension_none.
  - by destruct (replace extension [] fileName).
Qed.

Lemma csv_name_extension_witness :
  csv_name (str "scan.v2.png") = str "scan.v2" ++ str ".csv" ∧
  csv_name (str "README") = str "README" ++ str ".csv".
Proof.
  split.
  - refine (proj1 (csv_name_extension (str "scan.v2.png"))
              (str "scan.v2") (str "png") eq_refl _ _).
    + intros H. discriminate H.
    + apply (bool_decide_unpack _). vm_compute. exact I.
  - refine (proj1 (proj2 (csv_name_extension (str "README"))) _).
    intros stem ext E _. exfalso.
    assert (H : 46%N ∈ str "README").
    { rewrite E. change (str ".") with [46%N].
      apply elem_of_app. right. apply elem_of_app. left. left. }
    revert H. apply (bool_decide_unpack _). vm_compute. exact I.
Defined.

Example csv_names :
  csv_name (str ".png") = str ".csv" ∧
  csv_name (str "notes.") = str "notes..csv" ∧
  csv_name (str "a.b/c") = str "a.b/c.csv" ∧
  csv_name (str "archive.tar.gz") = str "archive.tar.csv" ∧
  csv_name [] = str ".csv".
Proof. repeat split; by vm_compute. Qed.

End StringReplaceFacts.

(** ** The downloads, the history and the clearing of the queue *)

Module HandlersFacts.
Import Regex OcrService OcrServiceFacts ToString ToStringFacts Handlers
       StringReplaceFacts.

(** *** The content of a CSV file *)

Lemma split_at_LF (a a' J J' : list N) :
  10%N ∉ a → 10%N ∉ a' → a ++ LF ++ J = a' ++ LF ++ J' → a = a' ∧ J = J'.
Proof.
  unfold LF. revert a'. induction a as [|x a IH]; intros [|x' a'] Ha Ha' E.
  - by injection E.
  - injection E as <- _. destruct Ha'. by left.
  - injection E as -> _. destruct Ha. by left.
  - injection E as -> E. apply not_elem_of_cons in Ha as [_ Ha].
    apply not_elem_of_cons in Ha' as [_ Ha'].
    by destruct (IH a' Ha Ha' E) as [-> ->].
Qed.

Lemma join_LF_cons x l : l ≠ [] → join LF (x :: l) = x ++ LF ++ join LF l.
Proof. by destruct l. Qed.

Lemma join_LF_cons_head x l : ∃ rest, join LF (x :: l) = x ++ rest.
Proof.
  destruct l as [|y l]; [exists []; by rewrite app_nil_r|].
  by exists (LF ++ join LF (y :: l)).
Qed.

(** Rows that are told apart: when each row is not empty, has no line feed
    if its number has none, and determines its number, the joined rows
    determine the numbers. *)
Lemma join_rows_inj : ∀ ns ns' (f : nat → list N → list N),
  (∀ i n, f i n ≠ [] ∧ (10%N ∉ n → 10%N ∉ f i n) ∧
          ∀ n', f i n = f i n' → n = n') →
  Forall (λ n, 10%N ∉ n) ns → Forall (λ n, 10%N ∉ n) ns' →
  join LF (imap f ns) = join LF (imap f ns') → ns = ns'.
Proof.
  induction ns as [|n ns IH]; intros [|n' ns'] f Hf Hns Hns' E.
  - done.
  - exfalso. cbn [imap] in E. destruct (Hf 0 n') as (Hne & _).
    destruct (join_LF_cons_head (f 0 n') (imap (f ∘ S) ns')) as [rest Hr].
    rewrite Hr in E. by destruct (f 0 n').
  - exfalso. cbn [imap] in E. destruct (Hf 0 n) as (Hne & _).
    destruct (join_LF_cons_head (f 0 n) (imap (f ∘ S) ns)) as [rest Hr].
    rewrite Hr in E. by destruct (f 0 n).
  - apply Forall_cons in Hns as [Hn Hns]. apply Forall_cons in Hns' as [Hn' Hns'].
    cbn [imap] in E.
    destruct (Hf 0 n) as (_ & Hfree & Hinj). destruct (Hf 0 n') as (_ & Hfree' & _).
    assert (Hf' : ∀ i m, (f ∘ S) i m ≠ [] ∧ (10%N ∉ m → 10%N ∉ (f ∘ S) i m) ∧
                         ∀ m', (f ∘ S) i m = (f ∘ S) i m' → m = m')
      by (intros i m; apply Hf).
    destruct (decide (ns = [])) as [->|Hne]; destruct (decide (ns' = [])) as [->|Hne'].
    + cbn in E. by rewrite (Hinj n' E).
    + exfalso. rewrite (join_LF_cons _ (imap _ ns')) in E
        by (by destruct ns').
      cbn [imap join] in E.
      apply (Hfree Hn). rewrite E. apply elem_of_app. right. by left.
    + exfalso. rewrite (join_LF_cons _ (imap _ ns)) in E
        by (by destruct ns).
      cbn [imap join] in E.
      apply (Hfree' Hn'). rewrite <-E. apply elem_of_app. right. by left.
    + rewrite (join_LF_cons _ (imap _ ns)) in E by (by destruct ns).
      rewrite (join_LF_cons _ (imap _ ns')) in E by (by destruct ns').
      apply split_at_LF in E as [E1 E2]; [|auto..].
      rewrite (Hinj n' E1). f_equal. by apply (IH ns' (f ∘ S)).
Qed.

Lemma LF_free_digits (n : list N) :
  Forall (λ c, is_digit c = true) n → 10%N ∉ n.
Proof.
  intros Hn Hin. by apply (proj1 (Forall_forall _ _) Hn) in Hin.
Qed.

(** [csvContent] loses nothing: two lists of numbers with the same CSV text
    are the same list, provided that no number contains a line feed (a
    number of [extractIndianNumbers] consists of digits). *)
Theorem csvContent_inj ns ns' :
  Forall (λ n, 10%N ∉ n) ns → Forall (λ n, 10%N ∉ n) ns' →
  csvContent ns = csvContent ns' → ns = ns'.
Proof.
  intros Hns Hns' E. unfold csvContent in E. apply app_inv_head in E.
  apply join_rows_inj in E; [done| |done..].
  intros i n. split; [|split].
  - by destruct (Number_toString (N.of_nat (i + 1))).
  - intros Hn. rewrite !not_elem_of_app. split; [|split; [|done]].
    + by apply Number_toString_no.
    + by apply (bool_decide_unpack _).
  - intros n' E'. by apply app_inv_head, app_inv_head in E'.
Qed.

Lemma csvContent_inj_witness :
  let ns := extractIndianNumbers (str "9876543210, 07000000001") in
  let ns' := [str "919876543210"; str "917000000001"] in
  Forall (λ n, 10%N ∉ n) ns ∧ Forall (λ n, 10%N ∉ n) ns' ∧
  csvContent ns = csvContent ns' ∧ ns = ns'.
Proof.
  intros ns ns'.
  assert (H1 : Forall (λ n, 10%N ∉ n) ns).
  { apply (bool_decide_unpack _). vm_compute. exact I. }
  assert (H2 : Forall (λ n, 10%N ∉ n) ns').
  { apply (bool_decide_unpack _). vm_compute. exact I. }
  assert (H3 : csvContent ns = csvContent ns') by reflexivity.
  split; [exact H1|]. split; [exact H2|]. split; [exact H3|].
  exact (csvContent_inj ns ns' H1 H2 H3).
Defined.

Example csv_of_two_numbers :
  csvContent [str "919876543210"; str "917000000001"] =
  str "Number,Phone Number" ++ LF ++ str "1,919876543210" ++ LF ++
  str "2,917000000001".
Proof. reflexivity. Qed.

Example csv_of_no_number : csvContent [] = str "Number,Phone Number" ++ LF.
Proof. reflexivity. Qed.

(** *** Object URLs *)

Lemma filter_all {A} (P : A → Prop) `{!∀ x, Decision (P x)} (l : list A) :
  Forall P l → filter P l = l.
Proof.
  induction 1 as [|x l Hx _ IH]; [done|].
  by rewrite filter_cons_True, IH.
Qed.

Lemma revoke_created url b (urls : list (list N * blob)) :
  url ∉ urls.*1 → filter (λ e, e.1 ≠ url) ((url, b) :: urls) = urls.
Proof.
  intros Hfresh. rewrite filter_cons_False by (cbn; tauto).
  apply filter_all, Forall_forall. intros e He E. apply Hfresh.
  rewrite <-E. apply list_elem_of_fmap. by exists e.
Qed.

Lemma click_created url b name p :
  click url name (createObjectURL url b p) =
  Page (results p) (history p) (isProcessing p) (file_input p) (ocr_history p)
       ((url, b) :: object_urls p) (saved_files p ++ [(name, b)]).
Proof.
  unfold click, createObjectURL, set_object_urls.
  cbn [object_urls list_find]. by rewrite decide_True.
Qed.

(** [downloadCSV] when the browser chooses a new URL: the file is saved,
    the URL is gone again, and the history is saved if there is no custom
    name. *)
Lemma downloadCSV_fresh url now_id now_ts numbers customName p :
  url ∉ (object_urls p).*1 →
  downloadCSV url now_id now_ts numbers customName p =
  let name := if truthy customName then default [] customName else next_name p in
  let saved :=
    Page (results p) (history p) (isProcessing p) (file_input p) (ocr_history p)
         (object_urls p)
         (saved_files p ++ [(name, Blob (csvContent numbers) (str "text/csv"))]) in
  if negb (truthy customName)
  then saveToHistory now_id now_ts name numbers saved
  else saved.
Proof.
  intros Hfresh. unfold downloadCSV. rewrite click_created.
  unfold revokeObjectURL, set_object_urls. cbn [object_urls].
  rewrite revoke_created by done. done.
Qed.

(** [downloadCSV] saves exactly one file, the CSV text of the numbers, and
    revokes the object URL that it has created: the object URLs that are
    alive are the same after the call as before.  The file is saved under
    the custom name; without one, or with the empty string as the name,
    under the number of the next history entry.  The URL that the browser
    chooses is taken to be new. *)
Theorem downloadCSV_saves_one_file url now_id now_ts numbers customName p :
  url ∉ (object_urls p).*1 →
  let p' := downloadCSV url now_id now_ts numbers customName p in
  object_urls p' = object_urls p ∧
  saved_files p' =
    saved_files p ++
    [(match customName with
      | Some (c :: name) => c :: name
      | _ => Number_toString (N.of_nat (length (history p) + 1)) ++ str ".csv"
      end,
      Blob (csvContent numbers) (str "text/csv"))] ∧
  results p' = results p ∧ file_input p' = file_input p ∧
  isProcessing p' = isProcessing p.
Proof.
  intros Hfresh p'. unfold p'. rewrite downloadCSV_fresh by done. cbn zeta.
  destruct customName as [[|c name]|]; cbn [truthy negb default];
    unfold saveToHistory, next_name; try case_decide; done.
Qed.

Lemma downloadCSV_saves_one_file_witness :
  let p := Page [] [] false (Some []) None [(str "blob:1", File (str "a.png"))] [] in
  (str "blob:2" ∉ (object_urls p).*1) ∧
  object_urls (downloadCSV (str "blob:2") 1700000000000 1700000000001
                 [str "919876543210"] (Some []) p) = object_urls p ∧
  saved_files (downloadCSV (str "blob:2") 1700000000000 1700000000001
                 [str "919876543210"] (Some []) p) =
    [(str "1.csv", Blob (csvContent [str "919876543210"]) (str "text/csv"))].
Proof.
  intros p.
  assert (H : str "blob:2" ∉ (object_urls p).*1).
  { apply (bool_decide_unpack _). vm_compute. exact I. }
  pose proof (downloadCSV_saves_one_file (str "blob:2") 1700000000000
                1700000000001 [str "919876543210"] (Some []) p H)
    as (H1 & H2 & _).
  split; [exact H|]. split; [exact H1|]. exact H2.
Defined.

(** *** The history *)

Lemma click_keeps url name p :
  results (click url name p) = results p ∧
  history (click url name p) = history p ∧
  isProcessing (click url name p) = isProcessing p ∧
  file_input (click url name p) = file_input p ∧
  ocr_history (click url name p) = ocr_history p ∧
  object_urls (click url name p) = object_urls p.
Proof.
  unfold click.
  by destruct (list_find (λ e, e.1 = url) (object_urls p)) as [[i [u b]]|].
Qed.

(** What [downloadCSV] does to the history. *)
Lemma downloadCSV_history url now_id now_ts numbers customName p :
  let p' := downloadCSV url now_id now_ts numbers customName p in
  if truthy customName || bool_decide (numbers = [])
  then history p' = history p ∧ ocr_history p' = ocr_history p
  else history p' =
         HistoryItem.Make (Number_toString now_id) (next_name p) now_ts
           (length numbers) (csvContent numbers) :: take 4 (history p) ∧
       ocr_history p' = Some (history p').
Proof.
  intros p'. unfold p', downloadCSV.
  set (name := if truthy customName then default [] customName else next_name p).
  set (b := Blob (csvContent numbers) (str "text/csv")).
  destruct (click_keeps url name (createObjectURL url b p))
    as (_ & Hh & _ & _ & Ho & _).
  cbn [createObjectURL set_object_urls history ocr_history] in Hh, Ho.
  destruct (truthy customName); cbn [negb orb].
  - unfold revokeObjectURL, set_object_urls. cbn [history ocr_history]. done.
  - unfold saveToHistory. case_bool_decide as Hn.
    + subst numbers. rewrite decide_True by done.
      unfold revokeObjectURL, set_object_urls. cbn [history ocr_history]. done.
    + rewrite decide_False by (by destruct numbers).
      unfold localStorage_setItem, setHistory, next_name, revokeObjectURL,
        set_object_urls.
      cbn [history ocr_history]. rewrite Hh. done.
Qed.

(** A download without a custom name is recorded: the new history entry
    comes first, has the name and the content of the file that has just
    been saved and counts its numbers; the four newest entries from before
    follow it, so that the history never holds more than five entries; and
    the history is stored as it then is. *)
Theorem downloadCSV_recorded url now_id now_ts numbers p :
  url ∉ (object_urls p).*1 → numbers ≠ [] →
  let p' := downloadCSV url now_id now_ts numbers None p in
  ∃ item,
    history p' = item :: take 4 (history p) ∧
    last (saved_files p') =
      Some (HistoryItem.fileName item,
            Blob (HistoryItem.data item) (str "text/csv")) ∧
    HistoryItem.count item = length numbers ∧
    HistoryItem.id item = Number_toString now_id ∧
    HistoryItem.timestamp item = now_ts ∧
    length (history p') ≤ 5 ∧
    ocr_history p' = Some (history p').
Proof.
  intros Hfresh Hne p'.
  pose proof (downloadCSV_history url now_id now_ts numbers None p) as Hh.
  cbn zeta in Hh. cbn [truthy orb] in Hh.
  rewrite bool_decide_eq_false_2 in Hh by done. destruct Hh as [Hh Ho].
  assert (Hs : saved_files p' =
               saved_files p ++
               [(next_name p, Blob (csvContent numbers) (str "text/csv"))]).
  { unfold p'. rewrite downloadCSV_fresh by done. cbn zeta.
    cbn [truthy negb]. unfold saveToHistory.
    by rewrite decide_False by (by destruct numbers). }
  eexists. split; [exact Hh|]. rewrite Hs, last_snoc.
  cbn [HistoryItem.fileName HistoryItem.data HistoryItem.count HistoryItem.id
       HistoryItem.timestamp].
  split; [done|]. split; [done|]. split; [done|]. split; [done|].
  split; [|done]. unfold p'. rewrite Hh. cbn [length]. rewrite length_take. lia.
Qed.

Lemma downloadCSV_recorded_witness :
  let old := HistoryItem.Make (str "1699999999999") (str "1.csv") 1699999999999 1
               (csvContent [str "917000000001"]) in
  let p := Page [] [old] false (Some []) (Some [old]) [] [] in
  let numbers := [str "919876543210"; str "918888888888"] in
  let p' := downloadCSV (str "blob:7") 1700000000000 1700000000002 numbers None p in
  (str "blob:7" ∉ (object_urls p).*1) ∧ numbers ≠ [] ∧
  ∃ item,
    history p' = item :: take 4 (history p) ∧
    last (saved_files p') =
      Some (HistoryItem.fileName item,
            Blob (HistoryItem.data item) (str "text/csv")) ∧
    HistoryItem.count item = 2 ∧
    HistoryItem.id item = str "1700000000000" ∧
    HistoryItem.fileName item = str "2.csv".
Proof.
  intros old p numbers p'.
  assert (H1 : str "blob:7" ∉ (object_urls p).*1).
  { apply (bool_decide_unpack _). vm_compute. exact I. }
  assert (H2 : numbers ≠ []) by (intros H; discriminate H).
  split; [exact H1|]. split; [exact H2|].
  pose proof (downloadCSV_recorded (str "blob:7") 1700000000000 1700000000002
                numbers p H1 H2) as H.
  cbn zeta in H. destruct H as (item & Hh & Hs & Hc & Hi & _).
  exists item. split; [exact Hh|]. split; [exact Hs|]. split; [exact Hc|].
  split; [exact Hi|]. apply (f_equal head) in Hh. vm_compute in Hh.
  injection Hh as <-. reflexivity.
Defined.

(** The download of a row is not recorded: the custom name that the row
    passes is never empty, so the history and its stored copy stay as they
    are, and the file is saved under the name of the image with [.csv] in
    place of its extension. *)
Theorem row_onClick_not_recorded url now_id now_ts result p :
  let p' := row_onClick url now_id now_ts result p in
  history p' = history p ∧ ocr_history p' = ocr_history p ∧
  (url ∉ (object_urls p).*1 →
   saved_files p' =
     saved_files p ++
     [(csv_name (App.fileName result),
       Blob (csvContent (App.numbers result)) (str "text/csv"))]).
Proof.
  intros p'. unfold p', row_onClick.
  pose proof (csv_name_not_empty (App.fileName result)) as Hname.
  destruct (csv_name (App.fileName result)) as [|c name] eqn:E; [done|].
  pose proof (downloadCSV_history url now_id now_ts (App.numbers result)
                (Some (c :: name)) p) as Hh.
  cbn zeta in Hh. cbn [truthy orb] in Hh. destruct Hh as [Hh Ho].
  split; [done|]. split; [done|]. intros Hfresh.
  by rewrite downloadCSV_fresh by done.
Qed.

(** The names of the history entries repeat: an entry is named after the
    length of the history, which stays at five once it is full, so from
    then on every new entry is called [6.csv]. *)
Theorem history_names_repeat url1 a1 b1 ns1 url2 a2 b2 ns2 p :
  length (history p) = 5 → ns1 ≠ [] → ns2 ≠ [] →
  let p1 := downloadCSV url1 a1 b1 ns1 None p in
  let p2 := downloadCSV url2 a2 b2 ns2 None p1 in
  HistoryItem.fileName <$> take 2 (history p2) = [str "6.csv"; str "6.csv"] ∧
  length (history p2) = 5.
Proof.
  intros Hlen Hn1 Hn2 p1 p2.
  pose proof (downloadCSV_history url1 a1 b1 ns1 None p) as H1.
  pose proof (downloadCSV_history url2 a2 b2 ns2 None p1) as H2.
  cbn zeta in H1, H2. cbn [truthy orb] in H1, H2.
  rewrite bool_decide_eq_false_2 in H1 by done.
  rewrite bool_decide_eq_false_2 in H2 by done.
  destruct H1 as [H1 _]. destruct H2 as [H2 _]. fold p1 in H1, H2. fold p2 in H2.
  assert (Hl1 : length (history p1) = 5).
  { rewrite H1. cbn [length]. rewrite length_take. lia. }
  rewrite H2, H1. unfold next_name. rewrite Hl1, Hlen. split.
  - done.
  - cbn [length take]. rewrite length_take, length_take. lia.
Qed.

Lemma history_names_repeat_witness :
  let item k := HistoryItem.Make (str "1699999999999") (Number_toString k ++ str ".csv")
                  1699999999999 1 (csvContent [str "917000000001"]) in
  let p := Page [] [item 5; item 4; item 3; item 2; item 1]%N false (Some [])
                None [] [] in
  let p1 := downloadCSV (str "blob:1") 1700000000000 1700000000000
              [str "919876543210"] None p in
  let p2 := downloadCSV (str "blob:2") 1700000000500 1700000000500
              [str "918888888888"] None p1 in
  length (history p) = 5 ∧
  HistoryItem.fileName <$> history p2 =
    [str "6.csv"; str "6.csv"; str "5.csv"; str "4.csv"; str "3.csv"] ∧
  HistoryItem.fileName <$> take 2 (history p2) = [str "6.csv"; str "6.csv"].
Proof.
  intros item p p1 p2.
  assert (H : length (history p) = 5) by reflexivity.
  split; [exact H|]. split; [reflexivity|].
  exact (proj1 (history_names_repeat (str "blob:1") 1700000000000 1700000000000
                  [str "919876543210"] (str "blob:2") 1700000000500 1700000000500
                  [str "918888888888"] p H
                  ltac:(intros E; discriminate E) ltac:(intros E; discriminate E))).
Defined.

(** *** The combined download *)

Lemma foldl_numbers (rs : list App.ProcessingResult) : ∀ acc,
  foldl (λ s r, foldl (λ s n, set_add n s) s (App.numbers r)) acc rs =
  foldl (λ s n, set_add n s) acc (rs ≫= App.numbers).
Proof.
  induction rs as [|r rs IH]; intros acc; [done|].
  cbn [foldl]. by rewrite IH, bind_cons, foldl_app.
Qed.

Lemma allNumbersSet_first_seen rs :
  allNumbersSet rs = first_seen (rs ≫= App.numbers).
Proof.
  unfold allNumbersSet. rewrite foldl_numbers, foldl_set_add. cbn [app].
  f_equal. apply filter_all, Forall_forall. intros n _. apply not_elem_of_nil.
Qed.

(** [downloadAllCombined] saves the numbers of all jobs of the queue in one
    CSV file, each number once however often and in however many jobs it
    occurs, in the order of the first occurrence; the file gets the number
    of the next history entry as its name. *)
Theorem downloadAllCombined_numbers url now_id now_ts p :
  url ∉ (object_urls p).*1 →
  let all := first_seen (results p ≫= App.numbers) in
  NoDup all ∧
  (∀ n, n ∈ all ↔ ∃ r, r ∈ results p ∧ n ∈ App.numbers r) ∧
  last (saved_files (downloadAllCombined url now_id now_ts p)) =
    Some (Number_toString (N.of_nat (length (history p) + 1)) ++ str ".csv",
          Blob (csvContent all) (str "text/csv")).
Proof.
  intros Hfresh all. split; [apply NoDup_first_seen|]. split.
  - intros n. unfold all. rewrite elem_of_first_seen, list_elem_of_bind.
    split; intros (r & H1 & H2); eauto.
  - unfold downloadAllCombined. rewrite downloadCSV_fresh by done. cbn zeta.
    cbn [truthy negb]. rewrite allNumbersSet_first_seen. fold all.
    unfold saveToHistory. case_decide; cbn [saved_files localStorage_setItem setHistory];
      by rewrite last_snoc.
Qed.

Lemma downloadAllCombined_numbers_witness :
  let job name ns := App.Result (str "id") name App.Status.completed 100 (Some [])
                       ns None (str "blob:0") in
  let p := Page [job (str "a.png") [str "919876543210"; str "917000000001"];
                 job (str "b.png") [];
                 job (str "c.png") [str "917000000001"; str "918888888888"]]
                [] false (Some []) None [] [] in
  (str "blob:9" ∉ (object_urls p).*1) ∧
  last (saved_files (downloadAllCombined (str "blob:9") 1700000000000 1700000000000 p)) =
    Some (str "1.csv",
          Blob (csvContent [str "919876543210"; str "917000000001";
                            str "918888888888"]) (str "text/csv")).
Proof.
  intros job p.
  assert (H : str "blob:9" ∉ (object_urls p).*1).
  { apply (bool_decide_unpack _). vm_compute. exact I. }
  split; [exact H|].
  exact (proj2 (proj2 (downloadAllCombined_numbers (str "blob:9") 1700000000000
                         1700000000000 p H))).
Defined.

(** When the button of the combined download is enabled, nothing is being
    processed and some job has a number, so the download is recorded in
    the history with at least one number. *)
Theorem combined_enabled_recorded url now_id now_ts p :
  combined_disabled p = false →
  let p' := downloadAllCombined url now_id now_ts p in
  isProcessing p = false ∧
  ∃ item, history p' = item :: take 4 (history p) ∧
          1 ≤ HistoryItem.count item ∧
          ocr_history p' = Some (history p').
Proof.
  unfold combined_disabled. intros [Hp Hall]%orb_false_iff.
  split; [done|].
  assert (Hne : allNumbersSet (results p) ≠ []).
  { intros E. rewrite allNumbersSet_first_seen in E.
    assert (Hin : ∀ n, n ∉ results p ≫= App.numbers).
    { intros n Hn. apply elem_of_first_seen in Hn. rewrite E in Hn.
      by apply elem_of_nil in Hn. }
    assert (Htrue : forallb (λ r, bool_decide (length (App.numbers r) = 0))
                            (results p) = true); [|congruence].
    apply forallb_forall. intros r Hr%list_elem_of_In.
    apply bool_decide_eq_true. destruct (App.numbers r) as [|n ns] eqn:Er; [done|].
    destruct (Hin n). apply list_elem_of_bind. exists r. split; [|done].
    rewrite Er. by left. }
  pose proof (downloadCSV_history url now_id now_ts (allNumbersSet (results p))
                None p) as Hh.
  cbn zeta in Hh. cbn [truthy orb] in Hh.
  rewrite bool_decide_eq_false_2 in Hh by done. destruct Hh as [Hh Ho].
  eexists. split; [exact Hh|]. split; [|exact Ho].
  cbn [HistoryItem.count]. destruct (allNumbersSet (results p)); [done|].
  cbn [length]. lia.
Qed.

Lemma combined_enabled_recorded_witness :
  let job ns := App.Result (str "id") (str "a.png") App.Status.completed 100
                  (Some []) ns None (str "blob:0") in
  let p := Page [job []; job [str "919876543210"]] [] false (Some []) None [] [] in
  let p' := downloadAllCombined (str "blob:9") 1700000000000 1700000000000 p in
  combined_disabled p = false ∧
  ∃ item, history p' = item :: take 4 (history p) ∧
          1 ≤ HistoryItem.count item ∧
          ocr_history p' = Some (history p').
Proof.
  intros job p p'.
  assert (H : combined_disabled p = false) by reflexivity.
  split; [exact H|].
  exact (proj2 (combined_enabled_recorded (str "blob:9") 1700000000000
                  1700000000000 p H)).
Defined.

(** *** Clearing the queue *)

Lemma foldl_revoke (rs : list App.ProcessingResult) : ∀ p,
  foldl (λ p r, revokeObjectURL (App.previewUrl r) p) p rs =
  set_object_urls
    (filter (λ e, e.1 ∉ App.previewUrl <$> rs) (object_urls p)) p.
Proof.
  induction rs as [|r rs IH]; intros p.
  - cbn [foldl fmap list_fmap]. rewrite filter_all.
    + by destruct p.
    + apply Forall_forall. intros e _. apply not_elem_of_nil.
  - cbn [foldl]. rewrite IH. unfold revokeObjectURL, set_object_urls.
    cbn [results history isProcessing file_input ocr_history object_urls
         saved_files].
    f_equal. rewrite list_filter_filter. apply list_filter_iff.
    intros e. rewrite fmap_cons, not_elem_of_cons. tauto.
Qed.

(** [clearResults] empties the queue and the file input, and revokes the
    preview URL of every job of the queue: exactly the other object URLs
    stay alive.  The history, its stored copy and the saved files are not
    touched. *)
Theorem clearResults_revokes p :
  let p' := clearResults p in
  results p' = [] ∧
  object_urls p' =
    filter (λ e, e.1 ∉ App.previewUrl <$> results p) (object_urls p) ∧
  (∀ r, r ∈ results p → App.previewUrl r ∉ (object_urls p').*1) ∧
  file_input p' = (λ _, []) <$> file_input p ∧
  history p' = history p ∧ ocr_history p' = ocr_history p ∧
  saved_files p' = saved_files p ∧ isProcessing p' = isProcessing p.
Proof.
  intros p'. unfold p', clearResults. rewrite foldl_revoke.
  unfold setResults, set_object_urls.
  cbn [results history isProcessing file_input ocr_history object_urls saved_files].
  assert (Hgone : ∀ r, r ∈ results p →
            App.previewUrl r ∉
            (filter (λ e, e.1 ∉ App.previewUrl <$> results p) (object_urls p)).*1).
  { intros r Hr (e & E & He)%list_elem_of_fmap.
    apply list_elem_of_filter in He as [He _]. apply He. rewrite <-E.
    apply list_elem_of_fmap. by exists r. }
  by destruct (file_input p).
Qed.

Example clearing_the_queue :
  let job url := App.Result (str "id") (str "a.png") App.Status.completed 100
                   (Some []) [] None url in
  let p := Page [job (str "blob:1"); job (str "blob:2")] [] false
                (Some (str "C:/fakepath/a.png")) None
                [(str "blob:3", File (str "c.png"));
                 (str "blob:2", File (str "b.png"));
                 (str "blob:1", File (str "a.png"))] [] in
  clearResults p =
  Page [] [] false (Some []) None [(str "blob:3", File (str "c.png"))] [].
Proof. reflexivity. Qed.

(** *** Downloading from the history *)

(** The download button of a history entry saves the entry under its
    name, but the object URL that it creates is never revoked: every click
    leaves one more object URL alive, unlike [downloadCSV]. *)
Theorem history_onClick_keeps_urls (clicks : list (list N * HistoryItem.t)) p :
  let p' := foldl (λ p click, history_onClick click.1 click.2 p) p clicks in
  length (object_urls p') = length (object_urls p) + length clicks ∧
  length (saved_files p') = length (saved_files p) + length clicks ∧
  history p' = history p.
Proof.
  revert p. induction clicks as [|[url item] clicks IH]; intros p; cbn zeta.
  - cbn [foldl length]. split; [lia|]. split; [lia|done].
  - cbn [foldl fst snd]. destruct (IH (history_onClick url item p)) as (-> & -> & ->).
    unfold history_onClick. rewrite click_created.
    cbn [object_urls saved_files history length]. rewrite length_app.
    cbn [length]. split; [lia|]. split; [lia|done].
Qed.

End HandlersFacts.
